(** * fdemanager: scheduler, peer-credential listener, access gateway, daemon stop

    Shallow embedding of the control plane of the fdemanager daemon
    (internal/daemon and internal/overlord) and the properties its
    specification states about it.

    - [Ucrednet]: the peer-credential listener and the peer-address parser
      (internal/daemon, ucrednet).
    - [Command]: the access gateway [command.Run] (internal/daemon/command.go).
    - [Overlord]: the ensure schedule, [Settle], [prune] and [Stop]
      (internal/overlord/overlord.go).
    - [Daemon]: [Daemon.Stop] (internal/daemon/daemon.go).

    Go values are modelled as follows: [time.Time] and [time.Duration] are
    integers ([Z], in one unit of time); a nil-able pointer, interface or
    function value is an [option]; a panic is the [Panics] branch of an
    outcome type; what a function does to its collaborators is recorded as a
    trace of events. *)

From Stdlib Require Import ZArith NArith List String Ascii Bool Lia.
Import ListNotations.

(* ===================================================================== *)
(** * How a Go call ends *)
(* ===================================================================== *)

Module Go.

(** A call returns a value or panics with a message. *)
Inductive outcome (A : Type) : Type :=
| Returns (a : A)
| Panics (msg : string).
Arguments Returns {A} a.
Arguments Panics {A} msg.

End Go.

(* ===================================================================== *)
(** * Peer-credential listener and peer-address parser *)
(* ===================================================================== *)

Module Ucrednet.

Local Open Scope string_scope.

(** The identity attached to an accepted connection:
    [type ucrednet struct { Pid int32; Uid uint32; Socket string }]
    (fields as read by ucrednet_test.go). *)
Record ucrednet : Type := mk_ucrednet {
  Pid : Z;
  Uid : Z;
  Socket : string
}.

Inductive error : Type :=
| errNoID                     (* the uniform "no identifiable peer" error *)
| errOther (msg : string).    (* any other error value, e.g. from the OS *)

(** ** Decimal formatting and parsing, as [fmt]'s [%d] and [strconv] do it *)

Definition digit_char (n : N) : ascii := ascii_of_N (48 + n).

Definition is_digit (c : ascii) : bool :=
  let n := N_of_ascii c in ((48 <=? n) && (n <=? 57))%N.

Definition digit_val (c : ascii) : N := (N_of_ascii c - 48)%N.

Fixpoint digits_acc (fuel : nat) (n : N) (acc : string) : string :=
  let acc' := String (digit_char (n mod 10)) acc in
  match fuel with
  | O => acc'
  | S f => if (n / 10 =? 0)%N then acc' else digits_acc f (n / 10) acc'
  end.

(** [%d] of an unsigned value; the number of binary digits bounds the
    number of decimal ones. *)
Definition formatUint (n : N) : string :=
  digits_acc (N.to_nat (N.log2 n)) n "".

(** [%d] of a signed value. *)
Definition formatInt (z : Z) : string :=
  match z with
  | Zneg p => "-" ++ formatUint (Npos p)
  | _ => formatUint (Z.to_N z)
  end.

Fixpoint atoi_acc (acc : N) (s : string) : N :=
  match s with
  | EmptyString => acc
  | String c r => atoi_acc (10 * acc + digit_val c) r
  end.

Fixpoint all_chars (f : ascii -> bool) (s : string) : bool :=
  match s with
  | EmptyString => true
  | String c r => f c && all_chars f r
  end.

(** A decimal field of the address: at least one digit, value within the
    unsigned 32-bit range. *)
Definition parseUint32 (s : string) : option Z :=
  match s with
  | EmptyString => None
  | _ =>
      if all_chars is_digit s then
        let v := atoi_acc 0 s in
        if (v <? 2 ^ 32)%N then Some (Z.of_N v) else None
      else None
  end.

(** ** Scanning helpers *)

Fixpoint span (f : ascii -> bool) (s : string) : string * string :=
  match s with
  | EmptyString => (EmptyString, EmptyString)
  | String c r =>
      if f c then let (a, b) := span f r in (String c a, b)
      else (EmptyString, s)
  end.

Fixpoint trim_prefix (p s : string) : option string :=
  match p with
  | EmptyString => Some s
  | String a p' =>
      match s with
      | EmptyString => None
      | String b s' => if Ascii.eqb a b then trim_prefix p' s' else None
      end
  end.

Definition not_semicolon (c : ascii) : bool := negb (Ascii.eqb c ";"%char).

(** ** The address of a wrapped connection *)

(** The formatter of the synthetic peer address,
    [pid=<P>;uid=<U>;socket=<S>;]. *)
Definition format (u : ucrednet) : string :=
  "pid=" ++ formatInt (Pid u) ++ ";uid=" ++ formatInt (Uid u)
         ++ ";socket=" ++ Socket u ++ ";".

(** The address reported for a connection without an identity: the pid and
    uid fields are empty. *)
Definition format_empty (sock : string) : string :=
  "pid=;uid=;socket=" ++ sock ++ ";".

(** Modelled from the spec: ucrednet.go, which holds [ucrednetGet] (the
    spec's [ParseIdentity]), is not among the sources; only its tests
    (ucrednet_test.go) and its export (export_test.go) are.  The three fields
    are matched in order, each exactly once, the socket field runs up to the
    first semicolon and that semicolon must end the string. *)
Definition match_addr (s : string) : option (string * string * string) :=
  match trim_prefix "pid=" s with
  | None => None
  | Some r1 =>
      let (pd, r2) := span is_digit r1 in
      match trim_prefix ";uid=" r2 with
      | None => None
      | Some r3 =>
          let (ud, r4) := span is_digit r3 in
          match trim_prefix ";socket=" r4 with
          | None => None
          | Some r5 =>
              let (sock, r6) := span not_semicolon r5 in
              if String.eqb r6 ";" then Some (pd, ud, sock) else None
          end
      end
  end.

(** Modelled from the spec: [ucrednetGet] returns either a complete identity
    and no error, or no identity and [errNoID]; an absent or out-of-range
    pid or uid is a rejection like any other. *)
Definition ucrednetGet (remoteAddr : string) : option ucrednet * option error :=
  match match_addr remoteAddr with
  | None => (None, Some errNoID)
  | Some (pd, ud, sock) =>
      match parseUint32 pd, parseUint32 ud with
      | Some p, Some u => (Some (mk_ucrednet p u sock), None)
      | _, _ => (None, Some errNoID)
      end
  end.

(** ** The listener *)

Inductive connKind : Type :=
| UnixConn      (* a [*net.UnixConn]: peer credentials can be asked for *)
| OtherConn.    (* any other [net.Conn], e.g. TCP *)

Record conn : Type := mk_conn {
  kind : connKind;
  sockAddr : string      (* the address the raw connection reports *)
}.

(** [sys.Ucred] *)
Record Ucred : Type := mk_Ucred { ucPid : Z; ucUid : Z; ucGid : Z }.

Inductive result (A : Type) : Type :=
| Ok (a : A)
| Err (e : error).
Arguments Ok {A} a.
Arguments Err {A} e.

(** [ucrednetConn]: the raw connection and the identity captured at accept
    time ([nil] when there is none). *)
Record ucrednetConn : Type := mk_ucrednetConn {
  Conn : conn;
  unet : option ucrednet
}.

(** [conn.RemoteAddr().String()] of a wrapped connection. *)
Definition RemoteAddrString (c : ucrednetConn) : string :=
  match unet c with
  | Some u => format u
  | None => format_empty (sockAddr (Conn c))
  end.

(** Modelled from the spec: ucrednet.go, which holds
    [ucrednetListener.Accept], is not among the sources.  [inner] is the
    result of the wrapped listener's [Accept], [getUcred] the result of the
    credential call (the mockable [getUcred] variable of export_test.go) on
    the new connection.  A connection whose type has no credentials gets the
    empty identity.  For a failing credential call the spec's text (proceed
    with an empty identity) and the repository's test differ:
    TestUcredErrors (ucrednet_test.go) mocks the call to fail and asserts
    that [Accept] returns that very error; the model follows the test. *)
Definition Accept (inner : result conn) (getUcred : result Ucred)
  : result ucrednetConn :=
  match inner with
  | Err e => Err e
  | Ok con =>
      match kind con with
      | UnixConn =>
          match getUcred with
          | Err e => Err e
          | Ok uc =>
              Ok (mk_ucrednetConn con
                    (Some (mk_ucrednet (ucPid uc) (ucUid uc) (sockAddr con))))
          end
      | OtherConn => Ok (mk_ucrednetConn con None)
      end
  end.

(** ** The grammar of peer addresses, stated declaratively *)

Definition uint32_field (s : string) : Prop :=
  s <> "" /\ all_chars is_digit s = true /\ (atoi_acc 0 s < 2 ^ 32)%N.

(** [pid=<uint32>;uid=<uint32>;socket=<string>;], each field once, the
    final semicolon last. *)
Inductive Grammar : string -> Prop :=
| Grammar_intro (pd ud sock : string) :
    uint32_field pd -> uint32_field ud ->
    all_chars not_semicolon sock = true ->
    Grammar ("pid=" ++ pd ++ ";uid=" ++ ud ++ ";socket=" ++ sock ++ ";").

(** The malformed addresses the specification lists. *)
Inductive Malformed : string -> Prop :=
| Malformed_no_uid (pd sock : string) :
    Malformed ("pid=" ++ pd ++ ";uid=;socket=" ++ sock ++ ";")
| Malformed_big_uid (pd ud sock : string) :
    all_chars is_digit ud = true ->
    (2 ^ 32 <= atoi_acc 0 ud)%N ->
    Malformed ("pid=" ++ pd ++ ";uid=" ++ ud ++ ";socket=" ++ sock ++ ";")
| Malformed_no_match (s : string) :
    ~ Grammar s ->
    Malformed s
| Malformed_second_pid (first rest : string) :
    Grammar first ->
    Malformed (first ++ "pid=" ++ rest).

(** A valid identity: both numbers are unsigned 32-bit values and the
    socket path does not hold the field separator. *)
Definition valid_identity (u : ucrednet) : Prop :=
  (0 <= Pid u < 2 ^ 32)%Z /\ (0 <= Uid u < 2 ^ 32)%Z /\
  all_chars not_semicolon (Socket u) = true.

Example TestGet :
  ucrednetGet "pid=100;uid=42;socket=/run/snap.socket;"
  = (Some (mk_ucrednet 100 42 "/run/snap.socket"), None).
Proof. reflexivity. Qed.

Example TestGetSneak :
  ucrednetGet "pid=100;uid=42;socket=/run/snap.socket;pid=0;uid=0;socket=/tmp/my.socket"
  = (None, Some errNoID).
Proof. reflexivity. Qed.

Example TestGetBadUid :
  ucrednetGet "pid=100;uid=4294967296;socket=;" = (None, Some errNoID).
Proof. reflexivity. Qed.

Example format_100_42 :
  format (mk_ucrednet 100 42 "/run/snap.socket")
  = "pid=100;uid=42;socket=/run/snap.socket;".
Proof. reflexivity. Qed.

Example TestGetNoUid :
  ucrednetGet "pid=100;uid=;socket=;" = (None, Some errNoID).
Proof. reflexivity. Qed.

Example TestGetNonUcrednet : ucrednetGet "hello" = (None, Some errNoID).
Proof. reflexivity. Qed.

Example TestGetNothing : ucrednetGet "" = (None, Some errNoID).
Proof. reflexivity. Qed.

(** *** Strings *)

Lemma sapp_assoc (a b c : string) : (a ++ b) ++ c = a ++ (b ++ c).
Proof. induction a as [|x a IH]; simpl; [reflexivity | now rewrite IH]. Qed.

Lemma trim_prefix_app (p r : string) : trim_prefix p (p ++ r) = Some r.
Proof.
  induction p as [|a p IH]; simpl; [reflexivity|].
  now rewrite Ascii.eqb_refl.
Qed.

Lemma trim_prefix_inv (p : string) :
  forall s r, trim_prefix p s = Some r -> s = p ++ r.
Proof.
  induction p as [|a p IH]; simpl; intros s r H.
  - now inversion H.
  - destruct s as [|b s]; [discriminate|].
    destruct (Ascii.eqb_spec a b) as [->|]; [|discriminate].
    now rewrite (IH _ _ H).
Qed.

Lemma span_inv (f : ascii -> bool) :
  forall s a b, span f s = (a, b) ->
    s = a ++ b /\ all_chars f a = true /\
    match b with EmptyString => True | String c _ => f c = false end.
Proof.
  induction s as [|c s IH]; simpl; intros a b H.
  - inversion H; subst; simpl; auto.
  - destruct (f c) eqn:Hc.
    + destruct (span f s) as [a' b'] eqn:Hs. inversion H; subst; clear H.
      destruct (IH _ _ eq_refl) as (-> & Ha & Hb).
      simpl. rewrite Hc, Ha. auto.
    + inversion H; subst; simpl. rewrite Hc. auto.
Qed.

Lemma span_app (f : ascii -> bool) (a : string) (c : ascii) (r : string) :
  all_chars f a = true -> f c = false ->
  span f (a ++ String c r) = (a, String c r).
Proof.
  intros Ha Hc. induction a as [|x a IH]; simpl in *.
  - now rewrite Hc.
  - apply andb_true_iff in Ha as [Hx Ha]. now rewrite Hx, (IH Ha).
Qed.

(** *** Decimal digits *)

Lemma digit_cases (d : N) : (d < 10)%N ->
  d = 0%N \/ d = 1%N \/ d = 2%N \/ d = 3%N \/ d = 4%N \/
  d = 5%N \/ d = 6%N \/ d = 7%N \/ d = 8%N \/ d = 9%N.
Proof. lia. Qed.

Lemma digit_char_is_digit (d : N) :
  (d < 10)%N -> is_digit (digit_char d) = true.
Proof.
  intros H. destruct (digit_cases d H) as [->|[->|[->|[->|[->|[->|[->|[->|[->| ->]]]]]]]]];
    reflexivity.
Qed.

Lemma digit_val_char (d : N) : (d < 10)%N -> digit_val (digit_char d) = d.
Proof.
  intros H. destruct (digit_cases d H) as [->|[->|[->|[->|[->|[->|[->|[->|[->| ->]]]]]]]]];
    reflexivity.
Qed.

Lemma mod10_lt (n : N) : (n mod 10 < 10)%N.
Proof. apply N.mod_lt. discriminate. Qed.

Lemma digits_acc_all_digits (fuel : nat) :
  forall n acc, all_chars is_digit acc = true ->
    all_chars is_digit (digits_acc fuel n acc) = true.
Proof.
  induction fuel as [|f IH]; intros n acc Hacc; simpl.
  - now rewrite digit_char_is_digit by apply mod10_lt.
  - destruct (n / 10 =? 0)%N.
    + simpl. now rewrite digit_char_is_digit by apply mod10_lt.
    + apply IH. simpl. now rewrite digit_char_is_digit by apply mod10_lt.
Qed.

Lemma digits_acc_nonempty (fuel : nat) :
  forall n acc, digits_acc fuel n acc <> "".
Proof.
  induction fuel as [|f IH]; intros n acc; simpl.
  - discriminate.
  - destruct (n / 10 =? 0)%N; [discriminate | apply IH].
Qed.

Lemma atoi_digits_acc (fuel : nat) :
  forall n acc, (n < 2 ^ N.of_nat (S fuel))%N ->
    atoi_acc 0 (digits_acc fuel n acc) = atoi_acc n acc.
Proof.
  induction fuel as [|f IH]; intros n acc Hn.
  - simpl. rewrite digit_val_char by apply mod10_lt.
    change (2 ^ N.of_nat 1)%N with 2%N in Hn.
    rewrite N.mod_small by lia. f_equal.
  - cbn [digits_acc]. destruct (N.eqb_spec (n / 10) 0) as [Hq|Hq].
    + simpl. rewrite digit_val_char by apply mod10_lt.
      f_equal. pose proof (N.div_mod n 10 ltac:(discriminate)) as H.
      rewrite Hq in H. symmetry. exact H.
    + rewrite IH.
      * cbn [atoi_acc]. rewrite digit_val_char by apply mod10_lt.
        f_equal. symmetry. apply N.div_mod. discriminate.
      * rewrite Nat2N.inj_succ, N.pow_succ_r' in Hn.
        apply N.Div0.div_lt_upper_bound.
        remember (2 ^ N.of_nat (S f))%N as k. lia.
Qed.

Lemma log2_bound (n : N) : (n < 2 ^ N.of_nat (S (N.to_nat (N.log2 n))))%N.
Proof.
  rewrite Nat2N.inj_succ, N2Nat.id.
  destruct n as [|p]; [reflexivity|].
  apply N.log2_spec. reflexivity.
Qed.

Lemma atoi_formatUint (n : N) : atoi_acc 0 (formatUint n) = n.
Proof. unfold formatUint. rewrite atoi_digits_acc by apply log2_bound. reflexivity. Qed.

Lemma formatUint_digits (n : N) : all_chars is_digit (formatUint n) = true.
Proof. apply digits_acc_all_digits. reflexivity. Qed.

Lemma formatUint_nonempty (n : N) : formatUint n <> "".
Proof. apply digits_acc_nonempty. Qed.

Lemma formatInt_nonneg (z : Z) : (0 <= z)%Z -> formatInt z = formatUint (Z.to_N z).
Proof. destruct z; simpl; intros H; [reflexivity | reflexivity | lia]. Qed.

Lemma parseUint32_formatInt (z : Z) :
  (0 <= z < 2 ^ 32)%Z -> parseUint32 (formatInt z) = Some z.
Proof.
  intros Hz. rewrite formatInt_nonneg by lia.
  unfold parseUint32.
  destruct (formatUint (Z.to_N z)) eqn:E; [now apply formatUint_nonempty in E|].
  rewrite <- E, formatUint_digits, atoi_formatUint.
  destruct (N.ltb_spec (Z.to_N z) (2 ^ 32)) as [_|Hge].
  - now rewrite Z2N.id by lia.
  - exfalso. change (2 ^ 32)%N with (Z.to_N (2 ^ 32)) in Hge.
    apply Z2N.inj_le in Hge; lia.
Qed.

Lemma parseUint32_inv (s : string) (v : Z) :
  parseUint32 s = Some v -> uint32_field s /\ v = Z.of_N (atoi_acc 0 s).
Proof.
  unfold parseUint32, uint32_field. intros H.
  destruct s as [|c r]; [discriminate|].
  destruct (all_chars is_digit (String c r)); [|discriminate].
  destruct (N.ltb_spec (atoi_acc 0 (String c r)) (2 ^ 32)); [|discriminate].
  inversion H; subst. repeat split; auto. discriminate.
Qed.

Lemma parseUint32_field (s : string) :
  uint32_field s -> parseUint32 s = Some (Z.of_N (atoi_acc 0 s)).
Proof.
  intros (Hne & Hd & Hv). unfold parseUint32.
  destruct s as [|c r]; [congruence|].
  rewrite Hd. apply N.ltb_lt in Hv. now rewrite Hv.
Qed.

(** *** The matcher *)

Lemma is_digit_semicolon : is_digit ";"%char = false.
Proof. reflexivity. Qed.

Lemma not_semicolon_semicolon : not_semicolon ";"%char = false.
Proof. reflexivity. Qed.

(** What the matcher does on an address whose pid and uid fields are runs
    of digits, whatever follows the [socket=] marker. *)
Lemma match_addr_prefix (pd ud rest : string) :
  all_chars is_digit pd = true -> all_chars is_digit ud = true ->
  match_addr ("pid=" ++ pd ++ ";uid=" ++ ud ++ ";socket=" ++ rest)
  = let (sock, r6) := span not_semicolon rest in
    if String.eqb r6 ";" then Some (pd, ud, sock) else None.
Proof.
  intros Hpd Hud. unfold match_addr.
  rewrite trim_prefix_app.
  change (";uid=" ++ ud ++ ";socket=" ++ rest)
    with (String ";"%char ("uid=" ++ ud ++ ";socket=" ++ rest)).
  rewrite (span_app is_digit pd _ _ Hpd is_digit_semicolon).
  change (String ";"%char ("uid=" ++ ud ++ ";socket=" ++ rest))
    with (";uid=" ++ (ud ++ ";socket=" ++ rest)).
  rewrite trim_prefix_app.
  change (";socket=" ++ rest) with (String ";"%char ("socket=" ++ rest)).
  rewrite (span_app is_digit ud _ _ Hud is_digit_semicolon).
  change (String ";"%char ("socket=" ++ rest)) with (";socket=" ++ rest).
  rewrite trim_prefix_app. reflexivity.
Qed.

(** The matcher on a complete field set followed by [tail]. *)
Lemma match_addr_fields (pd ud sock tail : string) :
  all_chars is_digit pd = true -> all_chars is_digit ud = true ->
  all_chars not_semicolon sock = true ->
  match_addr ("pid=" ++ pd ++ ";uid=" ++ ud ++ ";socket=" ++ sock ++ ";" ++ tail)
  = match tail with EmptyString => Some (pd, ud, sock) | _ => None end.
Proof.
  intros Hpd Hud Hs. rewrite match_addr_prefix by assumption.
  change (";" ++ tail) with (String ";"%char tail).
  rewrite (span_app not_semicolon sock _ _ Hs not_semicolon_semicolon).
  destruct tail; reflexivity.
Qed.

Lemma match_addr_inv (s pd ud sock : string) :
  match_addr s = Some (pd, ud, sock) ->
  s = "pid=" ++ pd ++ ";uid=" ++ ud ++ ";socket=" ++ sock ++ ";"
  /\ all_chars is_digit pd = true /\ all_chars is_digit ud = true
  /\ all_chars not_semicolon sock = true.
Proof.
  unfold match_addr. intros H.
  destruct (trim_prefix "pid=" s) as [r1|] eqn:E1; [|discriminate].
  destruct (span is_digit r1) as [pd' r2] eqn:E2.
  destruct (trim_prefix ";uid=" r2) as [r3|] eqn:E3; [|discriminate].
  destruct (span is_digit r3) as [ud' r4] eqn:E4.
  destruct (trim_prefix ";socket=" r4) as [r5|] eqn:E5; [|discriminate].
  destruct (span not_semicolon r5) as [sock' r6] eqn:E6.
  destruct (String.eqb_spec r6 ";") as [->|]; [|discriminate].
  inversion H; subst; clear H.
  apply trim_prefix_inv in E1, E3, E5.
  apply span_inv in E2 as (-> & Hpd & _).
  apply span_inv in E4 as (-> & Hud & _).
  apply span_inv in E6 as (-> & Hs & _).
  subst. repeat split; auto.
Qed.

(** An accepted address matches the grammar and the identity returned is
    the one the address spells, all three fields of it. *)
Lemma ucrednetGet_accepts_inv (s : string) (u : ucrednet) :
  fst (ucrednetGet s) = Some u ->
  Grammar s /\ ucrednetGet s = (Some u, None) /\
  exists pd ud,
    s = "pid=" ++ pd ++ ";uid=" ++ ud ++ ";socket=" ++ Socket u ++ ";"
    /\ Pid u = Z.of_N (atoi_acc 0 pd) /\ Uid u = Z.of_N (atoi_acc 0 ud).
Proof.
  unfold ucrednetGet. intros H.
  destruct (match_addr s) as [[[pd ud] sock]|] eqn:E; [|discriminate].
  destruct (parseUint32 pd) as [p|] eqn:Ep; [|discriminate].
  destruct (parseUint32 ud) as [v|] eqn:Eu; [|discriminate].
  simpl in H. inversion H; subst; clear H.
  apply match_addr_inv in E as (-> & Hpd & Hud & Hs).
  apply parseUint32_inv in Ep as (Fp & ->), Eu as (Fu & ->).
  split; [now constructor|]. split; [reflexivity|].
  exists pd, ud. auto.
Qed.

Lemma ucrednetGet_total (s : string) :
  ucrednetGet s = (None, Some errNoID) \/
  exists u, ucrednetGet s = (Some u, None).
Proof.
  unfold ucrednetGet.
  destruct (match_addr s) as [[[pd ud] sock]|]; [|now left].
  destruct (parseUint32 pd); [|now left].
  destruct (parseUint32 ud); [right; eauto | now left].
Qed.

Lemma ucrednetGet_grammar (s : string) :
  Grammar s -> exists u, ucrednetGet s = (Some u, None).
Proof.
  intros [pd ud sock Fp Fu Hs]. unfold ucrednetGet.
  pose proof Fp as (_ & Hpd & _). pose proof Fu as (_ & Hud & _).
  pose proof (match_addr_fields pd ud sock "" Hpd Hud Hs) as M.
  simpl in M. simpl. rewrite M.
  rewrite (parseUint32_field _ Fp), (parseUint32_field _ Fu). eauto.
Qed.

Lemma formatInt_digits (z : Z) :
  (0 <= z)%Z -> all_chars is_digit (formatInt z) = true.
Proof. intros H. rewrite formatInt_nonneg by assumption. apply formatUint_digits. Qed.

Lemma ucrednetGet_format_empty (sock : string) :
  ucrednetGet (format_empty sock) = (None, Some errNoID).
Proof.
  unfold ucrednetGet, format_empty.
  change ("pid=;uid=;socket=" ++ sock ++ ";")
    with ("pid=" ++ "" ++ ";uid=" ++ "" ++ ";socket=" ++ (sock ++ ";")).
  rewrite match_addr_prefix by reflexivity.
  destruct (span not_semicolon (sock ++ ";")) as [sk r6].
  destruct (String.eqb r6 ";"); reflexivity.
Qed.

(** *** Counting field separators *)

Fixpoint nsemi (s : string) : nat :=
  match s with
  | EmptyString => 0
  | String c r => (if Ascii.eqb c ";"%char then 1 else 0) + nsemi r
  end.

Lemma nsemi_app (a b : string) : nsemi (a ++ b) = (nsemi a + nsemi b)%nat.
Proof. induction a as [|c a IH]; simpl; [reflexivity | rewrite IH; lia]. Qed.

Lemma nsemi_zero (s : string) :
  nsemi s = 0%nat <-> all_chars not_semicolon s = true.
Proof.
  induction s as [|c s IH]; simpl; [tauto|].
  unfold not_semicolon at 1. destruct (Ascii.eqb c ";"%char); simpl.
  - split; [lia | discriminate].
  - exact IH.
Qed.

Lemma digits_no_semicolon (s : string) :
  all_chars is_digit s = true -> all_chars not_semicolon s = true.
Proof.
  induction s as [|c s IH]; simpl; [reflexivity|].
  intros H. apply andb_true_iff in H as [Hc Hs]. rewrite (IH Hs), andb_true_r.
  unfold not_semicolon. destruct (Ascii.eqb_spec c ";"%char) as [->|]; [|reflexivity].
  discriminate Hc.
Qed.

(** A string is cut at its first separator in one way only. *)
Lemma split_semi (a a' r r' : string) :
  all_chars not_semicolon a = true -> all_chars not_semicolon a' = true ->
  a ++ String ";"%char r = a' ++ String ";"%char r' -> a = a' /\ r = r'.
Proof.
  revert a'. induction a as [|c a IH]; intros [|c' a'] Ha Ha' H; simpl in *.
  - inversion H; auto.
  - inversion H; subst. discriminate Ha'.
  - inversion H; subst. discriminate Ha.
  - inversion H; subst.
    apply andb_true_iff in Ha as [_ Ha], Ha' as [_ Ha'].
    destruct (IH a' Ha Ha' H2) as [-> ->]. auto.
Qed.

Lemma grammar_three_separators (pd ud sock : string) :
  all_chars is_digit pd = true -> all_chars is_digit ud = true ->
  all_chars not_semicolon sock = true ->
  nsemi ("pid=" ++ pd ++ ";uid=" ++ ud ++ ";socket=" ++ sock ++ ";") = 3%nat.
Proof.
  intros Hpd Hud Hs.
  apply digits_no_semicolon, nsemi_zero in Hpd, Hud. apply nsemi_zero in Hs.
  rewrite !nsemi_app, Hpd, Hud, Hs. reflexivity.
Qed.

Lemma Grammar_inv (s : string) :
  Grammar s ->
  exists pd ud sock,
    uint32_field pd /\ uint32_field ud /\ all_chars not_semicolon sock = true /\
    s = "pid=" ++ pd ++ ";uid=" ++ ud ++ ";socket=" ++ sock ++ ";".
Proof. intros [pd ud sock Fp Fu Hs]. exists pd, ud, sock. auto. Qed.

(** An address whose uid field is empty is outside the grammar, whatever
    stands in its pid and socket fields. *)
Lemma no_uid_not_grammar (pd sock : string) :
  ~ Grammar ("pid=" ++ pd ++ ";uid=;socket=" ++ sock ++ ";").
Proof.
  intros G. apply Grammar_inv in G as (pd' & ud' & sock' & Fp & Fu & Hs & Heq).
  destruct Fp as (_ & Hpd' & _). destruct Fu as (Hne & Hud' & _).
  pose proof (grammar_three_separators pd' ud' sock' Hpd' Hud' Hs) as N.
  rewrite <- Heq in N.
  change ("pid=" ++ pd ++ ";uid=;socket=" ++ sock ++ ";")
    with ("pid=" ++ (pd ++ ";uid=;socket=" ++ (sock ++ ";"))) in N.
  rewrite !nsemi_app in N. simpl in N.
  assert (Hpd : all_chars not_semicolon pd = true) by (apply nsemi_zero; lia).
  simpl in Heq. injection Heq as Heq. symmetry in Heq.
  change (pd' ++ String ";" ("uid=" ++ ud' ++ ";socket=" ++ sock' ++ ";")
          = pd ++ String ";" ("uid=;socket=" ++ sock ++ ";")) in Heq.
  apply split_semi in Heq as [_ Heq];
    [|now apply digits_no_semicolon | assumption].
  simpl in Heq. injection Heq as Heq.
  destruct ud' as [|c ud']; [congruence|].
  simpl in Heq, Hud'. injection Heq as Hc _. subst c. discriminate Hud'.
Qed.

(** In an address of the grammar the uid field is determined. *)
Lemma grammar_uid_field (pd ud sock : string) :
  all_chars is_digit ud = true ->
  Grammar ("pid=" ++ pd ++ ";uid=" ++ ud ++ ";socket=" ++ sock ++ ";") ->
  uint32_field ud.
Proof.
  intros Hud G. apply Grammar_inv in G as (pd' & ud' & sock' & Fp & Fu & Hs & Heq).
  pose proof Fp as (_ & Hpd' & _). pose proof Fu as (_ & Hud' & _).
  pose proof (grammar_three_separators pd' ud' sock' Hpd' Hud' Hs) as N.
  rewrite <- Heq in N.
  change ("pid=" ++ pd ++ ";uid=" ++ ud ++ ";socket=" ++ sock ++ ";")
    with ("pid=" ++ (pd ++ ";uid=" ++ (ud ++ ";socket=" ++ (sock ++ ";")))) in N.
  rewrite !nsemi_app in N. simpl in N.
  assert (Hpd : all_chars not_semicolon pd = true) by (apply nsemi_zero; lia).
  simpl in Heq. injection Heq as Heq. symmetry in Heq.
  change (pd' ++ String ";" ("uid=" ++ ud' ++ ";socket=" ++ sock' ++ ";")
          = pd ++ String ";" ("uid=" ++ ud ++ ";socket=" ++ sock ++ ";")) in Heq.
  apply split_semi in Heq as [_ Heq];
    [|now apply digits_no_semicolon | assumption].
  simpl in Heq. injection Heq as Heq.
  change (ud' ++ String ";" ("socket=" ++ sock' ++ ";")
          = ud ++ String ";" ("socket=" ++ sock ++ ";")) in Heq.
  apply split_semi in Heq as [-> _]; [exact Fu | |];
    now apply digits_no_semicolon.
Qed.

(** ** Round trip *)

(** C9, for socket paths without the field separator.  For every valid
    identity (pid and uid within the unsigned 32-bit range, a socket path free
    of the field separator [;]), parsing the formatted
    address [pid=<P>;uid=<U>;socket=<S>;] returns exactly that identity and
    no error: the parser is a left inverse of the formatter. *)
Theorem ucrednetGet_format_roundtrip (u : ucrednet) :
  valid_identity u -> ucrednetGet (format u) = (Some u, None).
Proof.
  intros (Hp & Hu & Hs). unfold ucrednetGet, format.
  pose proof (match_addr_fields (formatInt (Pid u)) (formatInt (Uid u))
                (Socket u) ""
                (formatInt_digits _ (proj1 Hp)) (formatInt_digits _ (proj1 Hu)) Hs)
    as M.
  change (";" ++ "") with ";" in M. rewrite M.
  rewrite (parseUint32_formatInt _ Hp), (parseUint32_formatInt _ Hu).
  destruct u; reflexivity.
Qed.

Lemma ucrednetGet_format_roundtrip_witness :
  valid_identity (mk_ucrednet 100 42 "/run/snap.socket") /\
  ucrednetGet (format (mk_ucrednet 100 42 "/run/snap.socket"))
  = (Some (mk_ucrednet 100 42 "/run/snap.socket"), None).
Proof.
  assert (V : valid_identity (mk_ucrednet 100 42 "/run/snap.socket")).
  { unfold valid_identity; simpl. repeat split; try lia. }
  split; [exact V | exact (ucrednetGet_format_roundtrip _ V)].
Defined.

(** The claim does not hold for every socket path: an identity with pid and
    uid below 2^32 whose socket path holds the field separator is formatted
    to an address that the parser rejects. *)
Lemma ucrednetGet_format_semicolon_socket_rejected :
  (0 <= Pid (mk_ucrednet 100 42 "/tmp/a;b") < 2 ^ 32)%Z /\
  (0 <= Uid (mk_ucrednet 100 42 "/tmp/a;b") < 2 ^ 32)%Z /\
  format (mk_ucrednet 100 42 "/tmp/a;b") = "pid=100;uid=42;socket=/tmp/a;b;" /\
  ucrednetGet (format (mk_ucrednet 100 42 "/tmp/a;b")) = (None, Some errNoID) /\
  ucrednetGet (format (mk_ucrednet 100 42 "/tmp/a;b"))
  <> (Some (mk_ucrednet 100 42 "/tmp/a;b"), None).
Proof.
  split; [simpl; lia|]. split; [simpl; lia|].
  split; [reflexivity|]. split; [reflexivity | discriminate].
Qed.

(** ** Rejections *)

(** C2. Every malformed peer address --- one whose uid field is absent, one
    whose uid is 2^32 or more, one that does not match the grammar
    [pid=<P>;uid=<U>;socket=<S>;] exactly, or one in which a second [pid=]
    marker follows a complete first field set --- makes [ucrednetGet] return
    the single uniform error [errNoID] together with a nil identity, never an
    identity of which only a part is filled in. *)
Theorem ucrednetGet_rejects_malformed (s : string) :
  Malformed s -> ucrednetGet s = (None, Some errNoID).
Proof.
  assert (reject : forall s', ~ Grammar s' -> ucrednetGet s' = (None, Some errNoID)).
  { intros s' Hno. destruct (ucrednetGet_total s') as [E | [u E]]; [exact E|].
    exfalso. apply Hno.
    apply (ucrednetGet_accepts_inv s' u). now rewrite E. }
  intros [pd sock | pd ud sock Hud Hbig | s' Hno | first rest G].
  - apply reject, no_uid_not_grammar.
  - apply reject. intros G.
    destruct (grammar_uid_field pd ud sock Hud G) as (_ & _ & Hsmall). lia.
  - apply reject, Hno.
  - destruct G as [pd ud sock (_ & Hpd & _) (_ & Hud & _) Hs].
    unfold ucrednetGet.
    replace (("pid=" ++ pd ++ ";uid=" ++ ud ++ ";socket=" ++ sock ++ ";")
               ++ "pid=" ++ rest)
      with ("pid=" ++ pd ++ ";uid=" ++ ud ++ ";socket=" ++ sock ++ ";"
              ++ ("pid=" ++ rest))
      by (now rewrite !sapp_assoc).
    rewrite match_addr_fields by assumption. reflexivity.
Qed.

Lemma ucrednetGet_rejects_malformed_witness :
  Malformed "pid=100;uid=4294967296;socket=;" /\
  ucrednetGet "pid=100;uid=4294967296;socket=;" = (None, Some errNoID).
Proof.
  assert (M : Malformed "pid=100;uid=4294967296;socket=;").
  { apply (Malformed_big_uid "100" "4294967296" "");
      [reflexivity | vm_compute; discriminate]. }
  split; [exact M | exact (ucrednetGet_rejects_malformed _ M)].
Defined.

(** ** Accept *)

(** C1, as the listener's tests state it.  [Accept] fails exactly when the
    wrapped listener's [Accept] fails or when the credential call on a Unix
    connection fails, and it returns that error; a connection whose type does
    not support credentials is accepted with the empty identity, its address
    has empty pid and uid fields and names no identifiable peer; a Unix
    connection whose credentials resolve carries them. *)
Theorem Accept_outcomes (inner : result conn) (getUcred : result Ucred) :
  (forall e, inner = Err e -> Accept inner getUcred = Err e) /\
  (forall con, inner = Ok con -> kind con = OtherConn ->
     Accept inner getUcred = Ok (mk_ucrednetConn con None) /\
     RemoteAddrString (mk_ucrednetConn con None)
       = "pid=;uid=;" ++ "socket=" ++ sockAddr con ++ ";" /\
     ucrednetGet (RemoteAddrString (mk_ucrednetConn con None))
       = (None, Some errNoID)) /\
  (forall con e, inner = Ok con -> kind con = UnixConn -> getUcred = Err e ->
     Accept inner getUcred = Err e) /\
  (forall con uc, inner = Ok con -> kind con = UnixConn -> getUcred = Ok uc ->
     Accept inner getUcred
     = Ok (mk_ucrednetConn con
             (Some (mk_ucrednet (ucPid uc) (ucUid uc) (sockAddr con))))) /\
  (forall e, Accept inner getUcred = Err e ->
     inner = Err e \/
     exists con, inner = Ok con /\ kind con = UnixConn /\ getUcred = Err e).
Proof.
  split; [|split; [|split; [|split]]].
  - intros e ->. reflexivity.
  - intros con -> Hk. unfold Accept. rewrite Hk.
    split; [reflexivity|]. split; [reflexivity|].
    unfold RemoteAddrString; simpl. apply ucrednetGet_format_empty.
  - intros con e -> Hk ->. unfold Accept. now rewrite Hk.
  - intros con uc -> Hk ->. unfold Accept. now rewrite Hk.
  - intros e H. unfold Accept in H.
    destruct inner as [con|e']; [|left; congruence].
    right. exists con. destruct (kind con) eqn:Hk; [|discriminate].
    destruct getUcred as [uc|e'']; [discriminate|].
    repeat split; congruence.
Qed.

(** TestNonUnix and TestUcredErrors of ucrednet_test.go. *)
Lemma Accept_outcomes_witness :
  Accept (Ok (mk_conn OtherConn "127.0.0.1:4000")) (Err (errOther "oopsie"))
    = Ok (mk_ucrednetConn (mk_conn OtherConn "127.0.0.1:4000") None) /\
  Accept (Ok (mk_conn UnixConn "/tmp/sock")) (Err (errOther "oopsie"))
    = Err (errOther "oopsie").
Proof.
  split.
  - apply (proj1 (proj2 (Accept_outcomes _ _))
             (mk_conn OtherConn "127.0.0.1:4000") eq_refl eq_refl).
  - apply (proj1 (proj2 (proj2 (Accept_outcomes _ _)))
             (mk_conn UnixConn "/tmp/sock") (errOther "oopsie")
             eq_refl eq_refl eq_refl).
Defined.

(** The claim does not hold for a failing credential call: with the call
    mocked to fail (TestUcredErrors), [Accept] on a Unix connection does not
    succeed with an empty identity. *)
Lemma Accept_ucred_error_not_empty_identity :
  ~ (exists wc,
       Accept (Ok (mk_conn UnixConn "/tmp/sock")) (Err (errOther "oopsie"))
         = Ok wc /\ unet wc = None).
Proof. intros (wc & H & _). discriminate H. Qed.

End Ucrednet.

(* ===================================================================== *)
(** * The access gateway: [command.Run] *)
(* ===================================================================== *)

Module Command.

Import Go.
Local Open Scope string_scope.

(** [apiError] (errors.go); [Value] is never set by the responders used
    here and is left out. *)
Record apiError : Type := mk_apiError {
  Status : Z;
  Message : string;
  Kind : string
}.

(** [strconv.ParseBool]: the value and the error, which is carried here by
    the input that does not parse. *)
Definition ParseBool (s : string) : bool * option string :=
  if existsb (String.eqb s) ["1"; "t"; "T"; "true"; "TRUE"; "True"]
  then (true, None)
  else if existsb (String.eqb s) ["0"; "f"; "F"; "false"; "FALSE"; "False"]
  then (false, None)
  else (false, Some s).

Section Gateway.

(** The collaborators of the gateway, opaque to it. *)
Variable Daemon : Type.
Variable Conn : Type.                 (* [net.Conn] *)
Variable Ucred : Type.                (* [*syscall.Ucred] *)
Variable Resp : Type.                 (* what a handler answers *)
Variable Sprintf : string -> list string -> string.   (* [fmt.Sprintf] *)
Variable AllowInteractionHeaderName : string.   (* [api.AllowInteractionHeader] *)

(** The package variable [netutilConnPeerCred]: the credentials of a
    connection, or the message of the error. *)
Variable netutilConnPeerCred : Conn -> Ucred + string.

(** A [response] is an [*apiError] or whatever a handler built. *)
Inductive response : Type :=
| RespError (e : apiError)
| RespOther (r : Resp).

(** [*http.Request], as far as [Run] reads it. *)
Record Request : Type := mk_Request {
  Method : string;
  ctxConn : option Conn;   (* [r.Context().Value(connectionKey).(net.Conn)] *)
  AllowInteractionHeader : string   (* [r.Header.Get(...)], empty when absent *)
}.

Definition responseFunc : Type := Daemon -> Request -> response.

(** [accessChecker.CheckAccess]: [None] is the nil [*apiError]. *)
Definition accessChecker : Type := Daemon -> Ucred -> bool -> option apiError.

Record command : Type := mk_command {
  GET : option responseFunc;
  PUT : option responseFunc;
  POST : option responseFunc;
  ReadAccess : option accessChecker;
  WriteAccess : option accessChecker
}.

(** [makeErrorResponder] *)
Definition makeErrorResponder (status : Z) (format : string) (v : list string)
  : apiError :=
  let msg := match v with [] => format | _ => Sprintf format v end in
  mk_apiError status msg "".

Definition statusMethodNotAllowed := makeErrorResponder 405.
Definition statusInternalError := makeErrorResponder 500.
Definition statusUnauthorized := makeErrorResponder 401.

(** What a run of the gateway does that can be observed from outside. *)
Inductive event : Type :=
| EvPeerCred (c : Conn)
| EvNotice (msg : string)
| EvCheckAccess (u : Ucred) (allowInteraction : bool) (verdict : option apiError)
| EvHandler (verb : string).

(** Runs: the events so far and how the run ended. *)
Definition M (A : Type) : Type := list event * outcome A.

Definition ret {A : Type} (a : A) : M A := ([], Returns a).

Definition bind {A B : Type} (m : M A) (f : A -> M B) : M B :=
  match m with
  | (t, Panics msg) => (t, Panics msg)
  | (t, Returns a) => let (t', o) := f a in ((t ++ t')%list, o)
  end.

Definition emit (e : event) : M unit := ([e], Returns tt).

(** [logger.Panicf] *)
Definition Panicf {A : Type} (msg : string) : M A := ([], Panics msg).

Notation "x <- m ;; k" := (bind m (fun x => k))
  (at level 61, m at next level, right associativity).
Notation "m ;;; k" := (bind m (fun _ => k))
  (at level 61, right associativity).

(** The [switch r.Method] of [Run]. *)
Definition select (c : command) (method : string)
  : option responseFunc * option accessChecker :=
  if String.eqb method "GET" then (GET c, ReadAccess c)
  else if String.eqb method "PUT" then (PUT c, WriteAccess c)
  else if String.eqb method "POST" then (POST c, WriteAccess c)
  else (None, None).

(** The header block of [Run]: a value that does not parse is logged and
    read as false. *)
Definition allowInteraction (r : Request) : M bool :=
  let allowHeader := AllowInteractionHeader r in
  if String.eqb allowHeader "" then ret false
  else
    let (b, err) := ParseBool allowHeader in
    match err with
    | Some e =>
        emit (EvNotice (Sprintf "error parsing %s header: %s"
                          [AllowInteractionHeaderName; e])) ;;;
        ret b
    | None => ret b
    end.

(** [func (c *command) Run(d *Daemon, r *http.Request) response] *)
Definition Run (c : command) (d : Daemon) (r : Request) : M response :=
  conn <- match ctxConn r with
          | Some conn => ret conn
          | None => Panicf "no connection associated with request"
          end ;;
  emit (EvPeerCred conn) ;;;
  match netutilConnPeerCred conn with
  | inr err =>
      emit (EvNotice
              (Sprintf "unexpected error when attempting to obtain peer credentials: %v"
                 [err])) ;;;
      ret (RespError (statusInternalError err []))
  | inl ucred =>
      let (rspf, access) := select c (Method r) in
      match rspf with
      | None =>
          ret (RespError (statusMethodNotAllowed "method %q not allowed" [Method r]))
      | Some handler =>
          match access with
          | None =>
              ret (RespError
                     (statusInternalError "no access checker for method %q" [Method r]))
          | Some checker =>
              allow <- allowInteraction r ;;
              let verdict := checker d ucred allow in
              emit (EvCheckAccess ucred allow verdict) ;;;
              match verdict with
              | Some err => ret (RespError err)
              | None => emit (EvHandler (Method r)) ;;; ret (handler d r)
              end
          end
      end
  end.

(** The HTTP status of an error response. *)
Definition error_status (o : outcome response) : option Z :=
  match o with
  | Returns (RespError e) => Some (Status e)
  | _ => None
  end.

Definition is_handler (e : event) : bool :=
  match e with EvHandler _ => true | _ => false end.

Definition is_check (e : event) : bool :=
  match e with EvCheckAccess _ _ _ => true | _ => false end.

(** No checker and no handler ran. *)
Definition nothing_ran (t : list event) : Prop :=
  forallb (fun e => negb (is_handler e) && negb (is_check e)) t = true.

(** No handler ran. *)
Definition no_handler_ran (t : list event) : Prop :=
  forallb (fun e => negb (is_handler e)) t = true.

(** Every handler invocation of the trace comes strictly after a completed,
    approving evaluation of the access checker. *)
Definition check_precedes_handler (t : list event) : Prop :=
  forall i verb, nth_error t i = Some (EvHandler verb) ->
    exists j u a, j < i /\ nth_error t j = Some (EvCheckAccess u a None).

(** ** Shapes of a run *)

Lemma select_other_verb (c : command) (m : string) :
  m <> "GET" -> m <> "PUT" -> m <> "POST" -> select c m = (None, None).
Proof.
  intros H1 H2 H3. unfold select.
  apply String.eqb_neq in H1, H2, H3. now rewrite H1, H2, H3.
Qed.

Lemma allowInteraction_shape (r : Request) :
  exists b, allowInteraction r = ([], Returns b) \/
            exists msg, allowInteraction r = ([EvNotice msg], Returns b).
Proof.
  unfold allowInteraction.
  destruct (String.eqb (AllowInteractionHeader r) ""); [exists false; now left|].
  destruct (ParseBool (AllowInteractionHeader r)) as [b [e|]];
    exists b; [right; eexists; reflexivity | now left].
Qed.

Lemma Run_no_connection (c : command) (d : Daemon) (r : Request) :
  ctxConn r = None ->
  Run c d r = ([], Panics "no connection associated with request").
Proof. intros H. unfold Run. rewrite H. reflexivity. Qed.

Lemma Run_cred_error (c : command) (d : Daemon) (r : Request) conn err :
  ctxConn r = Some conn -> netutilConnPeerCred conn = inr err ->
  Run c d r
  = ([EvPeerCred conn;
      EvNotice (Sprintf "unexpected error when attempting to obtain peer credentials: %v"
                  [err])],
     Returns (RespError (mk_apiError 500 err ""))).
Proof. intros H1 H2. unfold Run. rewrite H1. simpl. rewrite H2. reflexivity. Qed.

Lemma Run_no_handler (c : command) (d : Daemon) (r : Request) conn u :
  ctxConn r = Some conn -> netutilConnPeerCred conn = inl u ->
  fst (select c (Method r)) = None ->
  Run c d r
  = ([EvPeerCred conn],
     Returns (RespError (statusMethodNotAllowed "method %q not allowed" [Method r]))).
Proof.
  intros H1 H2 H3. unfold Run. rewrite H1. simpl. rewrite H2.
  destruct (select c (Method r)) as [rspf access]. simpl in H3. subst rspf.
  reflexivity.
Qed.

Lemma Run_no_checker (c : command) (d : Daemon) (r : Request) conn u h :
  ctxConn r = Some conn -> netutilConnPeerCred conn = inl u ->
  select c (Method r) = (Some h, None) ->
  Run c d r
  = ([EvPeerCred conn],
     Returns (RespError
                (statusInternalError "no access checker for method %q" [Method r]))).
Proof.
  intros H1 H2 H3. unfold Run. rewrite H1. simpl. rewrite H2, H3. reflexivity.
Qed.

(** The run of a request that reaches the checker: the events before the
    check are the credential lookup and at most one notice. *)
Lemma Run_checked (c : command) (d : Daemon) (r : Request) conn u h chk :
  ctxConn r = Some conn -> netutilConnPeerCred conn = inl u ->
  select c (Method r) = (Some h, Some chk) ->
  exists pre a,
    (pre = [EvPeerCred conn] \/ exists msg, pre = [EvPeerCred conn; EvNotice msg]) /\
    snd (allowInteraction r) = Returns a /\
    Run c d r
    = match chk d u a with
      | Some e => ((pre ++ [EvCheckAccess u a (Some e)])%list, Returns (RespError e))
      | None => ((pre ++ [EvCheckAccess u a None; EvHandler (Method r)])%list,
                 Returns (h d r))
      end.
Proof.
  intros H1 H2 H3. unfold Run. rewrite H1. simpl. rewrite H2, H3.
  destruct (allowInteraction_shape r) as (b & [E | (msg & E)]); rewrite E; simpl.
  - exists [EvPeerCred conn], b. split; [now left|]. split; [reflexivity|].
    destruct (chk d u b); reflexivity.
  - exists [EvPeerCred conn; EvNotice msg], b. split; [right; now exists msg|].
    split; [reflexivity|].
    destruct (chk d u b); reflexivity.
Qed.

(** ** Failing credentials *)

(** C10. When the request carries a bound connection whose peer
    credentials cannot be obtained, [Run] answers with the internal error
    (HTTP 500) that carries the error's message, and no access checker and
    no handler runs; [Run] panics exactly when the request carries no bound
    connection. *)
Theorem Run_peer_cred_error (c : command) (d : Daemon) (r : Request) :
  (forall conn err,
      ctxConn r = Some conn -> netutilConnPeerCred conn = inr err ->
      snd (Run c d r) = Returns (RespError (mk_apiError 500 err "")) /\
      error_status (snd (Run c d r)) = Some 500%Z /\
      nothing_ran (fst (Run c d r))) /\
  ((exists msg, snd (Run c d r) = Panics msg) <-> ctxConn r = None).
Proof.
  split.
  - intros conn err H1 H2. rewrite (Run_cred_error c d r conn err H1 H2).
    repeat split.
  - split.
    + intros (msg & Hp). destruct (ctxConn r) as [conn|] eqn:H1; [|reflexivity].
      exfalso. destruct (netutilConnPeerCred conn) as [u|err] eqn:H2.
      * destruct (select c (Method r)) as [[h|] [chk|]] eqn:H3.
        -- destruct (Run_checked c d r conn u h chk H1 H2 H3)
             as (pre & a & _ & _ & E).
           rewrite E in Hp. destruct (chk d u a); discriminate.
        -- rewrite (Run_no_checker c d r conn u h H1 H2 H3) in Hp. discriminate.
        -- rewrite (Run_no_handler c d r conn u H1 H2) in Hp;
             [discriminate | now rewrite H3].
        -- rewrite (Run_no_handler c d r conn u H1 H2) in Hp;
             [discriminate | now rewrite H3].
      * rewrite (Run_cred_error c d r conn err H1 H2) in Hp. discriminate.
    + intros H. rewrite (Run_no_connection c d r H). eexists. reflexivity.
Qed.

(** ** Unregistered verbs and missing checkers *)

(** C6, for requests whose peer credentials were obtained.  A verb without
    a registered handler, and so any verb other than GET, PUT and POST, is
    answered with method-not-allowed (HTTP 405); a registered handler
    without an access checker for its class is answered with an internal
    error (HTTP 500); in both cases neither a checker nor a handler runs. *)
Theorem Run_unregistered_or_unchecked
    (c : command) (d : Daemon) (r : Request) conn u :
  ctxConn r = Some conn -> netutilConnPeerCred conn = inl u ->
  (fst (select c (Method r)) = None ->
     snd (Run c d r)
     = Returns (RespError (statusMethodNotAllowed "method %q not allowed" [Method r])) /\
     error_status (snd (Run c d r)) = Some 405%Z /\
     nothing_ran (fst (Run c d r))) /\
  (Method r <> "GET" -> Method r <> "PUT" -> Method r <> "POST" ->
     fst (select c (Method r)) = None) /\
  (forall h, select c (Method r) = (Some h, None) ->
     snd (Run c d r)
     = Returns (RespError
                  (statusInternalError "no access checker for method %q" [Method r])) /\
     error_status (snd (Run c d r)) = Some 500%Z /\
     nothing_ran (fst (Run c d r))).
Proof.
  intros H1 H2. split; [|split].
  - intros H3. rewrite (Run_no_handler c d r conn u H1 H2 H3). repeat split.
  - intros G P Q. now rewrite select_other_verb.
  - intros h H3. rewrite (Run_no_checker c d r conn u h H1 H2 H3). repeat split.
Qed.

(** ** The checker runs before the handler *)

(** C7. For a request whose verb has a registered handler and access
    checker, every invocation of the handler comes strictly after a
    completed, approving evaluation of the checker on the connection's
    identity and the allow-interaction flag; when the checker denies, its
    error is the response and the handler is never invoked. *)
Theorem Run_check_before_handler
    (c : command) (d : Daemon) (r : Request) h chk :
  select c (Method r) = (Some h, Some chk) ->
  check_precedes_handler (fst (Run c d r)) /\
  (forall u a v, In (EvCheckAccess u a v) (fst (Run c d r)) ->
     v = chk d u a /\ snd (allowInteraction r) = Returns a /\
     exists conn, ctxConn r = Some conn /\ netutilConnPeerCred conn = inl u) /\
  (forall u a e, In (EvCheckAccess u a (Some e)) (fst (Run c d r)) ->
     snd (Run c d r) = Returns (RespError e) /\
     no_handler_ran (fst (Run c d r))).
Proof.
  intros H3.
  destruct (ctxConn r) as [conn|] eqn:H1.
  2:{ rewrite (Run_no_connection c d r H1). simpl. repeat split;
        try contradiction.
      intros [|i] verb Hi; discriminate Hi. }
  destruct (netutilConnPeerCred conn) as [u|err] eqn:H2.
  2:{ rewrite (Run_cred_error c d r conn err H1 H2). simpl. repeat split;
        try (intros [|[|[|i]]] verb Hi; discriminate Hi);
        match goal with
        | H : _ \/ _ |- _ => destruct H as [H|[H|[]]]; discriminate H
        end. }
  destruct (Run_checked c d r conn u h chk H1 H2 H3) as (pre & a & Hpre & Ha & E).
  rewrite E. clear E.
  assert (Hin : forall u' a' v tail,
             In (EvCheckAccess u' a' v)
                (pre ++ EvCheckAccess u a (chk d u a) :: tail) ->
             (forall x, In x tail -> is_check x = false) ->
             u' = u /\ a' = a /\ v = chk d u a).
  { intros u' a' v tail Hi Htail. apply in_app_or in Hi as [Hi|[Hi|Hi]].
    - destruct Hpre as [-> | (msg & ->)]; simpl in Hi;
        repeat (destruct Hi as [Hi|Hi]; try discriminate Hi); contradiction.
    - inversion Hi; subst; auto.
    - apply Htail in Hi. discriminate Hi. }
  destruct (chk d u a) as [e|] eqn:Hv; simpl.
  - split; [|split].
    + intros i verb Hi. exfalso.
      destruct Hpre as [-> | (msg & ->)]; simpl in Hi.
      * destruct i as [|[|[|i]]]; discriminate Hi.
      * destruct i as [|[|[|[|i]]]]; discriminate Hi.
    + intros u' a' v Hi.
      destruct (Hin u' a' v [] Hi) as (-> & -> & ->); [intros x []|].
      repeat split; try congruence. exists conn; auto.
    + intros u' a' e' Hi.
      destruct (Hin u' a' (Some e') [] Hi) as (-> & -> & He); [intros x []|].
      split; [congruence|].
      destruct Hpre as [-> | (msg & ->)]; reflexivity.
  - split; [|split].
    + destruct Hpre as [-> | (msg & ->)]; simpl.
      * intros [|[|[|[|i]]]] verb Hi; try discriminate Hi.
        exists 1, u, a. split; [lia | reflexivity].
      * intros [|[|[|[|[|i]]]]] verb Hi; try discriminate Hi.
        exists 2, u, a. split; [lia | reflexivity].
    + intros u' a' v Hi.
      destruct (Hin u' a' v [EvHandler (Method r)] Hi) as (-> & -> & ->).
      { intros x [<-|[]]. reflexivity. }
      repeat split; try congruence. exists conn; auto.
    + intros u' a' e' Hi.
      destruct (Hin u' a' (Some e') [EvHandler (Method r)] Hi) as (_ & _ & He).
      { intros x [<-|[]]. reflexivity. }
      discriminate He.
Qed.

End Gateway.

Arguments RespError {Resp} e.
Arguments RespOther {Resp} r.
Arguments EvPeerCred {Conn Ucred} c.
Arguments EvNotice {Conn Ucred} msg.
Arguments EvCheckAccess {Conn Ucred} u allowInteraction verdict.
Arguments EvHandler {Conn Ucred} verb.
Arguments error_status {Resp} o.
Arguments nothing_ran {Conn Ucred} t.
Arguments no_handler_ran {Conn Ucred} t.
Arguments check_precedes_handler {Conn Ucred} t.

(** ** A concrete wiring, after the dispatch tests (command_test.go) *)

Definition testSprintf (format : string) (v : list string) : string :=
  String.concat " " (format :: v).

(** Connections are numbered; credentials are a uid; a handler answers with
    a status (the tests' [mockResponse]). *)
Definition credOK (c : nat) : Z + string := inl 1001%Z.

Definition credErr (c : nat) : Z + string :=
  inr "connection has no peer credential".

Definition testHandler : responseFunc unit nat Z :=
  fun _ _ => RespOther 200%Z.

Definition allowAll : accessChecker unit Z := fun _ _ _ => None.

Definition denyAll : accessChecker unit Z :=
  fun _ _ _ => Some (mk_apiError 401 "some error" "").

(** GET and PUT are registered, POST is not (the tests' [cmd.POST = nil]). *)
Definition testCommand (access : accessChecker unit Z) : command unit nat Z Z :=
  mk_command unit nat Z Z
    (Some testHandler) (Some testHandler) None (Some access) (Some access).

Definition testRun (cred : nat -> Z + string) (access : accessChecker unit Z)
    (method : string) (conn : option nat) : M nat Z (response Z) :=
  Run unit nat Z Z testSprintf "X-Allow-Interaction" cred
    (testCommand access) tt (mk_Request nat method conn "").

Example TestCommandMethodDispatchGet :
  testRun credOK allowAll "GET" (Some 7%nat)
  = ([EvPeerCred 7%nat; EvCheckAccess 1001%Z false None; EvHandler "GET"],
     Returns (RespOther 200%Z)).
Proof. reflexivity. Qed.

Example TestCommandMethodDispatchGetDenied :
  testRun credOK denyAll "GET" (Some 7%nat)
  = ([EvPeerCred 7%nat;
      EvCheckAccess 1001%Z false (Some (mk_apiError 401 "some error" ""))],
     Returns (RespError (mk_apiError 401 "some error" ""))).
Proof. reflexivity. Qed.

Example TestCommandMethodDispatchNoLinkedConnection :
  testRun credOK allowAll "GET" None
  = ([], Panics "no connection associated with request").
Proof. reflexivity. Qed.

Lemma Run_peer_cred_error_witness :
  error_status (snd (testRun credErr allowAll "GET" (Some 7%nat))) = Some 500%Z /\
  nothing_ran (fst (testRun credErr allowAll "GET" (Some 7%nat))).
Proof.
  exact (proj2
           (proj1 (Run_peer_cred_error unit nat Z Z testSprintf "X-Allow-Interaction"
                     credErr (testCommand allowAll) tt
                     (mk_Request nat "GET" (Some 7%nat) ""))
              7%nat "connection has no peer credential" eq_refl eq_refl)).
Defined.

Lemma Run_unregistered_or_unchecked_witness :
  error_status (snd (testRun credOK allowAll "POST" (Some 7%nat))) = Some 405%Z.
Proof.
  exact (proj1 (proj2
           (proj1 (Run_unregistered_or_unchecked unit nat Z Z testSprintf
                     "X-Allow-Interaction" credOK (testCommand allowAll) tt
                     (mk_Request nat "POST" (Some 7%nat) "") 7%nat 1001%Z
                     eq_refl eq_refl)
              eq_refl))).
Defined.

(** The claim as stated, for every dispatched request, fails when the peer
    credentials cannot be obtained: a POST without a registered handler is
    then answered with 500, not with 405. *)
Lemma Run_unregistered_verb_cred_error_not_405 :
  error_status (snd (testRun credErr allowAll "POST" (Some 7%nat))) = Some 500%Z /\
  error_status (snd (testRun credErr allowAll "POST" (Some 7%nat))) <> Some 405%Z.
Proof. split; [reflexivity | discriminate]. Qed.

Lemma Run_check_before_handler_witness :
  check_precedes_handler (fst (testRun credOK allowAll "GET" (Some 7%nat))) /\
  snd (testRun credOK denyAll "GET" (Some 7%nat))
  = Returns (RespError (mk_apiError 401 "some error" "")) /\
  no_handler_ran (fst (testRun credOK denyAll "GET" (Some 7%nat))).
Proof.
  split.
  - exact (proj1 (Run_check_before_handler unit nat Z Z testSprintf
                    "X-Allow-Interaction" credOK (testCommand allowAll) tt
                    (mk_Request nat "GET" (Some 7%nat) "")
                    testHandler allowAll eq_refl)).
  - exact (proj2 (proj2 (Run_check_before_handler unit nat Z Z testSprintf
                    "X-Allow-Interaction" credOK (testCommand denyAll) tt
                    (mk_Request nat "GET" (Some 7%nat) "")
                    testHandler denyAll eq_refl))
             1001%Z false (mk_apiError 401 "some error" "")
             (or_intror (or_introl eq_refl))).
Defined.

End Command.

(* ===================================================================== *)
(** * The scheduler: ensure schedule, Settle, prune and Stop *)
(* ===================================================================== *)

Module Overlord.

Import Go.
Local Open Scope Z_scope.

(** ** Timers and errors *)

(** A [*time.Timer]: the instant it is set to fire at and whether it is
    still pending (neither fired nor stopped). *)
Record Timer : Type := mk_Timer {
  when : Z;
  active : bool
}.

(** [time.NewTimer(d)] and [t.Reset(d)] at clock [now]. *)
Definition NewTimer (now d : Z) : Timer := mk_Timer (now + d) true.

Definition Timer_Reset (now d : Z) (t : Timer) : Timer := mk_Timer (now + d) true.

(** [t.Stop()]: true when the call stops a pending timer, false when the
    timer has already expired or been stopped. *)
Definition Timer_Stop (t : Timer) : bool * Timer :=
  (active t, mk_Timer (when t) false).

(** The runtime delivers the timer. *)
Definition Timer_fire (t : Timer) : Timer := mk_Timer (when t) false.

(** Errors of the scheduler: the convergence failure of [settle], the
    [*ensureError] that collects the errors of one or more ensure passes, and
    any other error a manager returns. *)
#[warnings="-register-all"]
Inductive error : Type :=
| ErrNotConverging                  (* fmt.Errorf("Settle is not converging") *)
| ErrEnsure (errs : list error)     (* &ensureError{errs} *)
| ErrOther (msg : string).

(** What the overlord does to its collaborators, in order. *)
Inductive event : Type :=
| EvEnsure         (* o.stateEng.Ensure() *)
| EvPrune          (* st.Prune(...) under the state lock *)
| EvLoopKill       (* o.loopTomb.Kill(nil) and Wait *)
| EvEngineStop     (* o.stateEng.Stop() *)
| EvLockRelease.   (* o.stateFLock.Close() *)

Definition event_eqb (a b : event) : bool :=
  match a, b with
  | EvEnsure, EvEnsure | EvPrune, EvPrune | EvLoopKill, EvLoopKill
  | EvEngineStop, EvEngineStop | EvLockRelease, EvLockRelease => true
  | _, _ => false
  end.

(** The number of prune passes in a trace. *)
Definition prunes (t : list event) : nat :=
  List.length (filter (event_eqb EvPrune) t).

(** ** The overlord *)

Record Overlord : Type := mk_Overlord {
  stateFLock : bool;              (* the lock file is held ([nil] for [Mock]) *)
  loopTomb : bool;                (* [o.loopTomb != nil] *)
  ensureTimer : option Timer;     (* [nil] until [Loop] or [Settle] *)
  ensureNext : Z;
  ensureRun : bool;
  didPrune : bool;
  trace : list event              (* ghost: the events so far *)
}.

Definition with_schedule (o : Overlord) (t : option Timer) (next : Z) : Overlord :=
  mk_Overlord (stateFLock o) (loopTomb o) t next
              (ensureRun o) (didPrune o) (trace o).

Definition with_event (o : Overlord) (e : event) : Overlord :=
  mk_Overlord (stateFLock o) (loopTomb o) (ensureTimer o) (ensureNext o)
              (ensureRun o) (didPrune o) (trace o ++ [e]).

(** [New]: the lock is held, nothing is scheduled, nothing was pruned. *)
Definition New : Overlord := mk_Overlord true true None 0 false false [].

(** [Mock]: an overlord without a lock file. *)
Definition Mock : Overlord := mk_Overlord false true None 0 false false [].

Section Schedule.

(** The package variable [ensureInterval]. *)
Variable ensureInterval : Z.

(** [ensureTimerSetup], at clock [now]. *)
Definition ensureTimerSetup (now : Z) (o : Overlord) : Overlord :=
  with_schedule o (Some (NewTimer now ensureInterval)) (now + ensureInterval).

(** [ensureTimerReset], at clock [now]; it returns the new deadline.  On a
    nil timer the method call panics. *)
Definition ensureTimerReset (now : Z) (o : Overlord) : outcome (Overlord * Z) :=
  match ensureTimer o with
  | None => Panics "invalid memory address or nil pointer dereference"
  | Some t =>
      let next := now + ensureInterval in
      Returns (with_schedule o (Some (Timer_Reset now ensureInterval t)) next, next)
  end.

(** [ensureBefore], at clock [now]. *)
Definition ensureBefore (now d : Z) (o : Overlord) : outcome Overlord :=
  match ensureTimer o with
  | None => Panics "cannot use EnsureBefore before Overlord.Loop"
  | Some t =>
      let next := now + d in
      if next <? ensureNext o then
        Returns (with_schedule o (Some (Timer_Reset now d t)) next)
      else if ensureNext o <? now then
        (* timer already expired, it will be reset in Loop() and
           next Ensure() will be called shortly. *)
        let (stopped, t') := Timer_Stop t in
        if negb stopped then Returns (with_schedule o (Some t') (ensureNext o))
        else Returns (with_schedule o (Some (Timer_Reset now 0 t')) now)
      else Returns o
  end.

(** [MockEnsureNext] (export_test.go). *)
Definition MockEnsureNext (o : Overlord) (t : Z) : Overlord :=
  with_schedule o (ensureTimer o) t.

(** A run of [EnsureBefore] calls, each with the clock it reads and its
    duration. *)
Fixpoint ensureBefore_all (calls : list (Z * Z)) (o : Overlord) : outcome Overlord :=
  match calls with
  | [] => Returns o
  | (now, d) :: rest =>
      match ensureBefore now d o with
      | Panics msg => Panics msg
      | Returns o' => ensureBefore_all rest o'
      end
  end.

(** The earliest deadline among an initial one and those requested. *)
Definition earliest (calls : list (Z * Z)) (next : Z) : Z :=
  fold_left (fun m c => Z.min m (fst c + snd c)) calls next.

(** ** prune and Stop *)

(** [prune] *)
Definition prune (o : Overlord) : Overlord :=
  let o' := with_event o EvPrune in
  mk_Overlord (stateFLock o') (loopTomb o') (ensureTimer o') (ensureNext o')
              (ensureRun o') true (trace o').

(** How a call of [Stop] ends: it returns, with an error or nil, or it
    stays blocked in [o.loopTomb.Wait()]; the overlord is as the call left
    it. *)
Inductive stopped : Type :=
| Stopped (o : Overlord) (err : option error)
| Blocked (o : Overlord).

(** Whether [Loop] has started its goroutine on the tomb.  [Loop] sets the
    timer just before it does, and nothing else leaves a timer set: [settle]
    removes its own before it returns. *)
Definition looping (o : Overlord) : bool :=
  match ensureTimer o with
  | Some _ => true
  | None => false
  end.

(** [Stop] from the return of [o.loopTomb.Wait()] on, or from its start when
    there is no tomb; [waitErr] is what [Wait] returned. *)
Definition Stop_after_Wait (waitErr : option error) (o : Overlord)
  : Overlord * option error :=
  let (o1, err) :=
    if loopTomb o then (with_event o EvLoopKill, waitErr) else (o, None) in
  let o2 := if negb (didPrune o1) then prune o1 else o1 in
  let o3 := with_event o2 EvEngineStop in
  let o4 :=
    if stateFLock o3
    then mk_Overlord false (loopTomb o3) (ensureTimer o3) (ensureNext o3)
                     (ensureRun o3) (didPrune o3) (trace o3 ++ [EvLockRelease])
    else o3 in
  (o4, err).

(** [Stop].  [o.loopTomb.Wait()] returns when the goroutine that [Loop]
    started on the tomb has ended, which the [Kill] before it brings about,
    and [waitErr] is what it returns then.  On a tomb on which no goroutine
    was ever started [Wait] never returns: [Stop] gets no further than the
    [Kill]. *)
Definition Stop (waitErr : option error) (o : Overlord) : stopped :=
  if loopTomb o && negb (looping o)
  then Blocked (with_event o EvLoopKill)
  else let (o', err) := Stop_after_Wait waitErr o in Stopped o' err.

(** One pass of the body of [Loop]'s goroutine up to its [select]:
    [ensureTimerReset], [Ensure] with the [EnsureBefore] calls made
    meanwhile, [ensureDidRun]. *)
Definition loop_cycle (now : Z) (calls : list (Z * Z)) (o : Overlord)
  : outcome Overlord :=
  match ensureTimerReset now o with
  | Panics msg => Panics msg
  | Returns (o1, _) =>
      match ensureBefore_all calls (with_event o1 EvEnsure) with
      | Panics msg => Panics msg
      | Returns o2 =>
          Returns (mk_Overlord (stateFLock o2) (loopTomb o2) (ensureTimer o2)
                               (ensureNext o2) true (didPrune o2) (trace o2))
      end
  end.

(** What can happen to an overlord between its construction and [Stop]. *)
Inductive step : Overlord -> Overlord -> Prop :=
| step_Loop (now : Z) (o : Overlord) :
    step o (ensureTimerSetup now o)
| step_cycle (now : Z) (calls : list (Z * Z)) (o o' : Overlord) :
    loop_cycle now calls o = Returns o' -> step o o'
| step_prune_tick (o : Overlord) :
    step o (prune o)
| step_ensureBefore (now d : Z) (o o' : Overlord) :
    ensureBefore now d o = Returns o' -> step o o'
| step_timer_fires (t : Timer) (o : Overlord) :
    ensureTimer o = Some t ->
    step o (with_schedule o (Some (Timer_fire t)) (ensureNext o)).

Inductive reachable : Overlord -> Prop :=
| reachable_New : reachable New
| reachable_Mock : reachable Mock
| reachable_step (o o' : Overlord) : reachable o -> step o o' -> reachable o'.

(** ** Settle *)

(** What one pass of [settle]'s loop meets: the clock at the timeout test,
    the clock at the timer reset, the [EnsureBefore] calls that reach the
    overlord during [Ensure] and [Wait], the result of [Ensure], and for each
    change of the state whether it is ready and whether it is clean. *)
Record cycle : Type := mk_cycle {
  tcheck : Z;
  treset : Z;
  requests : list (Z * Z);
  ensureErr : option error;
  changes : list (bool * bool)
}.

(** The [switch ee := err.(type)] of [settle]. *)
Definition collect (errs : list error) (err : option error) : list error :=
  match err with
  | None => errs
  | Some (ErrEnsure l) => errs ++ l
  | Some e => errs ++ [e]
  end.

(** The body of [settle]'s loop after the timeout test: the state, the
    errors so far and [done]. *)
Definition settle_body (c : cycle) (o : Overlord) (errs : list error)
  : outcome (Overlord * list error * bool) :=
  match ensureTimerReset (treset c) o with
  | Panics msg => Panics msg
  | Returns (o1, next) =>
      match ensureBefore_all (requests c) (with_event o1 EvEnsure) with
      | Panics msg => Panics msg
      | Returns o2 =>
          let errs' := collect errs (ensureErr c) in
          let done := ensureNext o2 =? next in
          let done :=
            if done
            then negb (existsb (fun ch => fst ch && negb (snd ch)) (changes c))
            else false in
          Returns (o2, errs', done)
      end
  end.

(** The error [settle] gives up with. *)
Definition convergence_error (errs : list error) : error :=
  match errs with
  | [] => ErrNotConverging
  | _ => ErrEnsure (errs ++ [ErrNotConverging])
  end.

(** The loop of [settle] from its [i]-th pass on; [env] tells what each
    pass meets and [fuel] bounds the number of passes run. *)
Fixpoint settle_loop (fuel : nat) (timeout t0 : Z) (env : nat -> cycle)
    (i : nat) (o : Overlord) (errs : list error)
  : option (outcome (Overlord * option error)) :=
  match fuel with
  | O => None
  | S fuel' =>
      let c := env i in
      if (0 <? timeout) && (timeout <? tcheck c - t0) then
        Some (Returns (o, Some (convergence_error errs)))
      else
        match settle_body c o errs with
        | Panics msg => Some (Panics msg)
        | Returns (o', errs', done) =>
            if done then
              Some (Returns (o', match errs' with
                                 | [] => None
                                 | _ => Some (ErrEnsure errs')
                                 end))
            else settle_loop fuel' timeout t0 env (S i) o' errs'
        end
  end.

(** [settle(timeout, nil)], started at clock [t0]: the timer is created,
    the loop runs, and the deferred function stops and forgets the timer. *)
Definition settle (fuel : nat) (timeout t0 : Z) (env : nat -> cycle) (o : Overlord)
  : option (outcome (Overlord * option error)) :=
  match ensureTimer o with
  | Some _ => Some (Panics "cannot use Settle concurrently with other Settle or Loop calls")
  | None =>
      match settle_loop fuel timeout t0 env 0
              (with_schedule o (Some (NewTimer t0 0)) (ensureNext o)) [] with
      | None => None
      | Some (Panics msg) => Some (Panics msg)
      | Some (Returns (o', err)) =>
          Some (Returns (with_schedule o' None (ensureNext o'), err))
      end
  end.

(** [Settle(timeout)] *)
Definition Settle := settle.

(** The errors of the first [n] passes, in order. *)
Fixpoint cycle_errors (env : nat -> cycle) (n : nat) : list error :=
  match n with
  | O => []
  | S k => collect (cycle_errors env k) (ensureErr (env k))
  end.

(** ** The schedule *)

Lemma ensureBefore_returns (now d : Z) (o : Overlord) (t : Timer) :
  ensureTimer o = Some t ->
  exists o', ensureBefore now d o = Returns o' /\
             ensureTimer o' <> None /\ trace o' = trace o /\
             didPrune o' = didPrune o /\ stateFLock o' = stateFLock o /\
             loopTomb o' = loopTomb o.
Proof.
  intros Ht. unfold ensureBefore. rewrite Ht.
  destruct (now + d <? ensureNext o).
  - eexists; split; [reflexivity|]. simpl. repeat split; congruence.
  - destruct (ensureNext o <? now).
    + simpl. destruct (active t); simpl;
        (eexists; split; [reflexivity|]; simpl; repeat split; congruence).
    + exists o. repeat split; congruence.
Qed.

(** One call: the deadline afterwards, case by case. *)
Lemma ensureBefore_cases (now d : Z) (o : Overlord) (t : Timer) :
  ensureTimer o = Some t -> 0 <= d ->
  exists o', ensureBefore now d o = Returns o' /\
    (now + d < ensureNext o ->
       ensureNext o' = now + d /\ ensureTimer o' = Some (mk_Timer (now + d) true)) /\
    (ensureNext o < now -> active t = true ->
       ensureNext o' = now /\ ensureTimer o' = Some (mk_Timer now true)) /\
    (ensureNext o < now -> active t = false -> o' = o) /\
    (now <= ensureNext o <= now + d -> o' = o).
Proof.
  intros Ht Hd. unfold ensureBefore. rewrite Ht.
  destruct (Z.ltb_spec (now + d) (ensureNext o)) as [H1|H1].
  - eexists; split; [reflexivity|]. simpl.
    repeat split; intros; try lia; reflexivity.
  - destruct (Z.ltb_spec (ensureNext o) now) as [H2|H2].
    + simpl. destruct (active t) eqn:Ha; simpl.
      * eexists; split; [reflexivity|]. simpl. unfold Timer_Reset.
        rewrite Z.add_0_r.
        repeat split; intros; try lia; try congruence.
      * eexists; split; [reflexivity|].
        repeat split; intros; try lia; try congruence.
        destruct o as [l tb tm nx rn dp tr], t as [w a]; simpl in *.
        subst. reflexivity.
    + exists o. split; [reflexivity|]. repeat split; intros; try lia; reflexivity.
Qed.

Lemma ensureBefore_bound (now d : Z) (o o' : Overlord) :
  0 <= d -> ensureBefore now d o = Returns o' ->
  ensureNext o' <= Z.max (ensureNext o) now /\ ensureNext o' <= now + d /\
  (now <= ensureNext o -> ensureNext o' = Z.min (ensureNext o) (now + d)).
Proof.
  intros Hd. unfold ensureBefore.
  destruct (ensureTimer o) as [t|]; [|discriminate].
  destruct (Z.ltb_spec (now + d) (ensureNext o)) as [H1|H1].
  - intros H; inversion H; subst; simpl. lia.
  - destruct (Z.ltb_spec (ensureNext o) now) as [H2|H2].
    + simpl. destruct (active t); simpl; intros H; inversion H; subst; simpl; lia.
    + intros H; inversion H; subst. lia.
Qed.

Lemma earliest_le (calls : list (Z * Z)) :
  forall next, earliest calls next <= next.
Proof.
  unfold earliest. induction calls as [|c calls IH]; intros next; simpl; [lia|].
  specialize (IH (Z.min next (fst c + snd c))). lia.
Qed.

Lemma ensureBefore_all_returns (calls : list (Z * Z)) :
  forall o, ensureTimer o <> None ->
    exists o', ensureBefore_all calls o = Returns o' /\
               ensureTimer o' <> None /\ trace o' = trace o /\
               didPrune o' = didPrune o /\ stateFLock o' = stateFLock o /\
               loopTomb o' = loopTomb o.
Proof.
  induction calls as [|[now d] calls IH]; intros o Ht; simpl.
  - exists o. repeat split; auto.
  - destruct (ensureTimer o) as [t|] eqn:E; [|congruence].
    destruct (ensureBefore_returns now d o t E) as (o1 & -> & Ht1 & Htr & Hp & Hl & Hk).
    destruct (IH o1 Ht1) as (o2 & E2 & Ht2 & Htr2 & Hp2 & Hl2 & Hk2).
    exists o2. repeat split; congruence.
Qed.

(** Repeated calls: the deadline ends no later than the earliest deadline
    asked for, unless a call found the deadline elapsed, and then no later
    than that call's clock. *)
Lemma ensureBefore_all_bound (calls : list (Z * Z)) :
  forall o o', Forall (fun c => 0 <= snd c) calls ->
    ensureBefore_all calls o = Returns o' ->
    ensureNext o' <= earliest calls (ensureNext o) \/
    exists c, In c calls /\ ensureNext o' <= fst c.
Proof.
  induction calls as [|[now d] calls IH]; intros o o' Hd H; simpl in *.
  - inversion H; subst. left. unfold earliest; simpl. lia.
  - inversion Hd as [|? ? Hd0 Hds]; subst. simpl in Hd0.
    destruct (ensureBefore now d o) as [o1|] eqn:E1; [|discriminate].
    destruct (ensureBefore_bound now d o o1 Hd0 E1) as (B1 & B2 & B3).
    destruct (IH o1 o' Hds H) as [L | (c & Hin & L)].
    + destruct (Z.le_gt_cases now (ensureNext o)) as [Hle|Hgt].
      * left. unfold earliest in *. simpl. now rewrite <- (B3 Hle).
      * (* the deadline had elapsed at this call *)
        right. exists (now, d). split; [now left|]. simpl.
        pose proof (earliest_le calls (ensureNext o1)). lia.
    + right. exists c. split; [now right | exact L].
Qed.

(** Repeated calls none of which comes after a deadline asked for or the
    initial one: the deadline ends at the earliest of them. *)
Lemma ensureBefore_all_earliest (calls : list (Z * Z)) :
  forall o o', Forall (fun c => 0 <= snd c) calls ->
    Forall (fun c => fst c <= earliest calls (ensureNext o)) calls ->
    ensureBefore_all calls o = Returns o' ->
    ensureNext o' = earliest calls (ensureNext o).
Proof.
  induction calls as [|[now d] calls IH]; intros o o' Hd Hn H; simpl in *.
  - inversion H; subst. reflexivity.
  - inversion Hd as [|? ? Hd0 Hds]; subst. simpl in Hd0.
    inversion Hn as [|? ? Hn0 Hns]; subst. simpl in Hn0.
    destruct (ensureBefore now d o) as [o1|] eqn:E1; [|discriminate].
    destruct (ensureBefore_bound now d o o1 Hd0 E1) as (_ & _ & B3).
    pose proof (earliest_le calls (Z.min (ensureNext o) (now + d))) as L.
    change (earliest ((now, d) :: calls) (ensureNext o))
      with (earliest calls (Z.min (ensureNext o) (now + d))) in *.
    assert (E : ensureNext o1 = Z.min (ensureNext o) (now + d)) by (apply B3; lia).
    rewrite <- E in *.
    apply IH; assumption.
Qed.

(** C3, as the code has it.  After [Loop] has started, a call of
    [EnsureBefore(d)] with [d >= 0] leaves the recorded deadline no later
    than the later of its old value and the clock, and no later than
    [now + d]; it never moves a deadline that has not elapsed to a later
    instant.  If [now + d] is earlier than the deadline, the deadline becomes
    [now + d] and the timer is reset to it.  Otherwise, if the deadline has
    elapsed and the timer is still pending, the timer is reset to fire at
    once and the deadline becomes the clock; if the timer has already fired,
    nothing changes.  Repeated calls end no later than the earliest deadline
    asked for, or than the clock of a call that met an elapsed deadline; when
    no call comes after a deadline asked for, they end exactly at the
    earliest one. *)
Theorem ensureBefore_deadline (now d : Z) (o : Overlord) (t : Timer) :
  ensureTimer o = Some t -> 0 <= d ->
  exists o', ensureBefore now d o = Returns o' /\
    ensureNext o' <= Z.max (ensureNext o) now /\
    ensureNext o' <= now + d /\
    (now <= ensureNext o -> ensureNext o' <= ensureNext o) /\
    (now + d < ensureNext o ->
       ensureNext o' = now + d /\ ensureTimer o' = Some (mk_Timer (now + d) true)) /\
    (ensureNext o < now -> active t = true ->
       ensureNext o' = now /\ ensureTimer o' = Some (mk_Timer now true)) /\
    (ensureNext o < now -> active t = false -> o' = o) /\
    (forall calls, Forall (fun c => 0 <= snd c) calls ->
       exists o'', ensureBefore_all calls o' = Returns o'' /\
         (ensureNext o'' <= earliest ((now, d) :: calls) (ensureNext o) \/
          exists c, In c ((now, d) :: calls) /\ ensureNext o'' <= fst c) /\
         (Forall (fun c => fst c <= earliest ((now, d) :: calls) (ensureNext o))
                 ((now, d) :: calls) ->
          ensureNext o'' = earliest ((now, d) :: calls) (ensureNext o))).
Proof.
  intros Ht Hd.
  destruct (ensureBefore_cases now d o t Ht Hd) as (o' & E & C1 & C2 & C3 & _).
  destruct (ensureBefore_bound now d o o' Hd E) as (B1 & B2 & B3).
  exists o'. split; [exact E|].
  split; [exact B1|]. split; [exact B2|].
  split; [intros H; rewrite (B3 H); lia|].
  split; [exact C1|]. split; [exact C2|]. split; [exact C3|].
  intros calls Hds.
  destruct (ensureBefore_returns now d o t Ht) as (o1 & E1 & Ht1 & _).
  assert (o1 = o') by congruence. subst o1.
  destruct (ensureBefore_all_returns calls o' Ht1) as (o'' & E2 & _).
  exists o''. split; [exact E2|].
  assert (Eall : ensureBefore_all ((now, d) :: calls) o = Returns o'').
  { simpl. now rewrite E. }
  assert (Hall : Forall (fun c => 0 <= snd c) ((now, d) :: calls)).
  { constructor; assumption. }
  split.
  - exact (ensureBefore_all_bound _ o o'' Hall Eall).
  - intros Hn. exact (ensureBefore_all_earliest _ o o'' Hall Hn Eall).
Qed.

(** ** Stop prunes once *)

Lemma prunes_app (t : list event) (e : event) :
  prunes (t ++ [e]) = (prunes t + (if event_eqb EvPrune e then 1 else 0))%nat.
Proof.
  unfold prunes. rewrite filter_app, length_app. simpl.
  destruct e; reflexivity.
Qed.

Lemma prunes_cat (a b : list event) :
  prunes (a ++ b) = (prunes a + prunes b)%nat.
Proof. unfold prunes. now rewrite filter_app, length_app. Qed.

Ltac stop_trace :=
  first
    [ contradiction
    | reflexivity
    | rewrite <- ?app_assoc; simpl; reflexivity
    | rewrite <- ?app_assoc; simpl; rewrite prunes_cat; cbn; lia ].

Lemma loop_cycle_trace (now : Z) (calls : list (Z * Z)) (o o' : Overlord) :
  loop_cycle now calls o = Returns o' ->
  trace o' = trace o ++ [EvEnsure] /\ didPrune o' = didPrune o /\
  stateFLock o' = stateFLock o /\ loopTomb o' = loopTomb o.
Proof.
  unfold loop_cycle, ensureTimerReset. intros H.
  destruct (ensureTimer o) as [t|] eqn:Ht; [|discriminate].
  match type of H with
  | match ensureBefore_all ?c ?x with _ => _ end = _ =>
      destruct (ensureBefore_all_returns c x) as (o2 & E & _ & Htr & Hp & Hl & Hk);
      [simpl; discriminate | rewrite E in H]
  end.
  inversion H; subst; simpl in *. repeat split; assumption.
Qed.

(** [didPrune] is set exactly when a prune pass ran. *)
Lemma reachable_didPrune (o : Overlord) :
  reachable o -> (didPrune o = true <-> prunes (trace o) <> 0%nat).
Proof.
  induction 1 as [| |o o' Hr IH Hs].
  - simpl. split; [discriminate | intros H; now elim H].
  - simpl. split; [discriminate | intros H; now elim H].
  - destruct Hs as [now o | now calls o o' Hc | o | now d o o' Hb | t o Ht].
    + exact IH.
    + destruct (loop_cycle_trace _ _ _ _ Hc) as (-> & -> & _).
      rewrite prunes_app. simpl. rewrite Nat.add_0_r. exact IH.
    + simpl. rewrite prunes_app. simpl. split; [lia | reflexivity].
    + destruct (ensureTimer o) as [t|] eqn:Ht;
        [|unfold ensureBefore in Hb; rewrite Ht in Hb; discriminate].
      destruct (ensureBefore_returns now d o t Ht) as (o1 & E & _ & Htr & Hp & _).
      assert (o1 = o') by congruence. subst o1. now rewrite Htr, Hp.
    + exact IH.
Qed.

(** With the loop started, or without a tomb, [Stop] returns what
    [Stop_after_Wait] computes. *)
Lemma Stop_returns (waitErr : option error) (o : Overlord) :
  looping o = true \/ loopTomb o = false ->
  Stop waitErr o
  = Stopped (fst (Stop_after_Wait waitErr o)) (snd (Stop_after_Wait waitErr o)).
Proof.
  intros H. unfold Stop.
  assert (E : loopTomb o && negb (looping o) = false).
  { destruct H as [-> | ->]; [apply andb_false_r | reflexivity]. }
  rewrite E. destruct (Stop_after_Wait waitErr o). reflexivity.
Qed.

(** Without the loop started, [Stop] on an overlord with a tomb never
    returns, and no prune pass runs. *)
Lemma Stop_blocks (waitErr : option error) (o : Overlord) :
  looping o = false -> loopTomb o = true ->
  Stop waitErr o = Blocked (with_event o EvLoopKill) /\
  prunes (trace (with_event o EvLoopKill)) = prunes (trace o).
Proof.
  intros Hl Ht. unfold Stop. rewrite Hl, Ht. split; [reflexivity|].
  simpl. rewrite prunes_app. simpl. lia.
Qed.

(** C8, for an overlord whose loop has been started.  [Stop] returns; if
    no prune pass has run before it is called, it runs exactly one, after the
    loop has ended and before it stops the managers and releases the state
    lock; if a prune pass has already run, it runs none. *)
Theorem Stop_prunes_once (waitErr : option error) (o : Overlord) :
  reachable o -> looping o = true ->
  exists o',
    Stop waitErr o = Stopped o' (if loopTomb o then waitErr else None) /\
    let kill := if loopTomb o then [EvLoopKill] else [] in
    let release := if stateFLock o then [EvLockRelease] else [] in
    (prunes (trace o) = 0%nat ->
       trace o' = trace o ++ kill ++ [EvPrune; EvEngineStop] ++ release /\
       prunes (trace o') = 1%nat) /\
    (prunes (trace o) <> 0%nat ->
       trace o' = trace o ++ kill ++ [EvEngineStop] ++ release /\
       prunes (trace o') = prunes (trace o)) /\
    didPrune o' = true.
Proof.
  intros Hr Hl. pose proof (reachable_didPrune o Hr) as Hinv.
  unfold Stop. rewrite Hl, andb_false_r. unfold Stop_after_Wait.
  destruct o as [lk tb tm nx rn dp tr]; simpl in *. clear Hl.
  destruct dp.
  - assert (Hp : prunes tr <> 0%nat) by (now apply Hinv).
    destruct tb, lk; simpl; eexists; (split; [reflexivity|]);
      simpl; repeat split; intros; stop_trace.
  - assert (Hp : prunes tr = 0%nat).
    { destruct (Nat.eq_dec (prunes tr) 0) as [E|E]; [exact E|].
      apply Hinv in E. discriminate. }
    destruct tb, lk; simpl; eexists; (split; [reflexivity|]);
      simpl; repeat split; intros; stop_trace.
Qed.

(** ** Settle gives up *)

Lemma settle_body_returns (c : cycle) (o : Overlord) (errs : list error) :
  ensureTimer o <> None ->
  exists o' done,
    settle_body c o errs = Returns (o', collect errs (ensureErr c), done) /\
    ensureTimer o' <> None.
Proof.
  intros Ht. unfold settle_body, ensureTimerReset.
  destruct (ensureTimer o) as [t|] eqn:E; [|congruence].
  match goal with
  | |- context [ensureBefore_all ?c ?x] =>
      destruct (ensureBefore_all_returns c x) as (o2 & E2 & Ht2 & _);
      [simpl; discriminate | rewrite E2]
  end.
  eexists _, _. split; [reflexivity | exact Ht2].
Qed.

(** Work that never converges: whatever state a pass starts from, it ends
    with [done] false. *)
Definition never_done (env : nat -> cycle) (n : nat) : Prop :=
  forall i o errs o' errs' done, (i < n)%nat ->
    settle_body (env i) o errs = Returns (o', errs', done) -> done = false.

Lemma settle_loop_gives_up (timeout t0 : Z) (env : nat -> cycle) (n : nat) :
  0 < timeout ->
  (forall i, (i < n)%nat -> tcheck (env i) - t0 <= timeout) ->
  timeout < tcheck (env n) - t0 ->
  never_done env n ->
  forall k i o fuel, (i + k = n)%nat -> (k < fuel)%nat ->
    ensureTimer o <> None ->
    exists o',
      settle_loop fuel timeout t0 env i o (cycle_errors env i)
      = Some (Returns (o', Some (convergence_error (cycle_errors env n)))).
Proof.
  intros Hto Hearly Hlate Hnd.
  induction k as [|k IH]; intros i o fuel Hik Hf Ht;
    (destruct fuel as [|fuel]; [lia|]); cbn [settle_loop].
  - assert (i = n) by lia. subst i.
    destruct (Z.ltb_spec 0 timeout); [|lia].
    destruct (Z.ltb_spec timeout (tcheck (env n) - t0)); [|lia].
    simpl. eexists. reflexivity.
  - assert (Hi : (i < n)%nat) by lia.
    specialize (Hearly i Hi).
    destruct (Z.ltb_spec timeout (tcheck (env i) - t0)); [lia|].
    rewrite andb_false_r.
    destruct (settle_body_returns (env i) o (cycle_errors env i) Ht)
      as (o1 & done & E & Ht1).
    rewrite E. rewrite (Hnd _ _ _ _ _ _ Hi E).
    change (collect (cycle_errors env i) (ensureErr (env i)))
      with (cycle_errors env (S i)).
    apply IH; [lia | lia | exact Ht1].
Qed.

(** X26.  With a positive timeout and work that never converges, [Settle]
    terminates: as soon as the clock has passed the timeout at the top of a
    pass it returns the error "Settle is not converging", joined, when the
    passes run so far reported errors, with every one of them in one
    composite error; it leaves no timer behind. *)
Theorem Settle_not_converging
    (timeout t0 : Z) (env : nat -> cycle) (n : nat) (o : Overlord) :
  ensureTimer o = None ->
  0 < timeout ->
  (forall i, (i < n)%nat -> tcheck (env i) - t0 <= timeout) ->
  timeout < tcheck (env n) - t0 ->
  never_done env n ->
  forall fuel, (n < fuel)%nat ->
    exists o',
      Settle fuel timeout t0 env o
      = Some (Returns (o', Some (convergence_error (cycle_errors env n)))) /\
      ensureTimer o' = None /\
      (cycle_errors env n = [] ->
         convergence_error (cycle_errors env n) = ErrNotConverging) /\
      (cycle_errors env n <> [] ->
         convergence_error (cycle_errors env n)
         = ErrEnsure (cycle_errors env n ++ [ErrNotConverging])).
Proof.
  intros Ht Hto Hearly Hlate Hnd fuel Hf. unfold Settle, settle. rewrite Ht.
  destruct (settle_loop_gives_up timeout t0 env n Hto Hearly Hlate Hnd
              n 0%nat (with_schedule o (Some (NewTimer t0 0)) (ensureNext o))
              fuel) as (o' & E); [lia | exact Hf | simpl; discriminate |].
  change (cycle_errors env 0) with (@nil error) in E. rewrite E.
  eexists. split; [reflexivity|]. split; [reflexivity|].
  split.
  - intros ->. reflexivity.
  - intros Hne. destruct (cycle_errors env n); [congruence | reflexivity].
Qed.

End Schedule.

(** ** The scenarios of the overlord's tests *)

(** TestEnsureBeforeLater and TestEnsureBeforeSleepy (overlord_test.go), in
    seconds: the interval is ten minutes; inside the first ensure pass, at
    clock 100000, the test sets the deadline ten hours back with
    [MockEnsureNext] and then calls [EnsureBefore]. *)
Definition loop_started : Overlord := ensureTimerSetup 600 100000 Mock.

Definition sleepy : Overlord :=
  match ensureTimerReset 600 100000 loop_started with
  | Returns (o, _) => MockEnsureNext o (100000 - 36000)
  | Panics _ => loop_started
  end.

Example sleepy_state :
  sleepy = mk_Overlord false true (Some (mk_Timer 100600 true)) 64000 false false [].
Proof. reflexivity. Qed.

Example TestEnsureBeforeSleepy :
  ensureBefore 100000 0 sleepy
  = Returns (mk_Overlord false true (Some (mk_Timer 100000 true)) 100000
                         false false []).
Proof. reflexivity. Qed.

(** TestEnsureLoopMediatedEnsureBefore: a request of ten (milli)seconds
    against a deadline ten minutes ahead. *)
Lemma ensureBefore_deadline_witness :
  exists o', ensureBefore 100000 10 loop_started = Returns o' /\
             ensureNext o' = 100010 /\
             ensureTimer o' = Some (mk_Timer 100010 true).
Proof.
  destruct (ensureBefore_deadline 100000 10 loop_started (mk_Timer 100600 true)
              eq_refl ltac:(lia))
    as (o' & E & _ & _ & _ & C & _).
  exists o'. split; [exact E|]. apply C. simpl. lia.
Defined.

(** The claim does not hold for an elapsed deadline: the call of
    TestEnsureBeforeLater, [EnsureBefore] of five seconds, moves the recorded
    deadline from ten hours ago to the present clock, that is, later. *)
Lemma ensureBefore_moves_elapsed_deadline_later :
  ensureTimer sleepy <> None /\
  exists o', ensureBefore 100000 5 sleepy = Returns o' /\
             ensureNext sleepy < ensureNext o'.
Proof.
  split; [discriminate|].
  eexists. split; [reflexivity|]. simpl. lia.
Qed.

(** TestSettleNotConverging, in milliseconds: every pass takes a hundred,
    its handler asks for an ensure in twenty and retries; here each pass also
    reports an error. *)
Definition forever (i : nat) : cycle :=
  let now := 100 * Z.of_nat i in
  mk_cycle now now [(now, 20)] (Some (ErrOther "retry")) [(false, false)].

Lemma forever_never_done (n : nat) : never_done 60000 forever n.
Proof.
  intros i o errs o' errs' done _ H.
  unfold forever in H. cbv zeta in H.
  set (now := 100 * Z.of_nat i) in H. clearbody now.
  unfold settle_body, ensureTimerReset in H.
  destruct (ensureTimer o) as [t|] eqn:Ht; [|discriminate].
  cbn in H.
  destruct (Z.ltb_spec (now + 20) (now + 60000)) as [_|Hge]; [|lia].
  inversion H; subst; clear H. cbn.
  destruct (Z.eqb_spec (now + 20) (now + 60000)) as [Heq|_];
    [lia | reflexivity].
Qed.

(** With a timeout that is not positive the test at the top of the loop
    never fires: over work that never converges the loop goes on whatever the
    number of passes allowed. *)
Lemma settle_loop_no_timeout (timeout : Z) (fuel : nat) :
  timeout <= 0 ->
  forall i o errs, ensureTimer o <> None ->
    settle_loop 60000 fuel timeout 0 forever i o errs = None.
Proof.
  intros Hto. induction fuel as [|fuel IH]; intros i o errs Ht; [reflexivity|].
  cbn [settle_loop].
  destruct (Z.ltb_spec 0 timeout) as [Hpos|_]; [lia|]. cbn [andb].
  destruct (settle_body_returns 60000 (forever i) o errs Ht) as (o' & done & E & Ht').
  rewrite E. rewrite (forever_never_done (S i) i o errs _ _ _ (Nat.lt_succ_diag_r i) E).
  apply IH. exact Ht'.
Qed.

(** C4 at a negative timeout, which is not zero: over the never-converging
    work of TestSettleNotConverging, [Settle] returns nothing however many
    passes it is given, where its comment promises an error once settling
    takes longer than a non-zero timeout. *)
Lemma Settle_negative_timeout_never_returns :
  ~ (exists fuel r, Settle 60000 fuel (-1) 0 forever Mock = Some r).
Proof.
  intros (fuel & r & H). unfold Settle, settle in H. simpl ensureTimer in H.
  cbv iota in H.
  rewrite (settle_loop_no_timeout (-1) fuel) in H;
    [discriminate | lia | simpl; discriminate].
Qed.

Lemma Settle_not_converging_witness :
  exists o',
    Settle 60000 4 250 0 forever Mock
    = Some (Returns (o', Some (ErrEnsure [ErrOther "retry"; ErrOther "retry";
                                          ErrOther "retry"; ErrNotConverging]))).
Proof.
  destruct (Settle_not_converging 60000 250 0 forever 3 Mock eq_refl ltac:(lia))
    with (fuel := 4%nat) as (o' & E & _).
  - intros i Hi. unfold forever. cbv zeta. cbn [tcheck]. lia.
  - unfold forever. cbv zeta. cbn [tcheck]. lia.
  - apply forever_never_done.
  - lia.
  - exists o'. exact E.
Defined.

(** TestTrivialRunAndStop: [New], [Loop], [Stop]. *)
Lemma Stop_prunes_once_witness :
  exists o',
    Stop None (ensureTimerSetup 300 0 New) = Stopped o' None /\
    trace o' = [EvLoopKill; EvPrune; EvEngineStop; EvLockRelease].
Proof.
  destruct (Stop_prunes_once 300 None (ensureTimerSetup 300 0 New))
    as (o' & E & H & _).
  - apply (reachable_step 300 New); [apply reachable_New | apply step_Loop].
  - reflexivity.
  - exists o'. split; [exact E|]. apply H. reflexivity.
Defined.

(** The claim does not hold for every lifetime: [Stop] on an overlord just
    made by [New], whose [Loop] was never called, kills the tomb and then
    waits for ever; no prune pass has run before, and none runs, nor are the
    managers stopped or the state lock released. *)
Lemma Stop_without_Loop_never_prunes :
  reachable 300 New /\ prunes (trace New) = 0%nat /\
  Stop None New = Blocked (with_event New EvLoopKill) /\
  trace (with_event New EvLoopKill) = [EvLoopKill] /\
  prunes (trace (with_event New EvLoopKill)) = 0%nat.
Proof. repeat split. apply reachable_New. Qed.

End Overlord.

(* ===================================================================== *)
(** * The daemon: Stop *)
(* ===================================================================== *)

Module Daemon.

Local Open Scope string_scope.

(** Errors that reach the daemon's tomb from the HTTP server. *)
Inductive srvError : Type :=
| DeadlineExceeded           (* context.DeadlineExceeded *)
| SrvOther (msg : string).   (* any other error of Serve or Shutdown *)

(** What [Stop] returns besides nil. *)
Inductive stopError : Type :=
| ErrNoOverlord              (* errors.New("internal error: no Overlord") *)
| ErrRestartSocket           (* the sentinel *)
| ErrPropagated (e : srvError).

(** A [tomb.Tomb], as far as its reason goes: still alive, or dying or dead
    with a reason that may be nil. *)
Inductive Tomb : Type :=
| StillAlive
| Dying (reason : option srvError).

(** [t.Kill(reason)]: the first call sets the reason, a later one replaces
    a nil reason only. *)
Definition Kill (reason : option srvError) (t : Tomb) : Tomb :=
  match t with
  | StillAlive => Dying reason
  | Dying None => Dying reason
  | Dying (Some e) => Dying (Some e)
  end.

(** [t.Wait()] of a tomb that has been killed: its reason. *)
Definition Wait (t : Tomb) : option srvError :=
  match t with
  | StillAlive => None
  | Dying reason => reason
  end.

(** What the daemon does to its collaborators, in order. *)
Inductive event : Type :=
| EvListenerClose
| EvStandbyStop
| EvShutdown
| EvOverlordStop
| EvWarnTimeout
| EvServeClose.

(** A started daemon, as far as [Stop] reads and writes it. *)
Record Daemon : Type := mk_Daemon {
  overlord : option Overlord.Overlord;
  tomb : Tomb;
  restartSocket : bool;
  socketActivated : bool;
  trace : list event
}.

(** [HandleRestart] for [restart.RestartSocket]. *)
Definition HandleRestart (d : Daemon) : Daemon :=
  mk_Daemon (overlord d) (Kill None (tomb d)) true (socketActivated d) (trace d).

(** The goroutine of [Start] ends: [Serve] returned [err] ([None] stands
    for [http.ErrServerClosed]); the error becomes the tomb's reason when the
    tomb was still alive. *)
Definition serve_returns (err : option srvError) (d : Daemon) : Daemon :=
  let reason :=
    match err, tomb d with
    | Some e, StillAlive => Some e
    | _, _ => None
    end in
  mk_Daemon (overlord d) (Kill reason (tomb d)) (restartSocket d)
            (socketActivated d) (trace d).

(** What [Stop] meets: the result of [d.serve.Shutdown(ctx)], what the
    standby opinions say once the requests are drained, and what the
    overlord's loop returns. *)
Record stopEnv : Type := mk_stopEnv {
  shutdownErr : option srvError;
  canStandby : bool;
  loopErr : option Overlord.error
}.

Definition is_deadline (e : srvError) : bool :=
  match e with DeadlineExceeded => true | SrvOther _ => false end.

(** [func (d *Daemon) Stop() error].  The overlord of a started daemon
    loops, [Start] having called its [Loop], so that the [Wait] inside the
    overlord's [Stop] returns; [loopErr env] is what it returns. *)
Definition Stop (env : stopEnv) (d : Daemon) : Daemon * option stopError :=
  match overlord d with
  | None => (d, Some ErrNoOverlord)
  | Some o =>
      let tomb1 := Kill None (tomb d) in
      let restartSocket_local := restartSocket d in
      let tomb2 := Kill (shutdownErr env) tomb1 in
      let flag :=
        if restartSocket_local
        then (if negb (canStandby env) then false else restartSocket d)
        else restartSocket d in
      let o' := fst (Overlord.Stop_after_Wait (loopErr env) o) in
      let events := [EvListenerClose; EvStandbyStop; EvShutdown; EvOverlordStop] in
      match Wait tomb2 with
      | Some e =>
          if is_deadline e then
            let d' := mk_Daemon (Some o') tomb2 flag (socketActivated d)
                        (trace d ++ events ++ [EvWarnTimeout; EvServeClose]) in
            (d', if flag then Some ErrRestartSocket else None)
          else
            (mk_Daemon (Some o') tomb2 flag (socketActivated d) (trace d ++ events),
             Some (ErrPropagated e))
      | None =>
          let d' := mk_Daemon (Some o') tomb2 flag (socketActivated d)
                      (trace d ++ events) in
          (d', if flag then Some ErrRestartSocket else None)
      end
  end.

(** The error the daemon's tomb ends with in [Stop]. *)
Definition tomb_error (env : stopEnv) (d : Daemon) : option srvError :=
  Wait (Kill (shutdownErr env) (Kill None (tomb d))).

(** ** The tests' daemons *)

(** The overlord of a started daemon: [Start] has called its [Loop] (the
    ensure interval is five minutes, in milliseconds). *)
Definition looping_overlord : Overlord.Overlord :=
  Overlord.ensureTimerSetup 300000 0 Overlord.New.

(** TestStartAndStopActivated: an activated daemon whose restart was asked
    for, with nothing in the way of standby. *)
Definition started : Daemon :=
  mk_Daemon (Some looping_overlord) StillAlive false true [].

Definition activated : Daemon := HandleRestart started.

(** The same daemon after its listener's [Accept] failed for good and
    [Serve] returned that error. *)
Definition activated_serve_failed : Daemon :=
  HandleRestart (serve_returns (Some (SrvOther "accept unix: oopsie")) started).

Example TestStartAndStopActivated :
  snd (Stop (mk_stopEnv None true None) activated) = Some ErrRestartSocket.
Proof. reflexivity. Qed.

Example TestTrivialStartStop :
  snd (Stop (mk_stopEnv None false None)
         (mk_Daemon (Some looping_overlord) StillAlive false false []))
  = None.
Proof. reflexivity. Qed.

(** ** Stop and the restart flag *)

(** C5, as the code has it.  For a [Stop] of a daemon with an overlord whose
    socket-preserving restart had been flagged: if the standby opinions no
    longer agree after the drain, the restart is downgraded and [Stop] does
    not return the sentinel; otherwise [Stop] returns [ErrRestartSocket]
    unless the tomb ends with an error other than the shutdown deadline, which
    is then returned instead.  Without the flag [Stop] never returns the
    sentinel.  In every case the result is nil, the sentinel or a propagated
    error. *)
Theorem Stop_restart_socket (env : stopEnv) (d : Daemon) (o : Overlord.Overlord) :
  overlord d = Some o ->
  let d' := fst (Stop env d) in
  let res := snd (Stop env d) in
  (restartSocket d = true -> canStandby env = false ->
     restartSocket d' = false /\ res <> Some ErrRestartSocket) /\
  (restartSocket d = true -> canStandby env = true ->
     (tomb_error env d = None \/ tomb_error env d = Some DeadlineExceeded ->
        res = Some ErrRestartSocket /\ restartSocket d' = true) /\
     (forall e, tomb_error env d = Some e -> e <> DeadlineExceeded ->
        res = Some (ErrPropagated e))) /\
  (restartSocket d = false -> res <> Some ErrRestartSocket) /\
  (res = None \/ res = Some ErrRestartSocket \/
   exists e, res = Some (ErrPropagated e) /\ tomb_error env d = Some e).
Proof.
  intros Ho d' res. subst d' res. unfold Stop, tomb_error. rewrite Ho.
  destruct (Wait (Kill (shutdownErr env) (Kill None (tomb d)))) as [[|msg]|];
    destruct (restartSocket d), (canStandby env); simpl;
    repeat split; intros;
    try discriminate; try congruence;
    try (match goal with H : _ \/ _ |- _ => destruct H; discriminate end);
    auto;
    right; right; eexists; split; reflexivity.
Qed.

Lemma Stop_restart_socket_witness :
  snd (Stop (mk_stopEnv (Some DeadlineExceeded) true None) activated)
    = Some ErrRestartSocket /\
  snd (Stop (mk_stopEnv None false None) activated) <> Some ErrRestartSocket.
Proof.
  split.
  - pose proof (Stop_restart_socket (mk_stopEnv (Some DeadlineExceeded) true None)
                  activated looping_overlord eq_refl) as H.
    cbv zeta in H. destruct H as (_ & H & _).
    exact (proj1 (proj1 (H eq_refl eq_refl) (or_intror eq_refl))).
  - pose proof (Stop_restart_socket (mk_stopEnv None false None)
                  activated looping_overlord eq_refl) as H.
    cbv zeta in H. destruct H as (H & _).
    exact (proj2 (H eq_refl eq_refl)).
Defined.

(** The claim does not hold when the tomb ends with an error: the restart is
    flagged and the standby opinions agree, yet [Stop] returns the error of
    the HTTP server, not the sentinel. *)
Lemma Stop_flagged_returns_server_error :
  restartSocket activated_serve_failed = true /\
  snd (Stop (mk_stopEnv None true None) activated_serve_failed)
  = Some (ErrPropagated (SrvOther "accept unix: oopsie")) /\
  snd (Stop (mk_stopEnv None true None) activated_serve_failed)
  <> Some ErrRestartSocket.
Proof. repeat split. discriminate. Qed.

End Daemon.

(* ===================================================================== *)
(** * The connection tracker *)
(* ===================================================================== *)

From stdpp Require Import gmap strings.

Module ConnTracker.

#[local] Set Warnings "-clear-no-such-hyp".

(** [http.ConnState] *)
Inductive ConnState : Type :=
| StateNew
| StateActive
| StateIdle
| StateHijacked
| StateClosed.

(** [connTracker]: [conns map[net.Conn]struct{}], connections being named
    by numbers; the mutex is left out. *)
Record connTracker : Type := mk_connTracker {
  conns : gset nat
}.

(** [newConnTracker] *)
Definition newConnTracker : connTracker := mk_connTracker ∅.

(** [CanStandby]: [len(ct.conns) == 0] *)
Definition CanStandby (ct : connTracker) : bool :=
  bool_decide (size (conns ct) = 0).

(** [TrackConn] *)
Definition TrackConn (conn : nat) (state : ConnState) (ct : connTracker)
  : connTracker :=
  match state with
  | StateNew | StateActive => mk_connTracker ({[conn]} ∪ conns ct)
  | _ => mk_connTracker (conns ct ∖ {[conn]})
  end.

(** The server reports a run of state changes, oldest first. *)
Definition track_all (evs : list (nat * ConnState)) (ct : connTracker)
  : connTracker :=
  foldl (fun ct e => TrackConn (fst e) (snd e) ct) ct evs.

(** Whether a state makes a connection count as busy. *)
Definition busy (s : ConnState) : bool :=
  match s with StateNew | StateActive => true | _ => false end.

(** The state a connection was last reported in, if it was reported. *)
Fixpoint last_state (evs : list (nat * ConnState)) (conn : nat)
  : option ConnState :=
  match evs with
  | [] => None
  | (c, s) :: rest =>
      match last_state rest conn with
      | Some s' => Some s'
      | None => if decide (c = conn) then Some s else None
      end
  end.

(** TestConnTrackerCanStandby (daemon_test.go) *)
Example TestConnTrackerCanStandby :
  CanStandby newConnTracker = true /\
  CanStandby (track_all [(1, StateNew)] newConnTracker) = false /\
  CanStandby (track_all [(1, StateNew); (2, StateNew)] newConnTracker) = false /\
  CanStandby (track_all [(1, StateNew); (2, StateNew); (1, StateIdle)]
                newConnTracker) = false /\
  CanStandby (track_all [(1, StateNew); (2, StateNew); (1, StateIdle); (2, StateIdle)]
                newConnTracker) = true.
Proof. repeat split; vm_compute; reflexivity. Qed.

Lemma TrackConn_elem (conn c : nat) (s : ConnState) (ct : connTracker) :
  conn ∈ conns (TrackConn c s ct) <->
  if decide (c = conn) then busy s = true else conn ∈ conns ct.
Proof.
  destruct s; simpl; case_decide; subst;
    rewrite ?elem_of_union, ?elem_of_difference, ?elem_of_singleton;
    intuition congruence.
Qed.

Lemma track_all_elem (evs : list (nat * ConnState)) :
  forall (ct : connTracker) (conn : nat),
    conn ∈ conns (track_all evs ct) <->
    match last_state evs conn with
    | Some s => busy s = true
    | None => conn ∈ conns ct
    end.
Proof.
  induction evs as [|[c s] evs IH]; intros ct conn; [reflexivity|].
  change (track_all ((c, s) :: evs) ct) with (track_all evs (TrackConn c s ct)).
  rewrite IH. simpl.
  destruct (last_state evs conn) as [s'|]; [reflexivity|].
  rewrite TrackConn_elem. case_decide; reflexivity.
Qed.

(** X1.  A connection is tracked exactly when the state it was last reported in
    is new or active, whatever was reported before. *)
Theorem tracked_iff_last_state_busy (evs : list (nat * ConnState)) (conn : nat) :
  conn ∈ conns (track_all evs newConnTracker) <->
  exists s, last_state evs conn = Some s /\ busy s = true.
Proof.
  rewrite track_all_elem. destruct (last_state evs conn) as [s|].
  - split; [intros H; exists s; auto | intros (s' & E & H); congruence].
  - simpl. split; [set_solver | intros (s & E & _); discriminate].
Qed.

(** X2.  The tracker allows standby exactly when no connection was last reported
    new or active. *)
Theorem CanStandby_iff_no_busy_connection (evs : list (nat * ConnState)) :
  CanStandby (track_all evs newConnTracker) = true <->
  forall conn s, last_state evs conn = Some s -> busy s = false.
Proof.
  unfold CanStandby. rewrite bool_decide_eq_true, size_empty_iff.
  split.
  - intros He conn s E. destruct (busy s) eqn:B; [|reflexivity].
    exfalso. assert (Hin : conn ∈ conns (track_all evs newConnTracker)).
    { apply track_all_elem. rewrite E. exact B. }
    set_solver.
  - intros H. apply elem_of_equiv_empty. intros conn Hin.
    apply track_all_elem in Hin.
    destruct (last_state evs conn) as [s|] eqn:E.
    + rewrite (H conn s E) in Hin. discriminate.
    + simpl in Hin. set_solver.
Qed.

(** X3.  The life of one connection, from new or active to idle, hijacked or
    closed, leaves a tracker that did not hold it as it was; in between the
    connection counts once and standby is refused; in both steps the other
    connections stay as they are. *)
Theorem TrackConn_lifecycle
    (conn : nat) (s1 s2 : ConnState) (ct : connTracker) :
  conn ∉ conns ct -> busy s1 = true -> busy s2 = false ->
  TrackConn conn s2 (TrackConn conn s1 ct) = ct /\
  size (conns (TrackConn conn s1 ct)) = S (size (conns ct)) /\
  CanStandby (TrackConn conn s1 ct) = false /\
  (forall s other, other <> conn ->
     (other ∈ conns (TrackConn conn s ct) <-> other ∈ conns ct)).
Proof.
  intros Hn B1 B2. destruct ct as [cs]. simpl in Hn.
  assert (E1 : conns (TrackConn conn s1 (mk_connTracker cs)) = {[conn]} ∪ cs).
  { destruct s1; try discriminate B1; reflexivity. }
  split; [|split; [|split]].
  - assert (E2 : TrackConn conn s2 (TrackConn conn s1 (mk_connTracker cs))
                 = mk_connTracker (conns (TrackConn conn s1 (mk_connTracker cs))
                                     ∖ {[conn]})).
    { destruct s2; try discriminate B2; reflexivity. }
    rewrite E2, E1. f_equal. apply set_eq. set_solver.
  - rewrite E1. rewrite size_union by set_solver. now rewrite size_singleton.
  - unfold CanStandby. rewrite E1. apply bool_decide_eq_false.
    rewrite size_union by set_solver. rewrite size_singleton. lia.
  - intros s other Hne. rewrite TrackConn_elem. case_decide; [congruence|].
    reflexivity.
Qed.

Lemma TrackConn_lifecycle_witness :
  TrackConn 2 StateClosed (TrackConn 2 StateNew (track_all [(1, StateNew)] newConnTracker))
  = track_all [(1, StateNew)] newConnTracker.
Proof.
  apply (TrackConn_lifecycle 2 StateNew StateClosed
           (track_all [(1, StateNew)] newConnTracker));
    [vm_compute; set_solver | reflexivity | reflexivity].
Defined.

End ConnTracker.

(* ===================================================================== *)
(** * Peer credentials of a connection *)
(* ===================================================================== *)

Module PeerCred.

Import Go.
Local Open Scope Z_scope.

(** [syscall.Ucred] *)
Record Ucred : Type := mk_Ucred {
  Pid : Z;     (* int32 *)
  Uid : Z;     (* uint32 *)
  Gid : Z      (* uint32 *)
}.

Inductive error : Type :=
| ErrNoPeerCred             (* "connection has no peer credential" *)
| OSError (msg : string).   (* an error of the operating system *)

Definition MaxUint32 : Z := 2 ^ 32 - 1.

(** [raw.Control(f)]: it fails before it calls [f], or it runs [f], which
    asks for the credentials with [GetsockoptUcred]. *)
Inductive control : Type :=
| ControlFails (scErr : error)
| ControlRuns (getsockopt : Ucred + error).

(** A [net.Conn], as far as [ConnPeerCred] looks at it: it is no
    [syscall.Conn], or its [SyscallConn()] fails, or it gives a raw
    connection. *)
Inductive Conn : Type :=
| NotSyscallConn
| SyscallConnFails (err : error)
| RawConn (c : control).

(** [ConnPeerCred] *)
Definition ConnPeerCred (conn : Conn) : option Ucred * option error :=
  match conn with
  | NotSyscallConn => (None, Some ErrNoPeerCred)
  | SyscallConnFails err => (None, Some err)
  | RawConn (ControlFails scErr) => (None, Some scErr)
  | RawConn (ControlRuns (inr err)) => (None, Some err)
  | RawConn (ControlRuns (inl ucred)) =>
      if (Pid ucred =? 0) || (Uid ucred =? MaxUint32) || (Gid ucred =? MaxUint32)
      then (None, Some ErrNoPeerCred)
      else (Some ucred, None)
  end.

(** [err.Error()] *)
Definition Error (e : error) : string :=
  match e with
  | ErrNoPeerCred => "connection has no peer credential"
  | OSError msg => msg
  end.

(** The value [netutil.ConnPeerCred] that the package variable
    [netutilConnPeerCred] of command.go holds: credentials, or the message of
    the error. *)
Definition netutilConnPeerCred (conn : Conn) : Ucred + string :=
  match ConnPeerCred conn with
  | (Some ucred, _) => inl ucred
  | (None, Some err) => inr (Error err)
  | (None, None) => inr ""%string
  end.

(** TestNonSyscallConn (peercred_test.go) *)
Example TestNonSyscallConn :
  ConnPeerCred NotSyscallConn = (None, Some ErrNoPeerCred).
Proof. reflexivity. Qed.

(** X4.  [ConnPeerCred] gives credentials or an error, never both and never
    neither; the credentials it gives are those the kernel reported, and never
    those of no process (pid 0) or of the overflow user or group
    (0xFFFFFFFF). *)
Theorem ConnPeerCred_sound (conn : Conn) :
  (exists ucred,
      ConnPeerCred conn = (Some ucred, None) /\
      conn = RawConn (ControlRuns (inl ucred)) /\
      Pid ucred <> 0 /\ Uid ucred <> MaxUint32 /\ Gid ucred <> MaxUint32) \/
  (exists err,
      ConnPeerCred conn = (None, Some err) /\
      (err = ErrNoPeerCred \/
       conn = SyscallConnFails err \/
       conn = RawConn (ControlFails err) \/
       conn = RawConn (ControlRuns (inr err)))).
Proof.
  destruct conn as [|err|[scErr|[ucred|err]]]; simpl.
  - right. exists ErrNoPeerCred. auto.
  - right. exists err. auto.
  - right. exists scErr. auto.
  - destruct (Z.eqb_spec (Pid ucred) 0) as [Hp|Hp]; simpl.
    { right. exists ErrNoPeerCred. auto. }
    destruct (Z.eqb_spec (Uid ucred) MaxUint32) as [Hu|Hu]; simpl.
    { right. exists ErrNoPeerCred. auto. }
    destruct (Z.eqb_spec (Gid ucred) MaxUint32) as [Hg|Hg]; simpl.
    { right. exists ErrNoPeerCred. auto. }
    left. exists ucred. auto.
  - right. exists err. auto 6.
Qed.

(** Credentials reported by the kernel that name a process and a proper
    user and group are passed on as they are. *)
Lemma ConnPeerCred_passes_credentials (ucred : Ucred) :
  Pid ucred <> 0 -> Uid ucred <> MaxUint32 -> Gid ucred <> MaxUint32 ->
  ConnPeerCred (RawConn (ControlRuns (inl ucred))) = (Some ucred, None) /\
  netutilConnPeerCred (RawConn (ControlRuns (inl ucred))) = inl ucred.
Proof.
  intros Hp Hu Hg. unfold netutilConnPeerCred, ConnPeerCred.
  apply Z.eqb_neq in Hp, Hu, Hg. rewrite Hp, Hu, Hg. simpl. auto.
Qed.

End PeerCred.

(* ===================================================================== *)
(** * Writing responses *)
(* ===================================================================== *)

Module Response.

Local Open Scope Z_scope.

(** [responseType] *)
Inductive responseType : Type :=
| responseTypeSync
| responseTypeAsync
| responseTypeError.

(** A value of a result map, as far as [Write] tells values apart. *)
Inductive field : Type :=
| FString (s : string)
| FOther.

(** [errorResult] (errors.go); [Value] is never set by the responders. *)
Record errorResult : Type := mk_errorResult {
  erMessage : string;
  erKind : string
}.

(** The [Result interface{}] of a [resp]: a [map[string]interface{}], the
    [*errorResult] of an [apiError], or any other value, named by a tag. *)
Inductive result : Type :=
| ResultMap (m : gmap string field)
| ResultError (e : errorResult)
| ResultOther (tag : nat).

(** [resp] *)
Record resp : Type := mk_resp {
  Type_ : responseType;
  Status : Z;
  Result : result;
  Change : string
}.

(** An [http.ResponseWriter] that records what is written to it: the header
    map, the status code once the header is written, and the body. *)
Record ResponseWriter : Type := mk_ResponseWriter {
  Header : gmap string string;
  Code : option Z;
  Body : string
}.

(** [w.WriteHeader(status)]: the first call decides. *)
Definition WriteHeader (status : Z) (w : ResponseWriter) : ResponseWriter :=
  match Code w with
  | Some _ => w
  | None => mk_ResponseWriter (Header w) (Some status) (Body w)
  end.

(** [w.Write(b)]: an unwritten header goes out with status 200. *)
Definition Write_bytes (b : string) (w : ResponseWriter) : ResponseWriter :=
  mk_ResponseWriter (Header w)
    (match Code w with Some c => Some c | None => Some 200 end)
    (Body w +:+ b).

(** [syncResponse] *)
Definition syncResponse (r : result) : resp :=
  mk_resp responseTypeSync 200 r "".

(** [asyncResponse] *)
Definition asyncResponse (r : result) (change : string) : resp :=
  mk_resp responseTypeAsync 202 r change.

Section Write.

(** [json.Marshal(r)] with [resp.MarshalJSON]: the bytes, or [None] when
    the result cannot be encoded. *)
Variable Marshal : resp -> option string.

(** [func (r *resp) Write(w http.ResponseWriter)] *)
Definition Write (r : resp) (w : ResponseWriter) : ResponseWriter :=
  let '(b, status) :=
    match Marshal r with
    | Some b => (b, Status r)
    | None => (""%string, 500)
    end in
  let hdr := Header w in
  let hdr :=
    if (Status r =? 202) || (Status r =? 201) then
      match Result r with
      | ResultMap m =>
          match m !! "resource"%string with
          | Some (FString location) =>
              if decide (location <> ""%string)
              then <["Location"%string := location]> hdr
              else hdr
          | _ => hdr
          end
      | _ => hdr
      end
    else hdr in
  let hdr := <["Content-Type"%string := "application/json"%string]> hdr in
  Write_bytes b (WriteHeader status (mk_ResponseWriter hdr (Code w) (Body w))).

(** [func (ae *apiError) Write(w http.ResponseWriter)] *)
Definition apiError_Write (ae : Command.apiError) (w : ResponseWriter)
  : ResponseWriter :=
  Write (mk_resp responseTypeError (Command.Status ae)
           (ResultError (mk_errorResult (Command.Message ae) (Command.Kind ae)))
           "")
        w.

(** The [Write] of a [response]: of an [*apiError] or of a [*resp]. *)
Definition response_Write (rsp : Command.response resp) (w : ResponseWriter)
  : ResponseWriter :=
  match rsp with
  | Command.RespError ae => apiError_Write ae w
  | Command.RespOther r => Write r w
  end.

(** Whether [Write] mirrors a location into the header: the status is 201 or
    202 and the result is a map whose ["resource"] is a string that is not
    empty. *)
Definition mirrors (r : resp) (location : string) : Prop :=
  (Status r = 201 \/ Status r = 202) /\
  exists m, Result r = ResultMap m /\
            m !! "resource"%string = Some (FString location) /\
            location <> ""%string.

Lemma mirrors_dec (r : resp) :
  (exists location, mirrors r location /\
     forall w, Header (Write r w)
               = <["Content-Type"%string := "application/json"%string]>
                   (<["Location"%string := location]> (Header w))) \/
  ((forall location, ~ mirrors r location) /\
   forall w, Header (Write r w)
             = <["Content-Type"%string := "application/json"%string]> (Header w)).
Proof.
  unfold Write.
  assert (Hhdr : forall w b status hdr,
             Header (Write_bytes b (WriteHeader status
                       (mk_ResponseWriter hdr (Code w) (Body w)))) = hdr).
  { intros w b status hdr. unfold Write_bytes, WriteHeader. simpl.
    destruct (Code w); reflexivity. }
  destruct ((Status r =? 202) || (Status r =? 201)) eqn:Es.
  - assert (Hs : Status r = 201 \/ Status r = 202).
    { apply orb_true_iff in Es as [E|E]; apply Z.eqb_eq in E; auto. }
    destruct (Result r) as [m|e|tag] eqn:Er.
    + destruct (m !! "resource"%string) as [[location|]|] eqn:El.
      * destruct (decide (location <> ""%string)) as [Hne|He].
        -- left. exists location. split.
           { split; [exact Hs|]. exists m. auto. }
           intros w. destruct (Marshal r); apply Hhdr.
        -- right. split.
           { intros l (_ & m' & Em & El' & Hl).
             assert (m' = m) by congruence. subst m'.
             rewrite El in El'. inversion El'; subst l. exact (He Hl). }
           intros w. destruct (Marshal r); apply Hhdr.
      * right. split.
        { intros l (_ & m' & Em & El' & Hl). congruence. }
        intros w. destruct (Marshal r); apply Hhdr.
      * right. split.
        { intros l (_ & m' & Em & El' & Hl). congruence. }
        intros w. destruct (Marshal r); apply Hhdr.
    + right. split.
      { intros l (_ & m' & Em & _). congruence. }
      intros w. destruct (Marshal r); apply Hhdr.
    + right. split.
      { intros l (_ & m' & Em & _). congruence. }
      intros w. destruct (Marshal r); apply Hhdr.
  - right. split.
    { intros l ([Hs|Hs] & _); rewrite Hs in Es; discriminate Es. }
    intros w. destruct (Marshal r); apply Hhdr.
Qed.

(** X5.  On a writer whose header is not yet written, [Write] sends the status of
    the response and its encoding, or 500 and nothing when the response cannot
    be encoded; in both cases the content type is JSON and every header other
    than the content type and the location stays as it was. *)
Theorem Write_status_and_content_type (r : resp) (w : ResponseWriter) :
  Code w = None ->
  Header (Write r w) !! "Content-Type"%string = Some "application/json"%string /\
  (forall b, Marshal r = Some b ->
     Code (Write r w) = Some (Status r) /\ Body (Write r w) = Body w +:+ b) /\
  (Marshal r = None ->
     Code (Write r w) = Some 500 /\ Body (Write r w) = Body w +:+ ""%string) /\
  (forall k : string, k <> "Content-Type"%string -> k <> "Location"%string ->
     Header (Write r w) !! k = Header w !! k).
Proof.
  intros Hc. split; [|split; [|split]].
  - destruct (mirrors_dec r) as [(l & _ & H) | (_ & H)]; rewrite H;
      apply lookup_insert_eq.
  - intros b Hb. unfold Write. rewrite Hb. unfold Write_bytes, WriteHeader.
    simpl. rewrite Hc. simpl. auto.
  - intros Hn. unfold Write. rewrite Hn. unfold Write_bytes, WriteHeader.
    simpl. rewrite Hc. simpl. auto.
  - intros k Hk1 Hk2.
    destruct (mirrors_dec r) as [(l & _ & H) | (_ & H)]; rewrite H;
      rewrite !lookup_insert_ne by congruence; reflexivity.
Qed.

(** X6.  The header of a written response names a location exactly when the
    status is 201 or 202 and the result is a map with a non-empty string under
    ["resource"], and then it names that string; otherwise the location the
    header had, if any, is left alone. *)
Theorem Write_location (r : resp) (w : ResponseWriter) (location : string) :
  Header (Write r w) !! "Location"%string = Some location <->
  mirrors r location \/
  ((forall l, ~ mirrors r l) /\ Header w !! "Location"%string = Some location).
Proof.
  destruct (mirrors_dec r) as [(l & Hm & H) | (Hn & H)]; rewrite H;
    rewrite lookup_insert_ne by discriminate.
  - rewrite lookup_insert_eq. split.
    + intros E. inversion E; subst. now left.
    + intros [Hm' | (Hn & _)]; [|exfalso; exact (Hn l Hm)].
      destruct Hm as (_ & m & Em & El & _), Hm' as (_ & m' & Em' & El' & _).
      congruence.
  - split.
    + intros E. right. auto.
    + intros [Hm | (_ & E)]; [exfalso; exact (Hn location Hm) | exact E].
Qed.

(** X7.  A sync response and the response of an [apiError] never name a location;
    an async response names the resource of its result map. *)
Theorem responses_and_location (w : ResponseWriter) :
  Header w !! "Location"%string = None ->
  (forall res, Header (Write (syncResponse res) w) !! "Location"%string = None) /\
  (forall ae, Header (apiError_Write ae w) !! "Location"%string = None) /\
  (forall m change location,
      m !! "resource"%string = Some (FString location) -> location <> ""%string ->
      Header (Write (asyncResponse (ResultMap m) change) w) !! "Location"%string
      = Some location).
Proof.
  intros Hw.
  assert (Hnone : forall r, (forall l, ~ mirrors r l) ->
                    Header (Write r w) !! "Location"%string = None).
  { intros r Hn. destruct (mirrors_dec r) as [(l & Hm & _) | (_ & H)].
    - exfalso. exact (Hn l Hm).
    - rewrite H, lookup_insert_ne by discriminate. exact Hw. }
  split; [|split].
  - intros res. apply Hnone. intros l ([Hs|Hs] & _); discriminate Hs.
  - intros ae. apply Hnone. intros l (_ & m & Em & _). discriminate Em.
  - intros m change location El Hne.
    destruct (mirrors_dec (asyncResponse (ResultMap m) change))
      as [(l & Hm & H) | (Hn & _)].
    + rewrite H, lookup_insert_ne by discriminate. rewrite lookup_insert_eq.
      destruct Hm as (_ & m' & Em & El' & _). inversion Em; subst m'.
      congruence.
    + exfalso. apply (Hn location). split; [right; reflexivity|].
      exists m. auto.
Qed.

End Write.

(** An encoder for the examples: every response encodes to the same bytes. *)
Definition testMarshal (r : resp) : option string := Some "{}"%string.

Lemma Write_status_and_content_type_witness :
  Header (Write testMarshal (syncResponse (ResultOther 0))
            (mk_ResponseWriter ∅ None ""))
    !! "Content-Type"%string = Some "application/json"%string.
Proof.
  apply (Write_status_and_content_type testMarshal (syncResponse (ResultOther 0))
           (mk_ResponseWriter ∅ None "") eq_refl).
Defined.

Lemma responses_and_location_witness :
  Header (Write testMarshal
            (asyncResponse
               (ResultMap {["resource"%string := FString "/v1/changes/15"]}) "15")
            (mk_ResponseWriter ∅ None ""))
    !! "Location"%string = Some "/v1/changes/15"%string.
Proof.
  refine (proj2 (proj2 (responses_and_location testMarshal
                          (mk_ResponseWriter ∅ None "") _))
            {["resource"%string := FString "/v1/changes/15"]} "15"%string
            "/v1/changes/15"%string _ _).
  - apply lookup_empty.
  - apply lookup_singleton_eq.
  - discriminate.
Defined.

End Response.

(* ===================================================================== *)
(** * The command dispatcher *)
(* ===================================================================== *)

Module Dispatcher.

Import Go.
Local Open Scope Z_scope.

Section ServeHTTP.

Variable Daemon : Type.
Variable Sprintf : string -> list string -> string.
Variable AllowInteractionHeaderName : string.
Variable Marshal : Response.resp -> option string.

(** The daemon's commands: connections and credentials are those of
    [netutil], handlers answer with a [resp]. *)
Definition command : Type :=
  Command.command Daemon PeerCred.Conn PeerCred.Ucred Response.resp.

Definition Request : Type := Command.Request PeerCred.Conn.

Definition event : Type := Command.event PeerCred.Conn PeerCred.Ucred.

(** [command.Run] with the package variable [netutilConnPeerCred] at its
    initial value, [netutil.ConnPeerCred]. *)
Definition Run (c : command) (d : Daemon) (r : Request)
  : list event * outcome (Command.response Response.resp) :=
  Command.Run Daemon PeerCred.Conn PeerCred.Ucred Response.resp
    Sprintf AllowInteractionHeaderName PeerCred.netutilConnPeerCred c d r.

(** [func (cd *commandDispatcher) ServeHTTP(w, r)] *)
Definition ServeHTTP (c : command) (d : Daemon)
    (w : Response.ResponseWriter) (r : Request)
  : list event * outcome Response.ResponseWriter :=
  match Run c d r with
  | (t, Returns rsp) => (t, Returns (Response.response_Write Marshal rsp w))
  | (t, Panics msg) => (t, Panics msg)
  end.

(** Credentials that [ConnPeerCred] hands out. *)
Definition identified (u : PeerCred.Ucred) : Prop :=
  PeerCred.Pid u <> 0 /\
  PeerCred.Uid u <> PeerCred.MaxUint32 /\
  PeerCred.Gid u <> PeerCred.MaxUint32.

(** The runs of the gateway, by what it found. *)
Inductive run_shape (c : command) (d : Daemon) (r : Request) : Prop :=
| shape_no_connection :
    Command.ctxConn _ r = None ->
    Run c d r = ([], Panics "no connection associated with request") ->
    run_shape c d r
| shape_no_credential conn err :
    Command.ctxConn _ r = Some conn ->
    PeerCred.ConnPeerCred conn = (None, Some err) ->
    Run c d r
    = ([Command.EvPeerCred conn;
        Command.EvNotice
          (Sprintf "unexpected error when attempting to obtain peer credentials: %v"
             [PeerCred.Error err])],
       Returns (Command.RespError (Command.mk_apiError 500 (PeerCred.Error err) ""))) ->
    run_shape c d r
| shape_refused conn u e :
    Command.ctxConn _ r = Some conn ->
    PeerCred.ConnPeerCred conn = (Some u, None) ->
    identified u ->
    Run c d r = ([Command.EvPeerCred conn], Returns (Command.RespError e)) ->
    (Command.Status e = 405 \/ Command.Status e = 500) ->
    run_shape c d r
| shape_checked conn u pre a h chk :
    Command.ctxConn _ r = Some conn ->
    PeerCred.ConnPeerCred conn = (Some u, None) ->
    identified u ->
    (pre = [Command.EvPeerCred conn] \/
     exists msg, pre = [Command.EvPeerCred conn; Command.EvNotice msg]) ->
    Command.select _ _ _ _ c (Command.Method _ r) = (Some h, Some chk) ->
    Run c d r
    = match chk d u a with
      | Some e => (pre ++ [Command.EvCheckAccess u a (Some e)],
                   Returns (Command.RespError e))
      | None => (pre ++ [Command.EvCheckAccess u a None;
                         Command.EvHandler (Command.Method _ r)],
                 Returns (h d r))
      end ->
    run_shape c d r.

Lemma ConnPeerCred_cases (conn : PeerCred.Conn) :
  (exists u, PeerCred.ConnPeerCred conn = (Some u, None) /\ identified u /\
             PeerCred.netutilConnPeerCred conn = inl u) \/
  (exists err, PeerCred.ConnPeerCred conn = (None, Some err) /\
               PeerCred.netutilConnPeerCred conn = inr (PeerCred.Error err)).
Proof.
  unfold PeerCred.netutilConnPeerCred, identified.
  destruct conn as [|err|[scErr|[ucred|err]]]; simpl;
    try (right; eexists; split; reflexivity).
  destruct (Z.eqb_spec (PeerCred.Pid ucred) 0) as [Hp|Hp]; simpl;
    [right; eexists; split; reflexivity|].
  destruct (Z.eqb_spec (PeerCred.Uid ucred) PeerCred.MaxUint32) as [Hu|Hu]; simpl;
    [right; eexists; split; reflexivity|].
  destruct (Z.eqb_spec (PeerCred.Gid ucred) PeerCred.MaxUint32) as [Hg|Hg]; simpl;
    [right; eexists; split; reflexivity|].
  left. exists ucred. auto.
Qed.

Lemma Run_shape (c : command) (d : Daemon) (r : Request) : run_shape c d r.
Proof.
  destruct (Command.ctxConn _ r) as [conn|] eqn:H1.
  2:{ apply shape_no_connection; [exact H1|].
      apply Command.Run_no_connection. exact H1. }
  destruct (ConnPeerCred_cases conn) as [(u & E & Hu & H2) | (err & E & H2)].
  2:{ eapply shape_no_credential; eauto.
      unfold Run. apply Command.Run_cred_error; assumption. }
  destruct (Command.select _ _ _ _ c (Command.Method _ r)) as [[h|] [chk|]] eqn:H3.
  - destruct (Command.Run_checked _ _ _ _ Sprintf AllowInteractionHeaderName _
                c d r conn u h chk H1 H2 H3) as (pre & a & Hpre & _ & Hrun).
    eapply shape_checked; eauto.
  - eapply shape_refused; eauto.
    + unfold Run. eapply Command.Run_no_checker; eauto.
    + right. reflexivity.
  - eapply shape_refused; eauto.
    + unfold Run. eapply Command.Run_no_handler; eauto. rewrite H3. reflexivity.
    + left. reflexivity.
  - eapply shape_refused; eauto.
    + unfold Run. eapply Command.Run_no_handler; eauto. rewrite H3. reflexivity.
    + left. reflexivity.
Qed.

(** X8.  Whoever an access checker is asked about is the peer of the request's
    connection as the kernel reported it, with a process id other than 0 and
    user and group ids other than 0xFFFFFFFF; and a handler runs only after a
    checker approved such a peer. *)
Theorem Run_checks_identified_peers (c : command) (d : Daemon) (r : Request) :
  (forall u a v, In (Command.EvCheckAccess u a v) (fst (Run c d r)) ->
     identified u /\
     Command.ctxConn _ r = Some (PeerCred.RawConn (PeerCred.ControlRuns (inl u)))) /\
  (forall verb, In (Command.EvHandler verb) (fst (Run c d r)) ->
     exists u a, identified u /\
                 In (Command.EvCheckAccess u a None) (fst (Run c d r))).
Proof.
  assert (Hconn : forall conn u, PeerCred.ConnPeerCred conn = (Some u, None) ->
                    conn = PeerCred.RawConn (PeerCred.ControlRuns (inl u))).
  { intros [|err|[scErr|[u'|err]]] u E; simpl in E; try discriminate E.
    destruct (_ || _) in E; [discriminate E | congruence]. }
  destruct (Run_shape c d r) as [H1 E | conn err H1 H2 E | conn u e H1 H2 Hu E Hs
                                | conn u pre a h chk H1 H2 Hu Hpre H3 E];
    rewrite E; simpl.
  - split; intros; contradiction.
  - split.
    + intros u a v [H|[H|[]]]; discriminate H.
    + intros verb [H|[H|[]]]; discriminate H.
  - split.
    + intros u' a v [H|[]]; discriminate H.
    + intros verb [H|[]]; discriminate H.
  - assert (Hpre' : forall x, In x pre ->
              (forall u' a' v, x <> Command.EvCheckAccess u' a' v) /\
              (forall verb, x <> Command.EvHandler verb)).
    { intros x Hx. destruct Hpre as [-> | (msg & ->)]; simpl in Hx;
        repeat (destruct Hx as [<-|Hx]; [split; intros; discriminate|]);
        contradiction. }
    destruct (chk d u a) as [e|]; simpl; split.
    + intros u' a' v Hi. apply in_app_or in Hi as [Hi|[Hi|[]]].
      * exfalso. exact (proj1 (Hpre' _ Hi) u' a' v eq_refl).
      * inversion Hi; subst. split; [exact Hu|]. rewrite H1. f_equal. auto.
    + intros verb Hi. apply in_app_or in Hi as [Hi|[Hi|[]]].
      * exfalso. exact (proj2 (Hpre' _ Hi) verb eq_refl).
      * discriminate Hi.
    + intros u' a' v Hi. apply in_app_or in Hi as [Hi|[Hi|[Hi|[]]]].
      * exfalso. exact (proj1 (Hpre' _ Hi) u' a' v eq_refl).
      * inversion Hi; subst. split; [exact Hu|]. rewrite H1. f_equal. auto.
      * discriminate Hi.
    + intros verb _. exists u, a. split; [exact Hu|].
      apply in_or_app. right. left. reflexivity.
Qed.

(** X9.  A request over a connection whose peer the kernel reports with process
    id 0, or with user or group id 0xFFFFFFFF, is answered with the internal
    error "connection has no peer credential"; no access checker and no
    handler runs for it. *)
Theorem Run_rejects_anonymous_peer
    (c : command) (d : Daemon) (r : Request) (u : PeerCred.Ucred) :
  Command.ctxConn _ r = Some (PeerCred.RawConn (PeerCred.ControlRuns (inl u))) ->
  ~ identified u ->
  snd (Run c d r)
  = Returns (Command.RespError
               (Command.mk_apiError 500 "connection has no peer credential" "")) /\
  Command.nothing_ran (fst (Run c d r)).
Proof.
  intros H1 Hu.
  assert (E : PeerCred.netutilConnPeerCred
                (PeerCred.RawConn (PeerCred.ControlRuns (inl u)))
              = inr "connection has no peer credential"%string).
  { unfold PeerCred.netutilConnPeerCred, PeerCred.ConnPeerCred.
    destruct (Z.eqb_spec (PeerCred.Pid u) 0) as [Hp|Hp]; [reflexivity|].
    destruct (Z.eqb_spec (PeerCred.Uid u) PeerCred.MaxUint32) as [Hi|Hi];
      [reflexivity|].
    destruct (Z.eqb_spec (PeerCred.Gid u) PeerCred.MaxUint32) as [Hg|Hg];
      [reflexivity|].
    exfalso. apply Hu. repeat split; assumption. }
  unfold Run. rewrite (Command.Run_cred_error _ _ _ _ _ _ _ c d r _ _ H1 E).
  split; reflexivity.
Qed.

(** X10.  What the dispatcher puts on the wire for an error of the gateway, on a
    writer that has sent nothing yet: the status of the error, or 500 when the
    error cannot be encoded, with a JSON content type and no location; the
    gateway's events are those of [Run]. *)
Theorem ServeHTTP_error_on_the_wire
    (c : command) (d : Daemon) (w : Response.ResponseWriter) (r : Request)
    (e : Command.apiError) :
  Response.Code w = None ->
  Response.Header w !! "Location"%string = None ->
  snd (Run c d r) = Returns (Command.RespError e) ->
  exists w',
    ServeHTTP c d w r = (fst (Run c d r), Returns w') /\
    Response.Header w' !! "Content-Type"%string = Some "application/json"%string /\
    Response.Header w' !! "Location"%string = None /\
    (Response.Code w' = Some (Command.Status e) \/
     Response.Code w' = Some 500 /\ Response.Body w' = Response.Body w) /\
    ((forall rsp, Marshal rsp <> None) ->
     Response.Code w' = Some (Command.Status e)).
Proof.
  intros Hc Hl E. unfold ServeHTTP.
  destruct (Run c d r) as [t o]. simpl in E. subst o. simpl.
  eexists. split; [reflexivity|].
  unfold Response.apiError_Write.
  set (rs := Response.mk_resp _ _ _ _).
  assert (Hh : Response.Header (Response.Write Marshal rs w)
               = <["Content-Type"%string := "application/json"%string]>
                   (Response.Header w)).
  { destruct (Response.mirrors_dec Marshal rs) as [(l & Hm & _) | (_ & H)];
      [|apply H].
    destruct Hm as (_ & m & Em & _). discriminate Em. }
  split; [rewrite Hh; apply lookup_insert_eq|].
  split; [rewrite Hh, lookup_insert_ne by discriminate; exact Hl|].
  unfold Response.Write, Response.Write_bytes, Response.WriteHeader.
  destruct (Marshal rs) as [b|] eqn:Eb; simpl; rewrite Hc; simpl.
  - split; [left; reflexivity | reflexivity].
  - split.
    + right. split; [reflexivity|].
      generalize (Response.Body w). intros body.
      induction body as [|a body IH]; [reflexivity|].
      change (String a (body +:+ "") = String a body). f_equal. exact IH.
    + intros Ht. exfalso. exact (Ht rs Eb).
Qed.

(** X11.  A request with a verb other than GET, PUT and POST from an identified
    peer is answered on the wire with status 405, whatever the command
    registers, and runs no checker and no handler. *)
Theorem ServeHTTP_method_not_allowed
    (c : command) (d : Daemon) (w : Response.ResponseWriter) (r : Request)
    (u : PeerCred.Ucred) (b : string) :
  Response.Code w = None ->
  Command.ctxConn _ r = Some (PeerCred.RawConn (PeerCred.ControlRuns (inl u))) ->
  identified u ->
  Command.Method _ r <> "GET"%string ->
  Command.Method _ r <> "PUT"%string ->
  Command.Method _ r <> "POST"%string ->
  Marshal (Response.mk_resp Response.responseTypeError 405
             (Response.ResultError
                (Response.mk_errorResult
                   (Sprintf "method %q not allowed" [Command.Method _ r]) ""))
             "") = Some b ->
  exists w',
    snd (ServeHTTP c d w r) = Returns w' /\
    Response.Code w' = Some 405 /\
    Response.Body w' = (Response.Body w +:+ b)%string /\
    Command.nothing_ran (fst (ServeHTTP c d w r)).
Proof.
  intros Hc H1 (Hp & Hu & Hg) Mg Mp Mo Hb.
  assert (E : PeerCred.netutilConnPeerCred
                (PeerCred.RawConn (PeerCred.ControlRuns (inl u))) = inl u).
  { apply PeerCred.ConnPeerCred_passes_credentials; assumption. }
  assert (Hs : fst (Command.select _ _ _ _ c (Command.Method _ r)) = None).
  { rewrite Command.select_other_verb by assumption. reflexivity. }
  unfold ServeHTTP, Run.
  rewrite (Command.Run_no_handler _ _ _ _ _ _ _ c d r _ u H1 E Hs).
  eexists. split; [reflexivity|].
  unfold Response.response_Write, Response.apiError_Write, Response.Write.
  unfold Command.statusMethodNotAllowed, Command.makeErrorResponder.
  cbn [Command.Status Command.Message Command.Kind].
  rewrite Hb. unfold Response.Write_bytes, Response.WriteHeader. simpl.
  rewrite Hc. simpl. repeat split.
Qed.

End ServeHTTP.

(** ** A concrete wiring *)

(** A command with a handler and checkers for GET only. *)
Definition testCommand : command unit :=
  Command.mk_command unit PeerCred.Conn PeerCred.Ucred Response.resp
    (Some (fun _ _ => Command.RespOther (Response.syncResponse (Response.ResultOther 0))))
    None None
    (Some (fun _ _ _ => None)) None.

Definition testRequest (method : string) (u : PeerCred.Ucred) : Request :=
  Command.mk_Request PeerCred.Conn method
    (Some (PeerCred.RawConn (PeerCred.ControlRuns (inl u)))) "".

Definition testServe (method : string) (u : PeerCred.Ucred)
  : list event * outcome Response.ResponseWriter :=
  ServeHTTP unit Command.testSprintf "X-Allow-Interaction" Response.testMarshal
    testCommand tt (Response.mk_ResponseWriter ∅ None "") (testRequest method u).

(** TestCommandMethodDispatchGet, through the dispatcher. *)
Example TestDispatchGet :
  exists w',
    testServe "GET" (PeerCred.mk_Ucred 100 1001 1001)
    = ([Command.EvPeerCred
          (PeerCred.RawConn (PeerCred.ControlRuns (inl (PeerCred.mk_Ucred 100 1001 1001))));
        Command.EvCheckAccess (PeerCred.mk_Ucred 100 1001 1001) false None;
        Command.EvHandler "GET"],
       Returns w') /\
    Response.Code w' = Some 200 /\ Response.Body w' = "{}"%string.
Proof. eexists. split; [reflexivity|]. split; reflexivity. Qed.

Lemma Run_rejects_anonymous_peer_witness :
  snd (Run unit Command.testSprintf "X-Allow-Interaction" testCommand tt
         (testRequest "GET" (PeerCred.mk_Ucred 0 1001 1001)))
  = Returns (Command.RespError
               (Command.mk_apiError 500 "connection has no peer credential" "")) /\
  Command.nothing_ran
    (fst (Run unit Command.testSprintf "X-Allow-Interaction" testCommand tt
            (testRequest "GET" (PeerCred.mk_Ucred 0 1001 1001)))).
Proof.
  apply (Run_rejects_anonymous_peer unit Command.testSprintf "X-Allow-Interaction"
           testCommand tt (testRequest "GET" (PeerCred.mk_Ucred 0 1001 1001))
           (PeerCred.mk_Ucred 0 1001 1001) eq_refl).
  intros (H & _). apply H. reflexivity.
Defined.

Lemma ServeHTTP_error_on_the_wire_witness :
  exists w',
    testServe "GET" (PeerCred.mk_Ucred 100 1001 4294967295)
    = (fst (Run unit Command.testSprintf "X-Allow-Interaction" testCommand tt
              (testRequest "GET" (PeerCred.mk_Ucred 100 1001 4294967295))),
       Returns w') /\
    Response.Code w' = Some 500.
Proof.
  destruct (ServeHTTP_error_on_the_wire unit Command.testSprintf
              "X-Allow-Interaction" Response.testMarshal testCommand tt
              (Response.mk_ResponseWriter ∅ None "")
              (testRequest "GET" (PeerCred.mk_Ucred 100 1001 4294967295))
              (Command.mk_apiError 500 "connection has no peer credential" "")
              eq_refl (lookup_empty _) eq_refl)
    as (w' & E & _ & _ & _ & Hc).
  exists w'. split; [exact E|]. apply Hc. discriminate.
Defined.

Lemma ServeHTTP_method_not_allowed_witness :
  exists w',
    snd (testServe "DELETE" (PeerCred.mk_Ucred 100 1001 1001)) = Returns w' /\
    Response.Code w' = Some 405.
Proof.
  destruct (ServeHTTP_method_not_allowed unit Command.testSprintf
              "X-Allow-Interaction" Response.testMarshal testCommand tt
              (Response.mk_ResponseWriter ∅ None "")
              (testRequest "DELETE" (PeerCred.mk_Ucred 100 1001 1001))
              (PeerCred.mk_Ucred 100 1001 1001) "{}"%string eq_refl eq_refl)
    as (w' & E & Hc & _); try discriminate; try reflexivity.
  - repeat split; discriminate.
  - exists w'. split; [exact E | exact Hc].
Defined.

End Dispatcher.

(* ===================================================================== *)
(** * The scheduler: standby, the loop's passes and settling *)
(* ===================================================================== *)

Module Scheduler.

Import Go.
Import Overlord.
Local Open Scope Z_scope.

(** [ensureDidRun] *)
Definition ensureDidRun (o : Overlord) : Overlord :=
  mk_Overlord (stateFLock o) (loopTomb o) (ensureTimer o) (ensureNext o)
              true (didPrune o) (trace o).

(** [func (o *Overlord) CanStandby() bool] *)
Definition CanStandby (o : Overlord) : bool := ensureRun o.

(** [mockBackend.EnsureBefore], at clock [now]. *)
Definition mockBackend_EnsureBefore (now d : Z) (o : Overlord) : outcome Overlord :=
  match ensureTimer o with
  | None => Returns o
  | Some _ => ensureBefore now d o
  end.

(** A pass of [settle] that meets no [EnsureBefore] call and no change that
    is ready but not clean. *)
Definition quiet (c : cycle) : Prop :=
  requests c = [] /\
  forall ch, In ch (changes c) -> fst ch = true -> snd ch = true.

Section Passes.

Variable ensureInterval : Z.

(** The pass of index [n] ends the loop of [settle], whatever state it
    starts from. *)
Definition done_at (env : nat -> cycle) (n : nat) : Prop :=
  forall o errs o' errs' done,
    settle_body ensureInterval (env n) o errs = Returns (o', errs', done) ->
    done = true.

Lemma ensureBefore_keeps (now d : Z) (o o' : Overlord) :
  ensureBefore now d o = Returns o' ->
  ensureRun o' = ensureRun o /\ trace o' = trace o /\ didPrune o' = didPrune o /\
  ensureTimer o' <> None.
Proof.
  unfold ensureBefore. destruct (ensureTimer o) as [t|] eqn:Ht; [|discriminate].
  destruct (now + d <? ensureNext o).
  - intros H; inversion H; subst; simpl. repeat split; discriminate.
  - destruct (ensureNext o <? now).
    + simpl. destruct (active t); simpl; intros H; inversion H; subst; simpl;
        repeat split; discriminate.
    + intros H; inversion H; subst. repeat split. congruence.
Qed.

Lemma ensureBefore_all_keeps (calls : list (Z * Z)) :
  forall o o', ensureBefore_all calls o = Returns o' ->
    ensureRun o' = ensureRun o /\ trace o' = trace o /\ didPrune o' = didPrune o.
Proof.
  induction calls as [|[now d] calls IH]; intros o o' H; simpl in H.
  - inversion H; subst. auto.
  - destruct (ensureBefore now d o) as [o1|] eqn:E; [|discriminate].
    destruct (ensureBefore_keeps _ _ _ _ E) as (R1 & T1 & P1 & _).
    destruct (IH _ _ H) as (R2 & T2 & P2).
    repeat split; congruence.
Qed.

Lemma loop_cycle_returns (now : Z) (calls : list (Z * Z)) (o : Overlord) :
  ensureTimer o <> None ->
  exists o2,
    ensureBefore_all calls
      (with_event (with_schedule o (option_map (Timer_Reset now ensureInterval)
                                      (ensureTimer o))
                     (now + ensureInterval)) EvEnsure) = Returns o2 /\
    loop_cycle ensureInterval now calls o = Returns (ensureDidRun o2).
Proof.
  intros Ht. unfold loop_cycle, ensureTimerReset.
  destruct (ensureTimer o) as [t|] eqn:E; [|congruence]. simpl option_map.
  match goal with
  | |- context [ensureBefore_all ?c ?x] =>
      destruct (ensureBefore_all_returns c x) as (o2 & E2 & _);
      [simpl; discriminate|]
  end.
  exists o2. split; [exact E2|]. rewrite E2. reflexivity.
Qed.

(** X12.  The overlord agrees to standby exactly when an ensure pass of [Loop]
    has completed: not when it is constructed, and not because [Loop] was
    started, a prune pass ran, the timer fired or [EnsureBefore] was
    called. *)
Theorem CanStandby_after_first_ensure (o : Overlord) :
  reachable ensureInterval o ->
  (CanStandby o = true <-> In EvEnsure (trace o)).
Proof.
  unfold CanStandby.
  induction 1 as [| |o o' Hr IH Hs].
  - simpl. split; [discriminate | contradiction].
  - simpl. split; [discriminate | contradiction].
  - destruct Hs as [now o | now calls o o' Hc | o | now d o o' Hb | t o Ht].
    + exact IH.
    + destruct (loop_cycle_trace _ _ _ _ _ Hc) as (Htr & _).
      assert (Hrun : ensureRun o' = true).
      { unfold loop_cycle in Hc.
        destruct (ensureTimerReset ensureInterval now o) as [[o1 next]|];
          [|discriminate].
        destruct (ensureBefore_all calls (with_event o1 EvEnsure)) as [o2|];
          [|discriminate].
        inversion Hc; subst. reflexivity. }
      rewrite Hrun, Htr. split; [|reflexivity].
      intros _. apply in_or_app. right. left. reflexivity.
    + simpl. rewrite IH. split.
      * intros Hin. apply in_or_app. now left.
      * intros Hin. apply in_app_or in Hin. destruct Hin as [Hin|Hin];
          [exact Hin|].
        destruct Hin as [Hin|Hin]; [discriminate Hin | contradiction].
    + destruct (ensureBefore_keeps _ _ _ _ Hb) as (-> & -> & _). exact IH.
    + exact IH.
Qed.

(** X13.  One pass of the loop, started at clock [now] while [EnsureBefore] calls
    with durations that are not negative come in: the pass completes, runs one
    ensure, and leaves the deadline no later than one interval after [now] and
    no later than any deadline asked for, unless a call found the deadline
    elapsed, and then no later than the clock of that call. *)
Theorem loop_cycle_deadline (now : Z) (calls : list (Z * Z)) (o : Overlord) :
  ensureTimer o <> None ->
  Forall (fun c => 0 <= snd c) calls ->
  exists o',
    loop_cycle ensureInterval now calls o = Returns o' /\
    trace o' = trace o ++ [EvEnsure] /\
    CanStandby o' = true /\
    ((ensureNext o' <= now + ensureInterval /\
      forall c, In c calls -> ensureNext o' <= fst c + snd c) \/
     exists c, In c calls /\ ensureNext o' <= fst c) /\
    (Forall (fun c => fst c <= earliest calls (now + ensureInterval)) calls ->
     ensureNext o' = earliest calls (now + ensureInterval)).
Proof.
  intros Ht Hd.
  destruct (loop_cycle_returns now calls o Ht) as (o2 & E2 & Hc).
  exists (ensureDidRun o2). split; [exact Hc|].
  destruct (ensureBefore_all_keeps _ _ _ E2) as (_ & Htr & _).
  split; [simpl; rewrite Htr; reflexivity|].
  split; [reflexivity|].
  assert (Hle : forall l next c, In c l -> earliest l next <= fst c + snd c).
  { induction l as [|x l IHl]; intros next c Hin; [destruct Hin|].
    destruct Hin as [<-|Hin].
    - unfold earliest. simpl.
      pose proof (earliest_le l (Z.min next (fst x + snd x))) as L.
      unfold earliest in L. lia.
    - unfold earliest. simpl. apply (IHl (Z.min next (fst x + snd x)) c Hin). }
  split.
  - destruct (ensureBefore_all_bound _ _ _ Hd E2) as [L | (c & Hin & L)].
    + left. simpl in L. simpl. split.
      * pose proof (earliest_le calls (now + ensureInterval)). lia.
      * intros c Hin. pose proof (Hle calls (now + ensureInterval) c Hin). lia.
    + right. exists c. split; [exact Hin | exact L].
  - intros Hn. simpl.
    apply ensureBefore_all_earliest in E2; [exact E2 | exact Hd | exact Hn].
Qed.

(** X14.  The mock backend's [EnsureBefore] never panics: before [Loop] or
    [Settle] has set a timer it does nothing, where the overlord's own
    [ensureBefore] panics, and afterwards it is [ensureBefore]; it records no
    event and leaves the standby opinion alone. *)
Theorem mockBackend_EnsureBefore_never_panics (now d : Z) (o : Overlord) :
  exists o',
    mockBackend_EnsureBefore now d o = Returns o' /\
    trace o' = trace o /\ CanStandby o' = CanStandby o /\
    (ensureTimer o = None <-> exists msg, ensureBefore now d o = Panics msg) /\
    (ensureTimer o = None -> o' = o) /\
    (ensureTimer o <> None -> ensureBefore now d o = Returns o').
Proof.
  unfold mockBackend_EnsureBefore, CanStandby.
  destruct (ensureTimer o) as [t|] eqn:Ht.
  - destruct (ensureBefore_returns now d o t Ht) as (o' & E & _).
    destruct (ensureBefore_keeps _ _ _ _ E) as (R & T & _).
    exists o'. split; [exact E|]. split; [exact T|]. split; [exact R|].
    split; [|split; [discriminate | intros _; exact E]].
    split; [discriminate|].
    intros (msg & Hp). rewrite E in Hp. discriminate Hp.
  - exists o. split; [reflexivity|]. split; [reflexivity|]. split; [reflexivity|].
    split; [|split; [reflexivity | congruence]].
    split; [|reflexivity].
    intros _. unfold ensureBefore. rewrite Ht. eexists. reflexivity.
Qed.

(** ** Settling *)

(** What [settle] returns once its loop has ended. *)
Definition settled_error (errs : list error) : option error :=
  match errs with
  | [] => None
  | _ => Some (ErrEnsure errs)
  end.

Lemma settle_body_pass (c : cycle) (o : Overlord) (errs : list error) :
  ensureTimer o <> None ->
  exists o' done,
    settle_body ensureInterval c o errs
    = Returns (o', collect errs (ensureErr c), done) /\
    ensureTimer o' <> None /\ trace o' = trace o ++ [EvEnsure] /\
    ensureRun o' = ensureRun o /\ didPrune o' = didPrune o.
Proof.
  intros Ht. unfold settle_body, ensureTimerReset.
  destruct (ensureTimer o) as [t|] eqn:E; [|congruence].
  match goal with
  | |- context [ensureBefore_all ?c ?x] =>
      destruct (ensureBefore_all_returns c x) as (o2 & E2 & Ht2 & _);
      [simpl; discriminate|];
      destruct (ensureBefore_all_keeps _ _ _ E2) as (R & T & P);
      rewrite E2
  end.
  eexists _, _. split; [reflexivity|]. simpl in R, T, P. auto.
Qed.

Lemma quiet_done_at (env : nat -> cycle) (n : nat) :
  quiet (env n) -> done_at env n.
Proof.
  intros (Hq & Hc) o errs o' errs' done. unfold settle_body, ensureTimerReset.
  destruct (ensureTimer o) as [t|]; [|discriminate].
  rewrite Hq. simpl. rewrite Z.eqb_refl. intros H. inversion H; subst.
  apply negb_true_iff. apply not_true_is_false. intros Hex.
  apply existsb_exists in Hex as ([ready clean] & Hin & Hb).
  apply andb_true_iff in Hb as (Hr & Hn). simpl in Hr, Hn.
  pose proof (Hc _ Hin Hr) as Hcl. simpl in Hcl. subst clean. discriminate Hn.
Qed.

Lemma settle_loop_converges (timeout t0 : Z) (env : nat -> cycle) (n : nat) :
  (forall i, (i <= n)%nat -> timeout <= 0 \/ tcheck (env i) - t0 <= timeout) ->
  never_done ensureInterval env n ->
  done_at env n ->
  forall k i o fuel, (i + k = n)%nat -> (k < fuel)%nat ->
    ensureTimer o <> None ->
    exists o',
      settle_loop ensureInterval fuel timeout t0 env i o (cycle_errors env i)
      = Some (Returns (o', settled_error (cycle_errors env (S n)))) /\
      trace o' = trace o ++ List.repeat EvEnsure (S k) /\
      ensureRun o' = ensureRun o /\ didPrune o' = didPrune o.
Proof.
  intros Htime Hnd Hdone.
  induction k as [|k IH]; intros i o fuel Hik Hf Ht;
    (destruct fuel as [|fuel]; [lia|]); cbn [settle_loop].
  - assert (i = n) by lia. subst i.
    assert (Hno : (0 <? timeout) && (timeout <? tcheck (env n) - t0) = false).
    { destruct (Htime n (Nat.le_refl n)) as [H|H].
      - destruct (Z.ltb_spec 0 timeout); [lia | reflexivity].
      - destruct (Z.ltb_spec timeout (tcheck (env n) - t0)); [lia|].
        apply andb_false_r. }
    rewrite Hno.
    destruct (settle_body_pass (env n) o (cycle_errors env n) Ht)
      as (o1 & done & E & _ & Htr & Hr & Hp).
    rewrite E. rewrite (Hdone _ _ _ _ _ E).
    exists o1. split; [reflexivity|]. auto.
  - assert (Hi : (i < n)%nat) by lia.
    assert (Hno : (0 <? timeout) && (timeout <? tcheck (env i) - t0) = false).
    { destruct (Htime i) as [H|H]; [lia | |].
      - destruct (Z.ltb_spec 0 timeout); [lia | reflexivity].
      - destruct (Z.ltb_spec timeout (tcheck (env i) - t0)); [lia|].
        apply andb_false_r. }
    rewrite Hno.
    destruct (settle_body_pass (env i) o (cycle_errors env i) Ht)
      as (o1 & done & E & Ht1 & Htr & Hr & Hp).
    rewrite E. rewrite (Hnd _ _ _ _ _ _ Hi E).
    change (collect (cycle_errors env i) (ensureErr (env i)))
      with (cycle_errors env (S i)).
    destruct (IH (S i) o1 fuel) as (o' & E' & Htr' & Hr' & Hp');
      [lia | lia | exact Ht1 |].
    exists o'. split; [exact E'|].
    split; [|split; congruence].
    rewrite Htr', Htr, <- app_assoc. reflexivity.
Qed.

(** X15.  When the pass of index [n] is the first that finds no further ensure
    scheduled and no ready change left unclean, and the timeout has not
    elapsed at the top of any pass up to it, [Settle] returns after exactly
    [n + 1] ensure passes: nil when no pass reported an error, and otherwise
    the errors of all passes in one composite error.  It leaves no timer
    behind, so that it may be called again, and it gives no standby opinion
    and runs no prune pass. *)
Theorem Settle_converges
    (timeout t0 : Z) (env : nat -> cycle) (n : nat) (o : Overlord) :
  ensureTimer o = None ->
  (forall i, (i <= n)%nat -> timeout <= 0 \/ tcheck (env i) - t0 <= timeout) ->
  never_done ensureInterval env n ->
  done_at env n ->
  forall fuel, (n < fuel)%nat ->
    exists o',
      Settle ensureInterval fuel timeout t0 env o
      = Some (Returns (o', settled_error (cycle_errors env (S n)))) /\
      (settled_error (cycle_errors env (S n)) = None <->
       forall i, (i <= n)%nat -> ensureErr (env i) = None \/
                                 ensureErr (env i) = Some (ErrEnsure [])) /\
      ensureTimer o' = None /\
      trace o' = trace o ++ List.repeat EvEnsure (S n) /\
      CanStandby o' = CanStandby o /\ didPrune o' = didPrune o.
Proof.
  intros Ht Htime Hnd Hdone fuel Hf. unfold Settle, settle. rewrite Ht.
  destruct (settle_loop_converges timeout t0 env n Htime Hnd Hdone
              n 0%nat (with_schedule o (Some (NewTimer t0 0)) (ensureNext o))
              fuel) as (o' & E & Htr & Hr & Hp);
    [lia | exact Hf | simpl; discriminate |].
  change (cycle_errors env 0) with (@nil error) in E. rewrite E.
  eexists. split; [reflexivity|].
  split; [|simpl; unfold CanStandby; auto].
  clear. unfold settled_error.
  assert (Hnil : forall m, cycle_errors env m = [] <->
                   forall i, (i < m)%nat ->
                     ensureErr (env i) = None \/
                     ensureErr (env i) = Some (ErrEnsure [])).
  { induction m as [|m IH]; simpl.
    - split; [intros _ i Hi; lia | reflexivity].
    - split.
      + intros Hc i Hi.
        assert (Hm : cycle_errors env m = [] /\
                     (ensureErr (env m) = None \/
                      ensureErr (env m) = Some (ErrEnsure []))).
        { unfold collect in Hc.
          destruct (ensureErr (env m)) as [[|l|msg]|].
          - destruct (cycle_errors env m); discriminate Hc.
          - apply app_eq_nil in Hc as (-> & ->). auto.
          - destruct (cycle_errors env m); discriminate Hc.
          - auto. }
        destruct Hm as (Hm & He).
        destruct (Nat.eq_dec i m) as [->|Hne]; [exact He|].
        apply (proj1 IH Hm). lia.
      + intros Hall.
        assert (Hm : cycle_errors env m = []).
        { apply IH. intros i Hi. apply Hall. lia. }
        rewrite Hm. destruct (Hall m) as [-> | ->]; [lia | reflexivity..]. }
  destruct (cycle_errors env (S n)) as [|e l] eqn:Ec.
  - split; [|reflexivity]. intros _ i Hi. apply (proj1 (Hnil (S n)) Ec). lia.
  - split; [discriminate|]. intros Hall. exfalso.
    assert (Hn' : cycle_errors env (S n) = []).
    { apply Hnil. intros i Hi. apply Hall. lia. }
    congruence.
Qed.

End Passes.

(** ** The scenarios of the overlord's tests *)

(** TestOverlordCanStandby: no standby before the first ensure pass of the
    loop. *)
Lemma CanStandby_after_first_ensure_witness :
  (CanStandby (ensureTimerSetup 300 0 Mock) = true <->
   In EvEnsure (trace (ensureTimerSetup 300 0 Mock))) /\
  CanStandby (ensureTimerSetup 300 0 Mock) = false.
Proof.
  split; [|reflexivity].
  apply (CanStandby_after_first_ensure 300).
  apply (reachable_step 300 Mock); [apply reachable_Mock | apply step_Loop].
Defined.

(** TestEnsureLoopMediatedEnsureBefore: the interval is ten minutes and a
    handler asks for an ensure in ten milliseconds. *)
Lemma loop_cycle_deadline_witness :
  exists o',
    loop_cycle 600000 0 [(5, 10)] (ensureTimerSetup 600000 0 Mock) = Returns o' /\
    ensureNext o' = 15.
Proof.
  destruct (loop_cycle_deadline 600000 0 [(5, 10)] (ensureTimerSetup 600000 0 Mock))
    as (o' & E & _ & _ & _ & Hn).
  - discriminate.
  - repeat constructor. simpl. lia.
  - exists o'. split; [exact E|]. apply Hn.
    repeat constructor. vm_compute. discriminate.
Defined.

(** TestTrivialSettle: one pass, nothing to do. *)
Definition trivial (i : nat) : cycle := mk_cycle 0 0 [] None [].

Lemma Settle_converges_witness :
  exists o',
    Settle 300000 1 5000 0 trivial Mock = Some (Returns (o', None)) /\
    ensureTimer o' = None /\ trace o' = [EvEnsure].
Proof.
  destruct (Settle_converges 300000 5000 0 trivial 0 Mock eq_refl)
    with (fuel := 1%nat) as (o' & E & _ & Ht & Htr & _).
  - intros i _. right. simpl. lia.
  - intros i o errs o' errs' done Hi. lia.
  - apply quiet_done_at. split; [reflexivity | intros ch []].
  - lia.
  - exists o'. split; [exact E|]. split; [exact Ht | exact Htr].
Defined.

End Scheduler.

(* ===================================================================== *)
(** * The listening socket *)
(* ===================================================================== *)

Module SocketListener.

Local Open Scope Z_scope.

Inductive error : Type :=
| ErrInUse (path : string)   (* fmt.Errorf("socket %q is already in use", path) *)
| ErrNotExist                (* an error for which [os.IsNotExist] holds *)
| OSError (msg : string).

(** A [net.Listener]: a [*net.UnixListener] or another one, with the text
    of its address. *)
Inductive Listener : Type :=
| UnixListener (addr : string)
| OtherListener (addr : string).

Definition Addr (l : Listener) : string :=
  match l with UnixListener a | OtherListener a => a end.

(** A file passed by systemd, with what [net.FileListener] makes of it. *)
Record File : Type := mk_File {
  FileListener : Listener + error
}.

(** The operating system, as [GetUnixSocketListener] meets it. *)
Record OS : Type := mk_OS {
  Dial : string -> bool;                     (* [net.Dial] succeeds *)
  Remove : string -> option error;           (* [os.Remove] *)
  ResolveUnixAddr : string -> string + error;
  ListenUnix : string -> string + error      (* the address bound *)
}.

Inductive event : Type :=
| EvDial (path : string)
| EvConnClose
| EvRemove (path : string)
| EvLockOSThread
| EvUmask (mask : Z)
| EvListenUnix (address : string) (mask : Z)   (* with the umask in effect *)
| EvUnlockOSThread.

(** The process: its umask and what it did. *)
Record Process : Type := mk_Process {
  umask : Z;
  trace : list event
}.

Definition emit (e : event) (p : Process) : Process :=
  mk_Process (umask p) (trace p ++ [e]).

(** [unix.Umask(mask)]: sets the mask and returns the old one. *)
Definition Umask (mask : Z) (p : Process) : Z * Process :=
  (umask p, mk_Process mask (trace p ++ [EvUmask mask])).

Definition IsNotExist (e : error) : bool :=
  match e with ErrNotExist => true | _ => false end.

(** The loop over [activation.Files]. *)
Fixpoint passed (files : list File) (path : string) : option Listener :=
  match files with
  | [] => None
  | f :: rest =>
      match FileListener f with
      | inr _ => passed rest path           (* skip non stream sockets *)
      | inl (OtherListener _) => passed rest path   (* skip non unix domain sockets *)
      | inl (UnixListener a) =>
          if String.eqb a path then Some (UnixListener a) else passed rest path
      end
  end.

(** The part of [GetUnixSocketListener] that binds the socket, with the
    umask set to 0111 for the call of [net.ListenUnix] and the thread locked
    meanwhile. *)
Definition listen (os : OS) (address : string) (p : Process)
  : (string + error) * Process :=
  let p := emit EvLockOSThread p in
  let (oldmask, p) := Umask 73 p in     (* 0111 *)
  let p := emit (EvListenUnix address (umask p)) p in
  let r := ListenUnix os address in
  let (_, p) := Umask oldmask p in
  let p := emit EvUnlockOSThread p in
  (r, p).

(** [GetUnixSocketListener] *)
Definition GetUnixSocketListener (os : OS) (files : list File) (path : string)
    (p : Process) : (option Listener * bool * option error) * Process :=
  match passed files path with
  | Some listener =>
      (* the socket was already opened for us by systemd *)
      ((Some listener, true, None), p)
  | None =>
      (* We need to create and open the socket ourselves. *)
      let p := emit (EvDial path) p in
      if Dial os path then
        ((None, false, Some (ErrInUse path)), emit EvConnClose p)
      else
        let p := emit (EvRemove path) p in
        let err := Remove os path in
        if match err with Some e => negb (IsNotExist e) | None => false end
        then ((None, false, err), p)
        else
          match ResolveUnixAddr os path with
          | inr err => ((None, false, Some err), p)
          | inl address =>
              match listen os address p with
              | (inr err, p) => ((None, false, Some err), p)
              | (inl a, p) => ((Some (UnixListener a), false, None), p)
              end
          end
  end.

Definition listener_of (r : (option Listener * bool * option error) * Process) :=
  fst (fst (fst r)).
Definition activated_of (r : (option Listener * bool * option error) * Process) :=
  snd (fst (fst r)).
Definition err_of (r : (option Listener * bool * option error) * Process) :=
  snd (fst r).

Definition is_bind (e : event) : bool :=
  match e with EvListenUnix _ _ => true | _ => false end.


(** TestGetUnixSocketListener, not activated: the stale socket file is
    removed and the socket is bound with the umask 0111, which is then put
    back. *)
Example TestGetUnixSocketListenerNotActivated :
  GetUnixSocketListener
    (mk_OS (fun _ => false) (fun _ => None) (fun p => inl p) (fun a => inl a))
    [] "/run/fdemanager.socket" (mk_Process 18 [])
  = ((Some (UnixListener "/run/fdemanager.socket"), false, None),
     mk_Process 18
       [EvDial "/run/fdemanager.socket"; EvRemove "/run/fdemanager.socket";
        EvLockOSThread; EvUmask 73;
        EvListenUnix "/run/fdemanager.socket" 73;
        EvUmask 18; EvUnlockOSThread]).
Proof. reflexivity. Qed.

Lemma passed_Some (files : list File) (path : string) (l : Listener) :
  passed files path = Some l ->
  l = UnixListener path /\ In (mk_File (inl (UnixListener path))) files.
Proof.
  induction files as [|[[[a|a]|e]] rest IH]; simpl; intros H;
    try discriminate H; try (destruct (IH H) as (-> & Hin); auto).
  destruct (String.eqb_spec a path) as [->|Hne].
  - inversion H; subst. auto.
  - destruct (IH H) as (-> & Hin); auto.
Qed.

Lemma passed_None (files : list File) (path : string) :
  passed files path = None -> ~ In (mk_File (inl (UnixListener path))) files.
Proof.
  induction files as [|[[[a|a]|e]] rest IH]; simpl; intros H Hin;
    [contradiction | | |];
    destruct Hin as [Hin|Hin];
    try discriminate Hin; try (apply (IH H Hin)).
  - inversion Hin; subst. rewrite String.eqb_refl in H. discriminate H.
  - destruct (String.eqb a path); [discriminate H | apply (IH H Hin)].
Qed.

(** The shapes of a result. *)
Lemma GetUnixSocketListener_shape
    (os : OS) (files : list File) (path : string) (p : Process) :
  umask (snd (GetUnixSocketListener os files path p)) = umask p /\
  ((exists a activated,
      fst (GetUnixSocketListener os files path p)
      = (Some (UnixListener a), activated, None) /\
      (activated = true <-> In (mk_File (inl (UnixListener path))) files)) \/
   (exists e,
      fst (GetUnixSocketListener os files path p) = (None, false, Some e))).
Proof.
  unfold GetUnixSocketListener, listen.
  destruct (passed files path) as [l|] eqn:Ep.
  - destruct (passed_Some _ _ _ Ep) as (-> & Hin). simpl.
    split; [reflexivity|]. left. exists path, true. split; [reflexivity|].
    split; auto.
  - pose proof (passed_None _ _ Ep) as Hn.
    destruct (Dial os path); simpl; [split; [reflexivity | right; eauto]|].
    destruct (Remove os path) as [[pth| |msg]|]; simpl;
      try (split; [reflexivity | right; eauto]).
    all: destruct (ResolveUnixAddr os path) as [address|e]; simpl;
      try (split; [reflexivity | right; eauto]).
    all: destruct (ListenUnix os address) as [a|e]; simpl;
      (split; [reflexivity|]);
      try (right; eauto; fail);
      left; exists a, false; (split; [reflexivity|]);
      (split; [discriminate | contradiction]).
Qed.

(** X16.  The daemon counts as socket activated exactly when systemd passed a
    unix stream socket with the requested address; that socket is then the
    listener, and nothing is dialled, removed or bound, nor the umask
    touched. *)
Theorem GetUnixSocketListener_activated
    (os : OS) (files : list File) (path : string) (p : Process) :
  (activated_of (GetUnixSocketListener os files path p) = true <->
   In (mk_File (inl (UnixListener path))) files) /\
  (activated_of (GetUnixSocketListener os files path p) = true ->
   GetUnixSocketListener os files path p
   = ((Some (UnixListener path), true, None), p)).
Proof.
  unfold GetUnixSocketListener, activated_of, listen.
  destruct (passed files path) as [l|] eqn:Ep.
  - destruct (passed_Some _ _ _ Ep) as (-> & Hin). simpl.
    split; [split; auto | reflexivity].
  - pose proof (passed_None _ _ Ep) as Hn.
    destruct (Dial os path); simpl.
    { split; [split; [discriminate | contradiction] | discriminate]. }
    destruct (match Remove os path with
              | Some e => negb (IsNotExist e) | None => false end); simpl.
    { split; [split; [discriminate | contradiction] | discriminate]. }
    destruct (ResolveUnixAddr os path) as [address|e]; simpl.
    2:{ split; [split; [discriminate | contradiction] | discriminate]. }
    destruct (ListenUnix os address); simpl;
      (split; [split; [discriminate | contradiction] | discriminate]).
Qed.

(** X17.  [GetUnixSocketListener] returns a unix listener or an error, never
    both and never neither, and an error never comes with the activation
    flag.  Whatever it returns, the umask is afterwards what it was before,
    and a bind happened only under the umask 0111. *)
Theorem GetUnixSocketListener_result
    (os : OS) (files : list File) (path : string) (p : Process) :
  let r := GetUnixSocketListener os files path p in
  ((exists a, listener_of r = Some (UnixListener a) /\ err_of r = None) \/
   (exists e, listener_of r = None /\ err_of r = Some e /\
              activated_of r = false)) /\
  umask (snd r) = umask p /\
  exists t, trace (snd r) = trace p ++ t /\
    forall address mask, In (EvListenUnix address mask) t ->
      mask = 73 /\ ResolveUnixAddr os path = inl address.
Proof.
  unfold GetUnixSocketListener, listener_of, err_of, activated_of, listen.
  cbv zeta.
  destruct (passed files path) as [l|] eqn:Ep.
  - destruct (passed_Some _ _ _ Ep) as (-> & _). simpl.
    split; [left; eauto|]. split; [reflexivity|].
    exists []. split; [now rewrite app_nil_r | intros ? ? []].
  - destruct (Dial os path); simpl.
    { split; [right; eauto|]. split; [reflexivity|].
      eexists. rewrite <- app_assoc. split; [reflexivity|].
      simpl. intros ? ? [H|[H|[]]]; discriminate H. }
    destruct (Remove os path) as [[pth| |msg]|] eqn:Er; simpl;
      try (split; [right; eauto|]; split; [reflexivity|];
           eexists; split; [rewrite <- app_assoc; reflexivity|];
           simpl; intros ? ? [H|[H|[]]]; discriminate H).
    all: destruct (ResolveUnixAddr os path) as [address|e] eqn:Ea; simpl;
      try (split; [right; eauto|]; split; [reflexivity|];
           eexists; split; [rewrite <- app_assoc; reflexivity|];
           simpl; intros ? ? [H|[H|[]]]; discriminate H).
    all: destruct (ListenUnix os address) as [a|e]; simpl;
      (split; [first [left; eauto; fail | right; eauto]|];
       split; [reflexivity|];
       eexists; split; [rewrite <- !app_assoc; reflexivity|];
       simpl; intros address' mask Hin;
       repeat (destruct Hin as [Hin|Hin]; [try discriminate Hin|]);
       try contradiction;
       inversion Hin; subst; auto).
Qed.

(** X18.  A socket that another process is serving is left alone: when no passed
    socket matches and a dial of the path succeeds, the call fails with
    "already in use" and neither removes the socket file nor binds.  A socket
    file that cannot be removed, for another reason than its absence, is not
    bound either, and the error of the removal is returned. *)
Theorem GetUnixSocketListener_leaves_live_socket
    (os : OS) (files : list File) (path : string) (p : Process) :
  ~ In (mk_File (inl (UnixListener path))) files ->
  let r := GetUnixSocketListener os files path p in
  (Dial os path = true ->
     fst r = (None, false, Some (ErrInUse path)) /\
     trace (snd r) = trace p ++ [EvDial path; EvConnClose]) /\
  (forall e, Dial os path = false -> Remove os path = Some e ->
     IsNotExist e = false ->
     fst r = (None, false, Some e) /\
     trace (snd r) = trace p ++ [EvDial path; EvRemove path]) /\
  (forall e, In e (trace (snd r)) -> ~ In e (trace p) -> is_bind e = true ->
     Dial os path = false /\
     (Remove os path = None \/ Remove os path = Some ErrNotExist)).
Proof.
  intros Hn. cbv zeta. unfold GetUnixSocketListener, listen.
  destruct (passed files path) as [l|] eqn:Ep.
  { exfalso. apply Hn. apply (passed_Some _ _ _ Ep). }
  split; [|split].
  - intros ->. simpl. rewrite <- app_assoc. auto.
  - intros e -> -> He. simpl. rewrite He. simpl. rewrite <- app_assoc. auto.
  - intros e Hin Hnin Hb.
    destruct (Dial os path); simpl in *.
    { exfalso. rewrite <- app_assoc in Hin. apply in_app_or in Hin as [Hin|Hin];
        [contradiction|].
      simpl in Hin. destruct Hin as [<-|[<-|[]]]; discriminate Hb. }
    split; [reflexivity|].
    destruct (Remove os path) as [[pth| |msg]|]; auto; exfalso; simpl in Hin;
      rewrite <- app_assoc in Hin; apply in_app_or in Hin as [Hin|Hin];
      try contradiction;
      simpl in Hin; destruct Hin as [<-|[<-|[]]]; discriminate Hb.
Qed.

Lemma GetUnixSocketListener_leaves_live_socket_witness :
  fst (GetUnixSocketListener
         (mk_OS (fun _ => true) (fun _ => None) (fun p => inl p) (fun a => inl a))
         [mk_File (inl (OtherListener "[::]:80"))] "/run/fdemanager.socket"
         (mk_Process 18 []))
  = (None, false, Some (ErrInUse "/run/fdemanager.socket")).
Proof.
  assert (Hn : ~ In (mk_File (inl (UnixListener "/run/fdemanager.socket")))
                 [mk_File (inl (OtherListener "[::]:80"))]).
  { intros [H|[]]. discriminate H. }
  exact (proj1 (proj1 (GetUnixSocketListener_leaves_live_socket
                  (mk_OS (fun _ => true) (fun _ => None) (fun p => inl p)
                     (fun a => inl a))
                  [mk_File (inl (OtherListener "[::]:80"))]
                  "/run/fdemanager.socket" (mk_Process 18 []) Hn)
           eq_refl)).
Defined.

End SocketListener.

(* ===================================================================== *)
(** * The life of the daemon: New, Start, run and main *)
(* ===================================================================== *)

Module Main.

Import Go.
Local Open Scope Z_scope.

(** The errors [run] returns. *)
Inductive error : Type :=
| ErrNew (msg : string)                     (* the error of [overlord.New] *)
| ErrCannotListen (path : string) (e : SocketListener.error)
    (* fmt.Errorf("cannot listen on %s: %v", paths.ManagerSocket, err) *)
| ErrStop (e : Daemon.stopError).

(** [daemon.New]: [ovld] is what [overlord.New(d)] returns. *)
Definition New (ovld : Overlord.Overlord + string) : Daemon.Daemon + error :=
  match ovld with
  | inr msg => inr (ErrNew msg)
  | inl o => inl (Daemon.mk_Daemon (Some o) Daemon.StillAlive false false [])
  end.

(** A started daemon: with its listener and connection tracker. *)
Record Started : Type := mk_Started {
  daemon : Daemon.Daemon;
  listener : option SocketListener.Listener;
  connTracker : ConnTracker.connTracker
}.

(** [func (d *Daemon) CanStandby() bool] *)
Definition CanStandby (d : Daemon.Daemon) : bool := Daemon.socketActivated d.

Section Run.

Variable ensureInterval : Z.
Variable ManagerSocket : string.     (* [paths.ManagerSocket] *)

(** [func (d *Daemon) Start() error], at clock [now]. *)
Definition Start (now : Z) (os : SocketListener.OS)
    (files : list SocketListener.File) (p : SocketListener.Process)
    (d : Daemon.Daemon)
  : outcome ((Started + error) * SocketListener.Process) :=
  match Daemon.overlord d with
  | None => Panics "internal error: no Overlord"
  | Some o =>
      match SocketListener.GetUnixSocketListener os files ManagerSocket p with
      | ((_, _, Some err), p') =>
          Returns (inr (ErrCannotListen ManagerSocket err), p')
      | ((l, activated, None), p') =>
          Returns
            (inl (mk_Started
                    (Daemon.mk_Daemon
                       (Some (Overlord.ensureTimerSetup ensureInterval now o))
                       (Daemon.tomb d) (Daemon.restartSocket d) activated
                       (Daemon.trace d))
                    l ConnTracker.newConnTracker),
             p')
      end
  end.

(** What may happen to a started daemon before [run] calls [Stop]: a
    restart to wait for socket activation is requested, or [Serve] returns. *)
Inductive happening : Type :=
| Restart
| ServeReturns (err : option Daemon.srvError).

Definition happen (d : Daemon.Daemon) (h : happening) : Daemon.Daemon :=
  match h with
  | Restart => Daemon.HandleRestart d
  | ServeReturns err => Daemon.serve_returns err d
  end.

(** [run]: [hs] is what happens between [Start] and [Stop]. *)
Definition run (now : Z) (os : SocketListener.OS)
    (files : list SocketListener.File) (p : SocketListener.Process)
    (ovld : Overlord.Overlord + string) (hs : list happening)
    (env : Daemon.stopEnv) : outcome (option error) :=
  match New ovld with
  | inr err => Returns (Some err)
  | inl d =>
      match Start now os files p d with
      | Panics msg => Panics msg
      | Returns (inr err, _) => Returns (Some err)
      | Returns (inl st, _) =>
          Returns (option_map ErrStop
                     (snd (Daemon.Stop env (fold_left happen hs (daemon st)))))
      end
  end.

Inductive stream : Type := Stdout | Stderr.

(** [main]: the exit status of the process and where the error, if any, is
    printed. *)
Definition main (runs : outcome (option error)) : outcome (Z * option stream) :=
  match runs with
  | Panics msg => Panics msg
  | Returns None => Returns (0, None)
  | Returns (Some (ErrStop Daemon.ErrRestartSocket)) => Returns (42, Some Stdout)
  | Returns (Some _) => Returns (1, Some Stderr)
  end.

Lemma fold_happen_keeps (hs : list happening) :
  forall d,
    Daemon.overlord (fold_left happen hs d) = Daemon.overlord d /\
    Daemon.socketActivated (fold_left happen hs d) = Daemon.socketActivated d /\
    (Daemon.restartSocket (fold_left happen hs d) = true <->
     Daemon.restartSocket d = true \/ In Restart hs).
Proof.
  induction hs as [|h hs IH]; intros d; simpl.
  - repeat split; auto. intros [H|[]]; exact H.
  - destruct (IH (happen d h)) as (Ho & Ha & Hr).
    rewrite Ho, Ha, Hr. destruct h as [|err]; simpl.
    + repeat split; auto.
    + repeat split; auto.
      * intros [H|H]; auto.
      * intros [H|[H|H]]; auto. discriminate H.
Qed.

Lemma Start_cases (now : Z) (os : SocketListener.OS)
    (files : list SocketListener.File) (p : SocketListener.Process)
    (o : Overlord.Overlord) :
  exists p',
    SocketListener.umask p' = SocketListener.umask p /\
    ((exists a activated,
        Start now os files p
          (Daemon.mk_Daemon (Some o) Daemon.StillAlive false false [])
        = Returns
            (inl (mk_Started
                    (Daemon.mk_Daemon
                       (Some (Overlord.ensureTimerSetup ensureInterval now o))
                       Daemon.StillAlive false activated [])
                    (Some (SocketListener.UnixListener a))
                    ConnTracker.newConnTracker), p') /\
        (activated = true <->
         In (SocketListener.mk_File
               (inl (SocketListener.UnixListener ManagerSocket))) files)) \/
     (exists e,
        Start now os files p
          (Daemon.mk_Daemon (Some o) Daemon.StillAlive false false [])
        = Returns (inr (ErrCannotListen ManagerSocket e), p') /\
        SocketListener.err_of
          (SocketListener.GetUnixSocketListener os files ManagerSocket p)
        = Some e)).
Proof.
  unfold Start, SocketListener.err_of. cbn [Daemon.overlord].
  destruct (SocketListener.GetUnixSocketListener_shape os files ManagerSocket p)
    as (Hum & [(a & activated & E & Hact) | (e & E)]);
    destruct (SocketListener.GetUnixSocketListener os files ManagerSocket p)
      as [[[l act] err] p']; simpl in *; inversion E; subst;
    exists p'; (split; [exact Hum|]).
  - left. exists a, activated. split; [reflexivity | exact Hact].
  - right. exists e. split; reflexivity.
Qed.

(** The overlord of a daemon that [Start] has started loops, so that its
    [Stop] returns: this is the overlord [Daemon.Stop] stops. *)
Lemma Start_overlord_loops (now : Z) (os : SocketListener.OS)
    (files : list SocketListener.File) (p p' : SocketListener.Process)
    (o : Overlord.Overlord) (st : Started) :
  Start now os files p
    (Daemon.mk_Daemon (Some o) Daemon.StillAlive false false [])
  = Returns (inl st, p') ->
  exists o',
    Daemon.overlord (daemon st) = Some o' /\
    Overlord.looping o' = true /\
    forall hs waitErr,
      Daemon.overlord (fold_left happen hs (daemon st)) = Some o' /\
      Overlord.Stop waitErr o'
      = Overlord.Stopped (fst (Overlord.Stop_after_Wait waitErr o'))
          (snd (Overlord.Stop_after_Wait waitErr o')).
Proof.
  intros E.
  destruct (Start_cases now os files p o)
    as (p1 & _ & [(a & activated & E1 & _) | (e & E1 & _)]);
    rewrite E1 in E; inversion E; subst.
  eexists. split; [reflexivity|]. split; [reflexivity|].
  intros hs waitErr. split.
  - apply (fold_happen_keeps hs).
  - apply Overlord.Stop_returns. left. reflexivity.
Qed.

(** X19.  [Start] on a daemon made by [New] never panics.  When it succeeds the
    daemon agrees to standby exactly when systemd passed the manager socket,
    the overlord's loop is started, so that [EnsureBefore] no longer panics,
    and no connection is tracked; the overlord's own opinion on standby is
    what it was.  When it fails, the error is the one of the listener with
    the socket's path.  In both cases the umask is left as it was. *)
Theorem Start_standby_opinions (now : Z) (os : SocketListener.OS)
    (files : list SocketListener.File) (p : SocketListener.Process)
    (o : Overlord.Overlord) (d : Daemon.Daemon) :
  New (inl o) = inl d ->
  exists r p',
    Start now os files p d = Returns (r, p') /\
    SocketListener.umask p' = SocketListener.umask p /\
    match r with
    | inl st =>
        (CanStandby (daemon st) = true <->
         In (SocketListener.mk_File
               (inl (SocketListener.UnixListener ManagerSocket))) files) /\
        (exists a, listener st = Some (SocketListener.UnixListener a)) /\
        ConnTracker.CanStandby (connTracker st) = true /\
        exists o',
          Daemon.overlord (daemon st) = Some o' /\
          Scheduler.CanStandby o' = Scheduler.CanStandby o /\
          Overlord.trace o' = Overlord.trace o /\
          forall now' dur, exists o'',
            Overlord.ensureBefore now' dur o' = Returns o''
    | inr err =>
        exists e,
          err = ErrCannotListen ManagerSocket e /\
          SocketListener.err_of
            (SocketListener.GetUnixSocketListener os files ManagerSocket p)
          = Some e
    end.
Proof.
  intros Hn. inversion Hn; subst d; clear Hn.
  destruct (Start_cases now os files p o)
    as (p' & Hum & [(a & activated & E & Hact) | (e & E & He)]); rewrite E.
  - eexists _, p'. split; [reflexivity|]. split; [exact Hum|].
    unfold CanStandby. cbn [daemon listener connTracker Daemon.socketActivated
                              Daemon.overlord].
    split; [exact Hact|]. split; [eauto|]. split; [reflexivity|].
    eexists. split; [reflexivity|]. split; [reflexivity|]. split; [reflexivity|].
    intros now' dur.
    destruct (Overlord.ensureBefore_returns now' dur
                (Overlord.ensureTimerSetup ensureInterval now o)
                (Overlord.NewTimer now ensureInterval) eq_refl) as (o'' & E' & _).
    exists o''. exact E'.
  - eexists _, p'. split; [reflexivity|]. split; [exact Hum|]. eauto.
Qed.

(** X20.  The process exits with status 42, and prints to standard output,
    exactly when the daemon was made and started, a restart to wait for socket
    activation was requested, the standby opinions still agree once the
    requests are drained, and the tomb ends with no error or with the deadline
    of the shutdown.  It never panics, and it exits with 0 exactly when [run]
    returns nil. *)
Theorem main_exit_status (now : Z) (os : SocketListener.OS)
    (files : list SocketListener.File) (p : SocketListener.Process)
    (ovld : Overlord.Overlord + string) (hs : list happening)
    (env : Daemon.stopEnv) :
  exists code out,
    main (run now os files p ovld hs env) = Returns (code, out) /\
    (code = 0 \/ code = 42 \/ code = 1) /\
    (code = 0 <-> run now os files p ovld hs env = Returns None) /\
    (code = 42 <->
     exists o st p',
       ovld = inl o /\
       Start now os files p (Daemon.mk_Daemon (Some o) Daemon.StillAlive false false [])
       = Returns (inl st, p') /\
       In Restart hs /\
       Daemon.canStandby env = true /\
       (Daemon.tomb_error env (fold_left happen hs (daemon st)) = None \/
        Daemon.tomb_error env (fold_left happen hs (daemon st))
        = Some Daemon.DeadlineExceeded)) /\
    (code = 42 -> out = Some Stdout) /\ (code = 1 -> out = Some Stderr).
Proof.
  unfold run. destruct ovld as [o|msg]; cbn [New].
  2:{ exists 1, (Some Stderr). split; [reflexivity|].
      split; [auto|]. split; [split; discriminate|].
      split; [|split; [discriminate | reflexivity]].
      split; [discriminate|]. intros (o & st & p' & H & _). discriminate H. }
  destruct (Start_cases now os files p o)
    as (p' & _ & [(a & activated & E & _) | (e & E & _)]).
  2:{ rewrite E. exists 1, (Some Stderr). split; [reflexivity|].
      split; [auto|]. split; [split; discriminate|].
      split; [|split; [discriminate | reflexivity]].
      split; [discriminate|].
      intros (o1 & st & p1 & Ho & Hs & _). inversion Ho; subst o1.
      rewrite E in Hs. discriminate Hs. }
  rewrite E. cbv iota beta.
  match goal with
  | |- context [fold_left happen hs (daemon ?st0)] => set (st := st0) in *
  end.
  destruct (fold_happen_keeps hs (daemon st)) as (Hov & _ & Hflag).
  assert (Hflag' : Daemon.restartSocket (fold_left happen hs (daemon st)) = true
                   <-> In Restart hs).
  { rewrite Hflag. split; [intros [H|H]; [discriminate H | exact H] | auto]. }
  clear Hflag.
  assert (Hst : forall o1 st1 p1,
             inl o = @inl _ string o1 ->
             Start now os files p
               (Daemon.mk_Daemon (Some o1) Daemon.StillAlive false false [])
             = Returns (@inl _ error st1, p1) ->
             fold_left happen hs (daemon st1) = fold_left happen hs (daemon st)).
  { intros o1 st1 p1 Ho H. inversion Ho; subst o1. rewrite E in H.
    inversion H; subst. reflexivity. }
  set (d1 := fold_left happen hs (daemon st)) in *.
  change (Daemon.overlord (daemon st))
    with (Some (Overlord.ensureTimerSetup ensureInterval now o)) in Hov.
  unfold Daemon.tomb_error, Daemon.Stop. rewrite Hov.
  destruct (Daemon.Wait
              (Daemon.Kill (Daemon.shutdownErr env)
                 (Daemon.Kill None (Daemon.tomb d1)))) as [[|msg]|] eqn:Ew;
    destruct (Daemon.restartSocket d1) eqn:Ef;
    destruct (Daemon.canStandby env) eqn:Ec; simpl;
    (eexists _, _; split; [reflexivity|]; split; [auto|];
     split; [split; [try reflexivity; try discriminate
                    | try reflexivity; try discriminate]|];
     split; [|split; [try discriminate; try reflexivity
                     | try discriminate; try reflexivity]]);
    try (split; [discriminate|];
         intros (o1 & st1 & p1 & H1 & H2 & Hin & Hc & Ht);
         rewrite (Hst o1 st1 p1 H1 H2) in Ht;
         try discriminate Hc;
         try (apply Hflag' in Hin; discriminate Hin);
         try (rewrite Ew in Ht; destruct Ht as [Ht|Ht]; discriminate Ht));
    try (split; [intros _|reflexivity];
         exists o, st, p'; split; [reflexivity|]; split; [exact E|];
         split; [apply Hflag'; reflexivity|]; split; [reflexivity|];
         first [left; exact Ew | right; exact Ew]).
Qed.

End Run.

(** ** Stopping *)

(** X21.  [Stop] on a daemon with an overlord always tears down in the same
    order, closing the listener before it drains the server and stopping the
    overlord after; it closes the server's connections exactly when the drain
    ran into its deadline.  The overlord is stopped, with a prune pass behind
    it, also when [Stop] returns an error, and the error of the overlord's own
    [Stop] never shows in the result.  The tomb ends with the error it already
    had, if any, and with the error of the shutdown otherwise. *)
Theorem Stop_teardown (env : Daemon.stopEnv) (d : Daemon.Daemon)
    (o : Overlord.Overlord) :
  Daemon.overlord d = Some o ->
  let d' := fst (Daemon.Stop env d) in
  (exists tail,
     Daemon.trace d'
     = Daemon.trace d
       ++ [Daemon.EvListenerClose; Daemon.EvStandbyStop; Daemon.EvShutdown;
           Daemon.EvOverlordStop] ++ tail /\
     (tail = [] \/ tail = [Daemon.EvWarnTimeout; Daemon.EvServeClose]) /\
     (tail <> [] <-> Daemon.tomb_error env d = Some Daemon.DeadlineExceeded)) /\
  (exists o',
     Daemon.overlord d' = Some o' /\ Overlord.didPrune o' = true /\
     In Overlord.EvEngineStop (Overlord.trace o')) /\
  (forall loopErr,
     snd (Daemon.Stop (Daemon.mk_stopEnv (Daemon.shutdownErr env)
                         (Daemon.canStandby env) loopErr) d)
     = snd (Daemon.Stop env d)) /\
  Daemon.tomb_error env d
  = match Daemon.Wait (Daemon.tomb d) with
    | Some e => Some e
    | None => Daemon.shutdownErr env
    end /\
  Daemon.tomb d' <> Daemon.StillAlive.
Proof.
  intros Ho. cbv zeta.
  assert (Hov : forall w,
             Overlord.didPrune (fst (Overlord.Stop_after_Wait w o)) = true /\
             In Overlord.EvEngineStop
                (Overlord.trace (fst (Overlord.Stop_after_Wait w o)))).
  { intros w. unfold Overlord.Stop_after_Wait.
    destruct o as [lk tb tm nx rn dp tr]; simpl.
    destruct tb, dp, lk; simpl; split; try reflexivity;
      rewrite ?in_app_iff; simpl; tauto. }
  assert (Htomb : Daemon.tomb_error env d
                  = match Daemon.Wait (Daemon.tomb d) with
                    | Some e => Some e
                    | None => Daemon.shutdownErr env
                    end).
  { unfold Daemon.tomb_error. destruct (Daemon.tomb d) as [|[e|]];
      destruct (Daemon.shutdownErr env); reflexivity. }
  assert (Halive : Daemon.Kill (Daemon.shutdownErr env)
                     (Daemon.Kill None (Daemon.tomb d)) <> Daemon.StillAlive).
  { destruct (Daemon.tomb d) as [|[e|]]; simpl; discriminate. }
  split; [|split; [|split; [|split; [exact Htomb|]]]]; clear Htomb;
    unfold Daemon.Stop, Daemon.tomb_error; rewrite Ho.
  - destruct (Daemon.Wait
                (Daemon.Kill (Daemon.shutdownErr env)
                   (Daemon.Kill None (Daemon.tomb d)))) as [[|msg]|]; simpl.
    + exists [Daemon.EvWarnTimeout; Daemon.EvServeClose].
      split; [reflexivity|]. split; [now right|]. split; [reflexivity | discriminate].
    + exists []. split; [reflexivity|]. split; [now left|].
      split; [intros H; now elim H | discriminate].
    + exists []. split; [reflexivity|]. split; [now left|].
      split; [intros H; now elim H | discriminate].
  - destruct (Hov (Daemon.loopErr env)) as (Hp & Hin).
    destruct (Daemon.Wait
                (Daemon.Kill (Daemon.shutdownErr env)
                   (Daemon.Kill None (Daemon.tomb d)))) as [[|msg]|]; simpl;
      eexists; eauto.
  - intros loopErr. simpl.
    destruct (Daemon.Wait
                (Daemon.Kill (Daemon.shutdownErr env)
                   (Daemon.Kill None (Daemon.tomb d)))) as [[|msg]|]; reflexivity.
  - destruct (Daemon.Wait
                (Daemon.Kill (Daemon.shutdownErr env)
                   (Daemon.Kill None (Daemon.tomb d)))) as [[|msg]|] eqn:Ew;
      simpl; exact Halive.
Qed.

(** ** The scenarios of the daemon's tests *)

Definition testOS : SocketListener.OS :=
  SocketListener.mk_OS (fun _ => false) (fun _ => Some SocketListener.ErrNotExist)
    (fun p => inl p) (fun a => inl a).

(** TestStartAndStopActivated: systemd passes the manager socket. *)
Lemma Start_standby_opinions_witness :
  exists st p',
    Start 300000 "/run/fdemanager.socket" 0 testOS
      [SocketListener.mk_File
         (inl (SocketListener.UnixListener "/run/fdemanager.socket"))]
      (SocketListener.mk_Process 18 [])
      (Daemon.mk_Daemon (Some Overlord.New) Daemon.StillAlive false false [])
    = Returns (inl st, p') /\
    CanStandby (daemon st) = true.
Proof.
  destruct (Start_standby_opinions 300000 "/run/fdemanager.socket" 0 testOS
              [SocketListener.mk_File
                 (inl (SocketListener.UnixListener "/run/fdemanager.socket"))]
              (SocketListener.mk_Process 18 []) Overlord.New _ eq_refl)
    as ([st|err] & p' & E & _ & H).
  - exists st, p'. split; [exact E|]. apply (proj1 H). left. reflexivity.
  - exfalso. destruct H as (e & _ & He). vm_compute in He. discriminate He.
Defined.

Lemma Stop_teardown_witness :
  Daemon.tomb_error (Daemon.mk_stopEnv (Some Daemon.DeadlineExceeded) true None)
    Daemon.activated
  = Some Daemon.DeadlineExceeded.
Proof.
  exact (proj1 (proj2 (proj2 (proj2
           (Stop_teardown (Daemon.mk_stopEnv (Some Daemon.DeadlineExceeded) true None)
              Daemon.activated Daemon.looping_overlord eq_refl))))).
Defined.

(** TestStartAndStopActivated, seen from [main]: the process exits with 42. *)
Example main_exits_42 :
  main (run 300000 "/run/fdemanager.socket" 0 testOS
          [SocketListener.mk_File
             (inl (SocketListener.UnixListener "/run/fdemanager.socket"))]
          (SocketListener.mk_Process 18 []) (inl Overlord.New) [Restart]
          (Daemon.mk_stopEnv None true None))
  = Returns (42, Some Stdout).
Proof. reflexivity. Qed.

End Main.

(* ===================================================================== *)
(** * The client *)
(* ===================================================================== *)

Module Client.

Import Go.
Local Open Scope Z_scope.

(** [api.Response] *)
Record Response : Type := mk_Response {
  Type_ : string;          (* [api.ResponseType] *)
  StatusCode : Z;
  StatusText : string;
  Result : string;         (* [json.RawMessage] *)
  Change : string
}.

(** An [http.Header] with one value for each key, keys in canonical form. *)
Definition Header_Get (key : string) (h : gmap string string) : string :=
  default ""%string (h !! key).

(** [Header.Add]: on a key that has a value already, [Get] goes on
    returning the first. *)
Definition Header_Add (key value : string) (h : gmap string string)
  : gmap string string :=
  match h !! key with
  | Some _ => h
  | None => <[key := value]> h
  end.

(** [*http.Request], as the client builds it. *)
Record Request : Type := mk_Request {
  Method : string;
  URL : string;
  Header : gmap string string;
  Body : string
}.

(** [*http.Response], as the client reads it. *)
Record httpResponse : Type := mk_httpResponse {
  hStatusCode : Z;
  hHeader : gmap string string;
  hBody : string
}.

(** [Client]; its [doer] is a parameter below. *)
Record Client : Type := mk_Client {
  interactive : bool
}.

(** [Config] and [New]; a nil configuration is [None]. *)
Record Config : Type := mk_Config {
  Interactive : bool;
  DisableKeepAlive : bool
}.

Definition New (config : option Config) : Client :=
  let config := match config with Some c => c | None => mk_Config false false end in
  mk_Client (Interactive config).

Section Do.

Variable Args : Type.                (* what [args any] may be *)
Variable ErrorResult : Type.         (* [api.ErrorResult] *)
Variable AllowInteractionHeader : string.   (* [api.AllowInteractionHeader] *)

(** [json.NewEncoder(body).Encode(args)] *)
Variable Encode : Args -> string + string.
(** [u.String()] for a path and an encoded query. *)
Variable URLString : string -> string -> string.
(** The error of [http.NewRequestWithContext] for a method and a URL. *)
Variable NewRequestError : string -> string -> option string.
(** [c.doer.Do] *)
Variable Do : Request -> httpResponse + string.
(** [dec.Decode(&rsp)] into a [*api.Response]: [inl None] is the nil
    pointer that the JSON [null] decodes to. *)
Variable Decode : string -> option Response + string.
(** [json.Unmarshal(rsp.Result, &errResult)] into a [*api.ErrorResult]. *)
Variable UnmarshalErrorResult : string -> option ErrorResult + string.
(** The error of [json.Unmarshal(rsp.Result, &result)]. *)
Variable UnmarshalResult : string -> option string.

Inductive error : Type :=
| EncodeError (msg : string)
| CannotCreateRequest (msg : string)
| CommunicationError (msg : string)
| InvalidContentType (contentType : string)     (* an InvalidResponseError *)
| CannotDecodeBody (msg : string)               (* an InvalidResponseError *)
| CannotDecodeErrorResult (msg : string)        (* an InvalidResponseError *)
| InvalidResponseType                           (* an InvalidResponseError *)
| InvalidResult (msg : string)                  (* an InvalidResponseError *)
| Error_ (StatusCode : Z) (result : ErrorResult).   (* [*Error] *)

(** The request of [do], once it is created and its headers are added. *)
Definition newRequest (c : Client) (method path query body : string) : Request :=
  let hdr := Header_Add "Content-Type" "application/json" ∅ in
  let hdr :=
    if interactive c then Header_Add AllowInteractionHeader "1" hdr else hdr in
  mk_Request method (URLString path query) hdr body.

(** [func (c *Client) do(ctx, method, path, query, args)] *)
Definition do (c : Client) (method path query : string) (args : Args)
  : outcome (Response + error) :=
  match Encode args with
  | inr msg => Returns (inr (EncodeError msg))
  | inl body =>
      match NewRequestError method (URLString path query) with
      | Some msg => Returns (inr (CannotCreateRequest msg))
      | None =>
          match Do (newRequest c method path query body) with
          | inr msg => Returns (inr (CommunicationError msg))
          | inl httpRsp =>
              if negb (String.eqb (Header_Get "Content-Type" (hHeader httpRsp))
                         "application/json")
              then Returns (inr (InvalidContentType
                                   (Header_Get "Content-Type" (hHeader httpRsp))))
              else
                match Decode (hBody httpRsp) with
                | inr msg => Returns (inr (CannotDecodeBody msg))
                | inl None =>
                    Panics "invalid memory address or nil pointer dereference"
                | inl (Some rsp) =>
                    Returns (inl (mk_Response (Type_ rsp) (hStatusCode httpRsp)
                                    (StatusText rsp) (Result rsp) (Change rsp)))
                end
          end
      end
  end.

(** [func (c *Client) doSync(ctx, method, path, query, args, result)];
    [result] tells whether the caller passed a non-nil result. *)
Definition doSync (c : Client) (method path query : string) (args : Args)
    (result : bool) : outcome (option error) :=
  match do c method path query args with
  | Panics msg => Panics msg
  | Returns (inr err) => Returns (Some err)
  | Returns (inl rsp) =>
      if String.eqb (Type_ rsp) "error" then
        match UnmarshalErrorResult (Result rsp) with
        | inr msg => Returns (Some (CannotDecodeErrorResult msg))
        | inl None => Panics "invalid memory address or nil pointer dereference"
        | inl (Some errResult) => Returns (Some (Error_ (StatusCode rsp) errResult))
        end
      else if negb (String.eqb (Type_ rsp) "sync") then
        Returns (Some InvalidResponseType)
      else if result then
        match UnmarshalResult (Result rsp) with
        | Some msg => Returns (Some (InvalidResult msg))
        | None => Returns None
        end
      else Returns None
  end.

(** The request as the daemon's gateway reads it, on connection [conn]. *)
Definition received {Conn : Type} (conn : Conn) (req : Request)
  : Command.Request Conn :=
  Command.mk_Request Conn (Method req) (Some conn)
    (Header_Get AllowInteractionHeader (Header req)).

(** X22.  Every request of the client declares a JSON body, and carries the
    allow-interaction header, with the value 1, exactly when the client is
    interactive; the daemon's gateway reads from it, without a complaint, the
    client's own setting. *)
Theorem newRequest_allows_interaction
    (c : Client) (method path query body : string)
    (Conn Ucred : Type) (Sprintf : string -> list string -> string) (conn : Conn) :
  AllowInteractionHeader <> "Content-Type"%string ->
  let req := newRequest c method path query body in
  Header_Get "Content-Type" (Header req) = "application/json"%string /\
  Header_Get AllowInteractionHeader (Header req)
  = (if interactive c then "1" else "")%string /\
  Command.allowInteraction Conn Ucred Sprintf AllowInteractionHeader
    (received conn req)
  = ([], Returns (interactive c)).
Proof.
  intros Hne. cbv zeta. unfold newRequest, received, Header_Get, Header_Add.
  cbn [Header Method]. rewrite lookup_empty.
  assert (Hl : (<["Content-Type"%string := "application/json"%string]>
                  (∅ : gmap string string)) !! AllowInteractionHeader = None).
  { rewrite lookup_insert_ne by congruence. apply lookup_empty. }
  destruct (interactive c).
  - rewrite Hl. rewrite lookup_insert_ne by congruence.
    rewrite lookup_insert_eq. rewrite lookup_insert_eq. simpl.
    split; [reflexivity|]. split; [reflexivity|].
    unfold Command.allowInteraction. cbn [Command.AllowInteractionHeader].
    reflexivity.
  - rewrite lookup_insert_eq, Hl. simpl.
    split; [reflexivity|]. split; [reflexivity|].
    unfold Command.allowInteraction. cbn [Command.AllowInteractionHeader].
    reflexivity.
Qed.

(** X23.  The outcomes of [doSync].  It returns nil exactly when the service
    answered with a JSON content type and a body that decodes to a response of
    type sync, whose result, if one is wanted, decodes too.  The status code of
    an [*Error] is the one of the HTTP response, whatever the body says.  It
    panics exactly when the body, or the result of a response of type error,
    decodes to a nil pointer. *)
Theorem doSync_outcomes (c : Client) (method path query : string) (args : Args)
    (result : bool) :
  (doSync c method path query args result = Returns None <->
   exists body httpRsp rsp,
     Encode args = inl body /\
     NewRequestError method (URLString path query) = None /\
     Do (newRequest c method path query body) = inl httpRsp /\
     Header_Get "Content-Type" (hHeader httpRsp) = "application/json"%string /\
     Decode (hBody httpRsp) = inl (Some rsp) /\
     Type_ rsp = "sync"%string /\
     (result = true -> UnmarshalResult (Result rsp) = None)) /\
  (forall code er,
     doSync c method path query args result = Returns (Some (Error_ code er)) ->
     exists body httpRsp,
       Encode args = inl body /\
       Do (newRequest c method path query body) = inl httpRsp /\
       code = hStatusCode httpRsp) /\
  ((exists msg, doSync c method path query args result = Panics msg) <->
   exists body httpRsp,
     Encode args = inl body /\
     NewRequestError method (URLString path query) = None /\
     Do (newRequest c method path query body) = inl httpRsp /\
     Header_Get "Content-Type" (hHeader httpRsp) = "application/json"%string /\
     (Decode (hBody httpRsp) = inl None \/
      exists rsp, Decode (hBody httpRsp) = inl (Some rsp) /\
                  Type_ rsp = "error"%string /\
                  UnmarshalErrorResult (Result rsp) = inl None)).
Proof.
  unfold doSync, do.
  destruct (Encode args) as [body|msg] eqn:Ee.
  2:{ split; [|split].
      - split; [discriminate|]. intros (b & h & r & H & _). discriminate H.
      - intros code er H. discriminate H.
      - split; [intros (m & H); discriminate H|].
        intros (b & h & H & _). discriminate H. }
  destruct (NewRequestError method (URLString path query)) as [msg|] eqn:En.
  { split; [|split].
    - split; [discriminate|]. intros (b & h & r & _ & H & _). discriminate H.
    - intros code er H. discriminate H.
    - split; [intros (m & H); discriminate H|].
      intros (b & h & _ & H & _). discriminate H. }
  destruct (Do (newRequest c method path query body)) as [httpRsp|msg] eqn:Ed.
  2:{ split; [|split].
      - split; [discriminate|].
        intros (b & h & r & Hb & _ & H & _). inversion Hb; subst b.
        rewrite Ed in H. discriminate H.
      - intros code er H. discriminate H.
      - split; [intros (m & H); discriminate H|].
        intros (b & h & Hb & _ & H & _). inversion Hb; subst b.
        rewrite Ed in H. discriminate H. }
  destruct (String.eqb_spec (Header_Get "Content-Type" (hHeader httpRsp))
              "application/json") as [Hct|Hct]; cbn [negb].
  2:{ split; [|split].
      - split; [discriminate|].
        intros (b & h & r & Hb & _ & H & Hc & _). inversion Hb; subst b.
        rewrite Ed in H. inversion H; subst h. contradiction.
      - intros code er H. discriminate H.
      - split; [intros (m & H); discriminate H|].
        intros (b & h & Hb & _ & H & Hc & _). inversion Hb; subst b.
        rewrite Ed in H. inversion H; subst h. contradiction. }
  assert (Hinv : forall b h (P : Prop),
             inl body = @inl _ string b ->
             Do (newRequest c method path query b) = inl h ->
             (b = body -> h = httpRsp -> P) -> P).
  { intros b h P Hb H K. inversion Hb; subst b. rewrite Ed in H.
    inversion H; subst h. apply K; reflexivity. }
  destruct (Decode (hBody httpRsp)) as [[rsp|]|msg] eqn:Edec.
  - cbn [Type_ Result StatusCode].
    destruct (String.eqb_spec (Type_ rsp) "error") as [Hte|Hte].
    + destruct (UnmarshalErrorResult (Result rsp)) as [[er|]|msg] eqn:Eu.
      * split; [|split].
        -- split; [discriminate|].
           intros (b & h & r & Hb & _ & H & _ & Hd & Ht & _).
           apply (Hinv b h _ Hb H). intros -> ->. rewrite Edec in Hd.
           inversion Hd; subst r. rewrite Hte in Ht. discriminate Ht.
        -- intros code er' H. inversion H; subst. exists body, httpRsp. auto.
        -- split; [intros (m & H); discriminate H|].
           intros (b & h & Hb & _ & H & _ & [Hd | (r & Hd & _ & Hu)]);
             apply (Hinv b h _ Hb H); intros -> ->; rewrite Edec in Hd;
             [discriminate Hd|].
           inversion Hd; subst r. rewrite Eu in Hu. discriminate Hu.
      * split; [|split].
        -- split; [discriminate|].
           intros (b & h & r & Hb & _ & H & _ & Hd & Ht & _).
           apply (Hinv b h _ Hb H). intros -> ->. rewrite Edec in Hd.
           inversion Hd; subst r. rewrite Hte in Ht. discriminate Ht.
        -- intros code er' H. discriminate H.
        -- split; [|intros _; eexists; reflexivity].
           intros _. exists body, httpRsp. repeat split; auto.
           right. exists rsp. auto.
      * split; [|split].
        -- split; [discriminate|].
           intros (b & h & r & Hb & _ & H & _ & Hd & Ht & _).
           apply (Hinv b h _ Hb H). intros -> ->. rewrite Edec in Hd.
           inversion Hd; subst r. rewrite Hte in Ht. discriminate Ht.
        -- intros code er' H. discriminate H.
        -- split; [intros (m & H); discriminate H|].
           intros (b & h & Hb & _ & H & _ & [Hd | (r & Hd & _ & Hu)]);
             apply (Hinv b h _ Hb H); intros -> ->; rewrite Edec in Hd;
             [discriminate Hd|].
           inversion Hd; subst r. rewrite Eu in Hu. discriminate Hu.
    + assert (Hnp : ~ exists b h,
                 inl body = @inl _ string b /\
                 None = @None string /\
                 Do (newRequest c method path query b) = inl h /\
                 Header_Get "Content-Type" (hHeader h) = "application/json"%string /\
                 (Decode (hBody h) = inl None \/
                  exists r, Decode (hBody h) = inl (Some r) /\
                            Type_ r = "error"%string /\
                            UnmarshalErrorResult (Result r) = inl None)).
      { intros (b & h & Hb & _ & H & _ & [Hd | (r & Hd & Ht & _)]);
          apply (Hinv b h _ Hb H); intros -> ->; rewrite Edec in Hd;
          [discriminate Hd|].
        inversion Hd; subst r. contradiction. }
      destruct (String.eqb_spec (Type_ rsp) "sync") as [Hts|Hts]; cbn [negb].
      * destruct result.
        -- destruct (UnmarshalResult (Result rsp)) as [msg|] eqn:Eu.
           ++ split; [|split].
              ** split; [discriminate|].
                 intros (b & h & r & Hb & _ & H & _ & Hd & _ & Hr).
                 apply (Hinv b h _ Hb H). intros -> ->. rewrite Edec in Hd.
                 inversion Hd; subst r. rewrite Eu in Hr.
                 specialize (Hr eq_refl). discriminate Hr.
              ** intros code er' H. discriminate H.
              ** split; [intros (m & H); discriminate H | intros H; elim (Hnp H)].
           ++ split; [|split].
              ** split; [|reflexivity]. intros _.
                 exists body, httpRsp, rsp. repeat split; auto.
              ** intros code er' H. discriminate H.
              ** split; [intros (m & H); discriminate H | intros H; elim (Hnp H)].
        -- split; [|split].
           ++ split; [|reflexivity]. intros _.
              exists body, httpRsp, rsp. repeat split; auto. discriminate.
           ++ intros code er' H. discriminate H.
           ++ split; [intros (m & H); discriminate H | intros H; elim (Hnp H)].
      * split; [|split].
        -- split; [discriminate|].
           intros (b & h & r & Hb & _ & H & _ & Hd & Ht & _).
           apply (Hinv b h _ Hb H). intros -> ->. rewrite Edec in Hd.
           inversion Hd; subst r. contradiction.
        -- intros code er' H. discriminate H.
        -- split; [intros (m & H); discriminate H | intros H; elim (Hnp H)].
  - split; [|split].
    + split; [discriminate|].
      intros (b & h & r & Hb & _ & H & _ & Hd & _).
      apply (Hinv b h _ Hb H). intros -> ->. rewrite Edec in Hd. discriminate Hd.
    + intros code er' H. discriminate H.
    + split; [|intros _; eexists; reflexivity].
      intros _. exists body, httpRsp. repeat split; auto.
  - split; [|split].
    + split; [discriminate|].
      intros (b & h & r & Hb & _ & H & _ & Hd & _).
      apply (Hinv b h _ Hb H). intros -> ->. rewrite Edec in Hd. discriminate Hd.
    + intros code er' H. discriminate H.
    + split; [intros (m & H); discriminate H|].
      intros (b & h & Hb & _ & H & _ & [Hd | (r & Hd & _)]);
        apply (Hinv b h _ Hb H); intros -> ->; rewrite Edec in Hd;
        discriminate Hd.
Qed.

End Do.

(** ** The client against the daemon's dispatcher *)

Section Served.

Variable Daemon : Type.
Variable Sprintf : string -> list string -> string.
Variable AllowInteractionHeader : string.
Variable Marshal : Response.resp -> option string.
Variable Args : Type.
Variable ErrorResult : Type.
Variable Encode : Args -> string + string.
Variable URLString : string -> string -> string.
Variable NewRequestError : string -> string -> option string.
Variable Decode : string -> option Response + string.
Variable UnmarshalErrorResult : string -> option ErrorResult + string.
Variable UnmarshalResult : string -> option string.

(** The command the request is routed to, the daemon and the connection
    the request arrives on. *)
Variable cmd : Dispatcher.command Daemon.
Variable d : Daemon.
Variable conn : PeerCred.Conn.

(** The gateway's run for a request of the client. *)
Definition gateway (req : Request)
  : list (Dispatcher.event) * outcome (Command.response Response.resp) :=
  Dispatcher.Run Daemon Sprintf AllowInteractionHeader cmd d
    (received AllowInteractionHeader conn req).

(** A transport that hands the request to the dispatcher and reads what it
    wrote: a response whose header was never written goes out with status
    200, and a handler that panics makes the server drop the connection. *)
Definition served (req : Request) : httpResponse + string :=
  match Dispatcher.ServeHTTP Daemon Sprintf AllowInteractionHeader Marshal cmd d
          (Response.mk_ResponseWriter ∅ None "")
          (received AllowInteractionHeader conn req) with
  | (_, Returns w) =>
      inl (mk_httpResponse (default 200 (Response.Code w)) (Response.Header w)
             (Response.Body w))
  | (_, Panics msg) => inr "EOF"%string
  end.

Definition doSync_served (c : Client) (method path query : string) (args : Args)
    (result : bool) : outcome (option (error ErrorResult)) :=
  doSync Args ErrorResult AllowInteractionHeader Encode URLString NewRequestError
    served Decode UnmarshalErrorResult UnmarshalResult c method path query args
    result.

Lemma response_Write_content_type (rsp : Command.response Response.resp)
    (w : Response.ResponseWriter) :
  Response.Header (Response.response_Write Marshal rsp w) !! "Content-Type"%string
  = Some "application/json"%string.
Proof.
  destruct rsp as [ae|r]; unfold Response.response_Write, Response.apiError_Write;
    match goal with
    | |- Response.Header (Response.Write _ ?x _) !! _ = _ =>
        destruct (Response.mirrors_dec Marshal x) as [(l & _ & H) | (_ & H)]
    end; rewrite H; apply lookup_insert_eq.
Qed.

Lemma served_returns (req : Request) :
  exists rsp,
    snd (gateway req) = Returns rsp /\
    served req
    = inl (let w := Response.response_Write Marshal rsp
                      (Response.mk_ResponseWriter ∅ None "") in
           mk_httpResponse (default 200 (Response.Code w)) (Response.Header w)
             (Response.Body w)).
Proof.
  unfold served, gateway, Dispatcher.ServeHTTP.
  destruct (Dispatcher.Run_shape Daemon Sprintf AllowInteractionHeader cmd d
              (received AllowInteractionHeader conn req))
    as [H1 E | c0 err H1 H2 E | c0 u e H1 H2 Hu E Hs
        | c0 u pre a h chk H1 H2 Hu Hpre H3 E].
  - discriminate H1.
  - rewrite E. eexists. split; reflexivity.
  - rewrite E. eexists. split; reflexivity.
  - rewrite E. destruct (chk d u a); eexists; split; reflexivity.
Qed.

(** X24.  Against the daemon's dispatcher the client never fails to communicate
    and never finds a wrong content type; and an error the gateway answers
    with, when the client can decode it, surfaces as an [*Error] with the
    status of that error. *)
Theorem doSync_against_dispatcher (c : Client) (method path query : string)
    (args : Args) (result : bool) :
  (forall msg, doSync_served c method path query args result
               <> Returns (Some (CommunicationError ErrorResult msg))) /\
  (forall ct, doSync_served c method path query args result
              <> Returns (Some (InvalidContentType ErrorResult ct))) /\
  (forall body e b rsp er,
     Encode args = inl body ->
     NewRequestError method (URLString path query) = None ->
     snd (gateway (newRequest AllowInteractionHeader URLString c method path
                     query body))
     = Returns (Command.RespError e) ->
     Marshal (Response.mk_resp Response.responseTypeError (Command.Status e)
                (Response.ResultError
                   (Response.mk_errorResult (Command.Message e) (Command.Kind e)))
                "") = Some b ->
     Decode b = inl (Some rsp) ->
     Type_ rsp = "error"%string ->
     UnmarshalErrorResult (Result rsp) = inl (Some er) ->
     doSync_served c method path query args result
     = Returns (Some (Error_ ErrorResult (Command.Status e) er))).
Proof.
  unfold doSync_served, doSync, do.
  split; [|split].
  - intros msg.
    destruct (Encode args) as [body|m]; [|discriminate].
    destruct (NewRequestError method (URLString path query)); [discriminate|].
    destruct (served_returns (newRequest AllowInteractionHeader URLString c
                                method path query body)) as (rsp & _ & E).
    rewrite E. cbv zeta. cbn [hHeader hBody hStatusCode].
    destruct (negb _); [discriminate|].
    destruct (Decode _) as [[r|]|m]; try discriminate.
    cbn [Type_ Result StatusCode].
    destruct (String.eqb (Type_ r) "error").
    { destruct (UnmarshalErrorResult (Result r)) as [[x|]|m]; discriminate. }
    destruct (negb _); [discriminate|].
    destruct result; [|discriminate].
    destruct (UnmarshalResult (Result r)); discriminate.
  - intros ct.
    destruct (Encode args) as [body|m]; [|discriminate].
    destruct (NewRequestError method (URLString path query)); [discriminate|].
    destruct (served_returns (newRequest AllowInteractionHeader URLString c
                                method path query body)) as (rsp & _ & E).
    rewrite E. cbv zeta. cbn [hHeader hBody hStatusCode].
    unfold Header_Get. rewrite response_Write_content_type. cbn [default negb]. unfold id.
    change (negb ("application/json" =? "application/json")%string) with false.
    cbv iota.
    destruct (Decode _) as [[r|]|m]; try discriminate.
    cbn [Type_ Result StatusCode].
    destruct (String.eqb (Type_ r) "error").
    { destruct (UnmarshalErrorResult (Result r)) as [[x|]|m]; discriminate. }
    destruct (negb _); [discriminate|].
    destruct result; [|discriminate].
    destruct (UnmarshalResult (Result r)); discriminate.
  - intros body e b rsp er He Hn Hg Hm Hd Ht Hu.
    rewrite He, Hn.
    destruct (served_returns (newRequest AllowInteractionHeader URLString c
                                method path query body)) as (rsp' & Hg' & E).
    rewrite Hg in Hg'. inversion Hg'; subst rsp'. clear Hg'.
    rewrite E. cbv zeta. cbn [hHeader hBody hStatusCode].
    unfold Header_Get. rewrite response_Write_content_type. cbn [default negb]. unfold id.
    change (negb ("application/json" =? "application/json")%string) with false.
    cbv iota.
    unfold Response.response_Write, Response.apiError_Write, Response.Write.
    rewrite Hm. unfold Response.Write_bytes, Response.WriteHeader.
    cbn [Response.Code Response.Body Response.Header Response.Status default].
    unfold id.
    change (("" +:+ b)%string) with b. rewrite Hd.
    cbn [Type_ Result StatusCode]. rewrite Ht, String.eqb_refl, Hu. reflexivity.
Qed.

End Served.

(** ** A concrete wiring *)

Lemma newRequest_allows_interaction_witness :
  Command.allowInteraction nat Z Command.testSprintf "X-Allow-Interaction"
    (received "X-Allow-Interaction" 7%nat
       (newRequest "X-Allow-Interaction" (fun p q => ("http://localhost" +:+ p)%string)
          (New (Some (mk_Config true false))) "GET" "/v1/foo" "" "null"))
  = ([], Returns true).
Proof.
  refine (proj2 (proj2 (newRequest_allows_interaction "X-Allow-Interaction"
                          (fun p q => ("http://localhost" +:+ p)%string)
                          (New (Some (mk_Config true false)))
                          "GET" "/v1/foo" "" "null" nat Z Command.testSprintf 7%nat _))).
  discriminate.
Defined.

(** A POST to a command that registers GET only, from an identified peer:
    the client reports the gateway's 405. *)
Lemma doSync_against_dispatcher_witness :
  doSync_served unit Command.testSprintf "X-Allow-Interaction" Response.testMarshal
    unit unit (fun _ => inl "null"%string)
    (fun p q => ("http://localhost" +:+ p)%string) (fun _ _ => None)
    (fun _ => inl (Some (mk_Response "error" 405 "Method Not Allowed" "{}" "")))
    (fun _ => inl (Some tt)) (fun _ => None)
    Dispatcher.testCommand tt
    (PeerCred.RawConn (PeerCred.ControlRuns (inl (PeerCred.mk_Ucred 100 1001 1001))))
    (New None) "POST" "/v1/foo" "" tt false
  = Returns (Some (Error_ unit 405 tt)).
Proof.
  apply (proj2 (proj2
           (doSync_against_dispatcher unit Command.testSprintf "X-Allow-Interaction"
              Response.testMarshal unit unit (fun _ => inl "null"%string)
              (fun p q => ("http://localhost" +:+ p)%string) (fun _ _ => None)
              (fun _ => inl (Some (mk_Response "error" 405 "Method Not Allowed" "{}" "")))
              (fun _ => inl (Some tt)) (fun _ => None)
              Dispatcher.testCommand tt
              (PeerCred.RawConn
                 (PeerCred.ControlRuns (inl (PeerCred.mk_Ucred 100 1001 1001))))
              (New None) "POST" "/v1/foo" "" tt false))
           "null"%string
           (Command.mk_apiError 405
              (Command.testSprintf "method %q not allowed" ["POST"%string]) "")
           "{}"%string (mk_Response "error" 405 "Method Not Allowed" "{}" "") tt);
    reflexivity.
Defined.

End Client.

(* ===================================================================== *)
(** * The patch level of a new state *)
(* ===================================================================== *)

Module Patch.

Import Go.
Local Open Scope Z_scope.

(** A value of the state: an integer, or anything else. *)
Inductive value : Type :=
| VInt (n : Z)
| VOther (raw : string).

Inductive event : Type := EvLock | EvUnlock.

(** [*state.State]: its entries and what was done to its lock. *)
Record State : Type := mk_State {
  data : gmap string value;
  trace : list event
}.

Inductive error : Type :=
| ErrNoState       (* an error for which [errors.Is(err, state.ErrNoState)] holds *)
| ErrDecode.       (* the entry is no integer *)

(** [s.Get(key, new(int))] *)
Definition Get (key : string) (s : State) : option error :=
  match data s !! key with
  | None => Some ErrNoState
  | Some (VInt _) => None
  | Some (VOther _) => Some ErrDecode
  end.

(** [s.Set(key, n)] *)
Definition Set_ (key : string) (n : Z) (s : State) : State :=
  mk_State (<[key := VInt n]> (data s)) (trace s).

Definition Lock (s : State) : State := mk_State (data s) (trace s ++ [EvLock]).
Definition Unlock (s : State) : State := mk_State (data s) (trace s ++ [EvUnlock]).

Definition is_no_state (err : option error) : bool :=
  match err with Some ErrNoState => true | _ => false end.

(** [Init], with the package variables [Level] and [Sublevel]; the state
    is returned also when the call panics, after the deferred [Unlock]. *)
Definition Init (Level Sublevel : Z) (s : State) : State * outcome unit :=
  let s := Lock s in
  if negb (is_no_state (Get "patch-level" s)) then
    (Unlock s,
     Panics "internal error: expected empty state, attempting to override patch-level without actual patching")
  else
    let s := Set_ "patch-level" Level s in
    if negb (is_no_state (Get "patch-sublevel" s)) then
      (Unlock s,
       Panics "internal error: expected empty state, attempting to override patch-sublevel without actual patching")
    else
      (Unlock (Set_ "patch-sublevel" Sublevel s), Returns tt).

(** X25.  [Init] returns exactly on a state that has neither a patch level nor a
    patch sublevel; it then records both and touches nothing else.  On any
    other state it panics, and so does a second [Init] after a first; a panic
    about the level leaves the entries as they were.  The lock is taken once
    and released once, also when it panics. *)
Theorem Init_expects_empty_state (Level Sublevel : Z) (s : State) :
  let s' := fst (Init Level Sublevel s) in
  (snd (Init Level Sublevel s) = Returns tt <->
   data s !! "patch-level"%string = None /\
   data s !! "patch-sublevel"%string = None) /\
  (snd (Init Level Sublevel s) = Returns tt ->
   data s' !! "patch-level"%string = Some (VInt Level) /\
   data s' !! "patch-sublevel"%string = Some (VInt Sublevel) /\
   (forall k : string, k <> "patch-level"%string -> k <> "patch-sublevel"%string ->
      data s' !! k = data s !! k) /\
   exists msg, snd (Init Level Sublevel s') = Panics msg) /\
  (data s !! "patch-level"%string <> None -> data s' = data s) /\
  trace s' = trace s ++ [EvLock; EvUnlock].
Proof.
  cbv zeta. unfold Init, Get, Lock, Unlock, Set_. cbn [data trace].
  destruct (data s !! "patch-level"%string) as [[n|raw]|] eqn:El; cbn [is_no_state negb].
  1,2: (split; [split; [discriminate | intros (H & _); discriminate H]|];
        split; [discriminate|]; split; [reflexivity|];
        cbn [fst trace]; rewrite <- app_assoc; reflexivity).
  rewrite lookup_insert_ne by discriminate.
  destruct (data s !! "patch-sublevel"%string) as [[n|raw]|] eqn:Es;
    cbn [is_no_state negb fst snd data trace].
  1,2: (split; [split; [discriminate | intros (_ & H); discriminate H]|];
        split; [discriminate|]; split; [intros H; now elim H|];
        rewrite <- app_assoc; reflexivity).
  split; [split; auto|].
  split; [|split; [intros H; now elim H | rewrite <- app_assoc; reflexivity]].
  intros _. split; [|split; [|split]].
  - rewrite lookup_insert_ne by discriminate. apply lookup_insert_eq.
  - apply lookup_insert_eq.
  - intros k H1 H2. rewrite !lookup_insert_ne by congruence. reflexivity.
  - rewrite lookup_insert_ne by discriminate. rewrite lookup_insert_eq.
    cbn [is_no_state negb snd]. eexists. reflexivity.
Qed.

(** TestNew: a new state gets level 1, sublevel 0. *)
Lemma Init_expects_empty_state_witness :
  snd (Init 1 0 (mk_State ∅ [])) = Returns tt.
Proof.
  apply (proj1 (Init_expects_empty_state 1 0 (mk_State ∅ []))).
  split; apply lookup_empty.
Defined.

End Patch.
